(** * Student roster statistics (cs102_pandas.py): a shallow embedding

    The development follows [src/homework01/cs102_pandas.py]:
    - Python [str] values are sequences of Unicode code points;
    - [re.search] and [re.match] are a backtracking matcher over a small
      regex syntax, the patterns are transcribed from the source;
    - a [DataFrame] is a list of labelled rows; frames live in a heap, so
      that the in-place assignment of a column and the new frames made by
      boolean indexing and [sort_values] are explicit;
    - student numbers are integers, the differences of [Series.diff] are
      exact (the numbers of the roster have six digits);
    - floats are the binary64 floats of the kernel; the mean of a float
      column, the mean and median of counts and [round] are parameters of
      the queries that use them. *)

From Stdlib Require Import List NArith ZArith Bool Lia String Ascii Floats.
From Stdlib Require Import Sorted Permutation.
From stdpp Require Import gmap strings sorting.
Import ListNotations.

Local Open Scope nat_scope.

(** ** Python strings as code points *)

Module PyStr.

Definition pystr := list N.

(** UTF-8 decoding, only used to write string literals of the source as Rocq
    strings. *)
Fixpoint utf8_decode (bs : list N) : pystr :=
  match bs with
  | [] => []
  | b0 :: t =>
    if (b0 <? 128)%N then b0 :: utf8_decode t
    else if (b0 <? 224)%N then
      match t with
      | b1 :: t1 => ((b0 - 192) * 64 + (b1 - 128))%N :: utf8_decode t1
      | _ => []
      end
    else if (b0 <? 240)%N then
      match t with
      | b1 :: b2 :: t2 =>
        ((b0 - 224) * 4096 + (b1 - 128) * 64 + (b2 - 128))%N :: utf8_decode t2
      | _ => []
      end
    else
      match t with
      | b1 :: b2 :: b3 :: t3 =>
        ((b0 - 240) * 262144 + (b1 - 128) * 4096 + (b2 - 128) * 64 + (b3 - 128))%N
          :: utf8_decode t3
      | _ => []
      end
  end.

Definition ustr (s : string) : pystr :=
  utf8_decode (map N_of_ascii (list_ascii_of_string s)).

End PyStr.
Export PyStr.

(** ** The fragment of Python's [re] used by the source *)

Module Re.

(** A character class is a list of inclusive code-point ranges; a literal
    character [c] is the range [(c, c)]. *)
Definition charset := list (N * N).

Definition in_set (c : N) (cs : charset) : bool :=
  existsb (fun r => (fst r <=? c)%N && (c <=? snd r)%N) cs.

Inductive regex : Type :=
| Eps
| Bol                       (* ^  *)
| Wordb                     (* \b *)
| Cset (cs : charset)       (* [...] or a literal *)
| Cat (r1 r2 : regex)
| Alt (r1 r2 : regex)
| Star (r : regex).         (* greedy r* *)

Definition Plus (r : regex) : regex := Cat r (Star r).
Definition Lit (c : N) : regex := Cset [(c, c)].
Definition Seq (rs : list regex) : regex := fold_right Cat Eps rs.
Definition Str (l : pystr) : regex := Seq (map Lit l).
Fixpoint Alts (rs : list regex) : regex :=
  match rs with
  | [] => Cset []
  | [r] => r
  | r :: rs' => Alt r (Alts rs')
  end.

(** A cursor is a position in the subject string: the characters to its left,
    nearest first, and the characters to its right. *)
Definition cursor := (list N * list N)%type.

Section Engine.

(** [isw c]: the character is a word character ([\w]). *)
Variable isw : N -> bool.

Definition word_at (l : list N) : bool :=
  match l with
  | c :: _ => isw c
  | [] => false
  end.

(** [\b]: exactly one of the two neighbours is a word character; the ends of
    the string count as non-word. *)
Definition at_boundary (p t : list N) : bool := xorb (word_at p) (word_at t).

(** Greedy iteration: more repetitions are tried first, an iteration that
    consumes nothing is not repeated. *)
Fixpoint iter_star (f : cursor -> list cursor) (fuel : nat) (c : cursor)
  : list cursor :=
  match fuel with
  | 0 => []
  | S n =>
    flat_map (fun c' => if length (snd c') <? length (snd c)
                        then iter_star f n c' else []) (f c)
  end ++ [c].

(** All cursors at which a match of [r] started at [c] can end, in the order
    the backtracking matcher tries them. *)
Fixpoint step (r : regex) (c : cursor) {struct r} : list cursor :=
  match r with
  | Eps => [c]
  | Bol => match fst c with [] => [c] | _ => [] end
  | Wordb => if at_boundary (fst c) (snd c) then [c] else []
  | Cset cs =>
    match snd c with
    | x :: t => if in_set x cs then [(x :: fst c, t)] else []
    | [] => []
    end
  | Cat r1 r2 => flat_map (step r2) (step r1 c)
  | Alt r1 r2 => step r1 c ++ step r2 c
  | Star r1 => iter_star (step r1) (length (snd c)) c
  end.

(** [re.search]: the leftmost start position with a match, if any; only the
    truth value of the result is used by the source. *)
Fixpoint search_from (r : regex) (p t : list N) : bool :=
  match step r (p, t) with
  | _ :: _ => true
  | [] =>
    match t with
    | [] => false
    | x :: t' => search_from r (x :: p) t'
    end
  end.

Definition search (r : regex) (s : pystr) : bool := search_from r [] s.

(** [re.match]: a match starting at the beginning of the string. *)
Definition match_start (r : regex) (s : pystr) : bool :=
  match step r ([], s) with
  | _ :: _ => true
  | [] => false
  end.

(** Declarative reading: [denotes r pre w post] when [r] matches the segment
    [w] of the string [pre ++ w ++ post]. *)
Inductive denotes : regex -> list N -> list N -> list N -> Prop :=
| D_eps pre post : denotes Eps pre [] post
| D_bol post : denotes Bol [] [] post
| D_wordb pre post :
    at_boundary (rev pre) post = true -> denotes Wordb pre [] post
| D_cset cs x pre post :
    in_set x cs = true -> denotes (Cset cs) pre [x] post
| D_cat r1 r2 pre w1 w2 post :
    denotes r1 pre w1 (w2 ++ post) -> denotes r2 (pre ++ w1) w2 post ->
    denotes (Cat r1 r2) pre (w1 ++ w2) post
| D_alt_l r1 r2 pre w post :
    denotes r1 pre w post -> denotes (Alt r1 r2) pre w post
| D_alt_r r1 r2 pre w post :
    denotes r2 pre w post -> denotes (Alt r1 r2) pre w post
| D_star_nil r pre post : denotes (Star r) pre [] post
| D_star_cons r pre w1 w2 post :
    denotes r pre w1 (w2 ++ post) -> denotes (Star r) (pre ++ w1) w2 post ->
    denotes (Star r) pre (w1 ++ w2) post.

(** What a result cursor of [step] says about the consumed segment. *)
Definition reaches (r : regex) (c c' : cursor) : Prop :=
  exists w, snd c = w ++ snd c' /\ fst c' = rev w ++ fst c /\
            denotes r (rev (fst c)) w (snd c').

End Engine.

End Re.

(** ** Word characters

    [\w] of a [str] pattern: the code points for which [str.isalnum] holds,
    and the underscore (CPython 3.11, Unicode 14.0.0), as inclusive ranges. *)

Module Unicode.

Definition word_ranges : Re.charset :=
  [(48, 57); (65, 90); (95, 95); (97, 122); (170, 170); (178, 179);
   (181, 181); (185, 186); (188, 190); (192, 214); (216, 246); (248, 705);
   (710, 721); (736, 740); (748, 748); (750, 750); (880, 884); (886, 887);
   (890, 893); (895, 895); (902, 902); (904, 906); (908, 908); (910, 929);
   (931, 1013); (1015, 1153); (1162, 1327); (1329, 1366); (1369, 1369);
   (1376, 1416); (1488, 1514); (1519, 1522); (1568, 1610); (1632, 1641);
   (1646, 1647); (1649, 1747); (1749, 1749); (1765, 1766); (1774, 1788);
   (1791, 1791); (1808, 1808); (1810, 1839); (1869, 1957); (1969, 1969);
   (1984, 2026); (2036, 2037); (2042, 2042); (2048, 2069); (2074, 2074);
   (2084, 2084); (2088, 2088); (2112, 2136); (2144, 2154); (2160, 2183);
   (2185, 2190); (2208, 2249); (2308, 2361); (2365, 2365); (2384, 2384);
   (2392, 2401); (2406, 2415); (2417, 2432); (2437, 2444); (2447, 2448);
   (2451, 2472); (2474, 2480); (2482, 2482); (2486, 2489); (2493, 2493);
   (2510, 2510); (2524, 2525); (2527, 2529); (2534, 2545); (2548, 2553);
   (2556, 2556); (2565, 2570); (2575, 2576); (2579, 2600); (2602, 2608);
   (2610, 2611); (2613, 2614); (2616, 2617); (2649, 2652); (2654, 2654);
   (2662, 2671); (2674, 2676); (2693, 2701); (2703, 2705); (2707, 2728);
   (2730, 2736); (2738, 2739); (2741, 2745); (2749, 2749); (2768, 2768);
   (2784, 2785); (2790, 2799); (2809, 2809); (2821, 2828); (2831, 2832);
   (2835, 2856); (2858, 2864); (2866, 2867); (2869, 2873); (2877, 2877);
   (2908, 2909); (2911, 2913); (2918, 2927); (2929, 2935); (2947, 2947);
   (2949, 2954); (2958, 2960); (2962, 2965); (2969, 2970); (2972, 2972);
   (2974, 2975); (2979, 2980); (2984, 2986); (2990, 3001); (3024, 3024);
   (3046, 3058); (3077, 3084); (3086, 3088); (3090, 3112); (3114, 3129);
   (3133, 3133); (3160, 3162); (3165, 3165); (3168, 3169); (3174, 3183);
   (3192, 3198); (3200, 3200); (3205, 3212); (3214, 3216); (3218, 3240);
   (3242, 3251); (3253, 3257); (3261, 3261); (3293, 3294); (3296, 3297);
   (3302, 3311); (3313, 3314); (3332, 3340); (3342, 3344); (3346, 3386);
   (3389, 3389); (3406, 3406); (3412, 3414); (3416, 3425); (3430, 3448);
   (3450, 3455); (3461, 3478); (3482, 3505); (3507, 3515); (3517, 3517);
   (3520, 3526); (3558, 3567); (3585, 3632); (3634, 3635); (3648, 3654);
   (3664, 3673); (3713, 3714); (3716, 3716); (3718, 3722); (3724, 3747);
   (3749, 3749); (3751, 3760); (3762, 3763); (3773, 3773); (3776, 3780);
   (3782, 3782); (3792, 3801); (3804, 3807); (3840, 3840); (3872, 3891);
   (3904, 3911); (3913, 3948); (3976, 3980); (4096, 4138); (4159, 4169);
   (4176, 4181); (4186, 4189); (4193, 4193); (4197, 4198); (4206, 4208);
   (4213, 4225); (4238, 4238); (4240, 4249); (4256, 4293); (4295, 4295);
   (4301, 4301); (4304, 4346); (4348, 4680); (4682, 4685); (4688, 4694);
   (4696, 4696); (4698, 4701); (4704, 4744); (4746, 4749); (4752, 4784);
   (4786, 4789); (4792, 4798); (4800, 4800); (4802, 4805); (4808, 4822);
   (4824, 4880); (4882, 4885); (4888, 4954); (4969, 4988); (4992, 5007);
   (5024, 5109); (5112, 5117); (5121, 5740); (5743, 5759); (5761, 5786);
   (5792, 5866); (5870, 5880); (5888, 5905); (5919, 5937); (5952, 5969);
   (5984, 5996); (5998, 6000); (6016, 6067); (6103, 6103); (6108, 6108);
   (6112, 6121); (6128, 6137); (6160, 6169); (6176, 6264); (6272, 6276);
   (6279, 6312); (6314, 6314); (6320, 6389); (6400, 6430); (6470, 6509);
   (6512, 6516); (6528, 6571); (6576, 6601); (6608, 6618); (6656, 6678);
   (6688, 6740); (6784, 6793); (6800, 6809); (6823, 6823); (6917, 6963);
   (6981, 6988); (6992, 7001); (7043, 7072); (7086, 7141); (7168, 7203);
   (7232, 7241); (7245, 7293); (7296, 7304); (7312, 7354); (7357, 7359);
   (7401, 7404); (7406, 7411); (7413, 7414); (7418, 7418); (7424, 7615);
   (7680, 7957); (7960, 7965); (7968, 8005); (8008, 8013); (8016, 8023);
   (8025, 8025); (8027, 8027); (8029, 8029); (8031, 8061); (8064, 8116);
   (8118, 8124); (8126, 8126); (8130, 8132); (8134, 8140); (8144, 8147);
   (8150, 8155); (8160, 8172); (8178, 8180); (8182, 8188); (8304, 8305);
   (8308, 8313); (8319, 8329); (8336, 8348); (8450, 8450); (8455, 8455);
   (8458, 8467); (8469, 8469); (8473, 8477); (8484, 8484); (8486, 8486);
   (8488, 8488); (8490, 8493); (8495, 8505); (8508, 8511); (8517, 8521);
   (8526, 8526); (8528, 8585); (9312, 9371); (9450, 9471); (10102, 10131);
   (11264, 11492); (11499, 11502); (11506, 11507); (11517, 11517);
   (11520, 11557); (11559, 11559); (11565, 11565); (11568, 11623);
   (11631, 11631); (11648, 11670); (11680, 11686); (11688, 11694);
   (11696, 11702); (11704, 11710); (11712, 11718); (11720, 11726);
   (11728, 11734); (11736, 11742); (11823, 11823); (12293, 12295);
   (12321, 12329); (12337, 12341); (12344, 12348); (12353, 12438);
   (12445, 12447); (12449, 12538); (12540, 12543); (12549, 12591);
   (12593, 12686); (12690, 12693); (12704, 12735); (12784, 12799);
   (12832, 12841); (12872, 12879); (12881, 12895); (12928, 12937);
   (12977, 12991); (13312, 19903); (19968, 42124); (42192, 42237);
   (42240, 42508); (42512, 42539); (42560, 42606); (42623, 42653);
   (42656, 42735); (42775, 42783); (42786, 42888); (42891, 42954);
   (42960, 42961); (42963, 42963); (42965, 42969); (42994, 43009);
   (43011, 43013); (43015, 43018); (43020, 43042); (43056, 43061);
   (43072, 43123); (43138, 43187); (43216, 43225); (43250, 43255);
   (43259, 43259); (43261, 43262); (43264, 43301); (43312, 43334);
   (43360, 43388); (43396, 43442); (43471, 43481); (43488, 43492);
   (43494, 43518); (43520, 43560); (43584, 43586); (43588, 43595);
   (43600, 43609); (43616, 43638); (43642, 43642); (43646, 43695);
   (43697, 43697); (43701, 43702); (43705, 43709); (43712, 43712);
   (43714, 43714); (43739, 43741); (43744, 43754); (43762, 43764);
   (43777, 43782); (43785, 43790); (43793, 43798); (43808, 43814);
   (43816, 43822); (43824, 43866); (43868, 43881); (43888, 44002);
   (44016, 44025); (44032, 55203); (55216, 55238); (55243, 55291);
   (63744, 64109); (64112, 64217); (64256, 64262); (64275, 64279);
   (64285, 64285); (64287, 64296); (64298, 64310); (64312, 64316);
   (64318, 64318); (64320, 64321); (64323, 64324); (64326, 64433);
   (64467, 64829); (64848, 64911); (64914, 64967); (65008, 65019);
   (65136, 65140); (65142, 65276); (65296, 65305); (65313, 65338);
   (65345, 65370); (65382, 65470); (65474, 65479); (65482, 65487);
   (65490, 65495); (65498, 65500); (65536, 65547); (65549, 65574);
   (65576, 65594); (65596, 65597); (65599, 65613); (65616, 65629);
   (65664, 65786); (65799, 65843); (65856, 65912); (65930, 65931);
   (66176, 66204); (66208, 66256); (66273, 66299); (66304, 66339);
   (66349, 66378); (66384, 66421); (66432, 66461); (66464, 66499);
   (66504, 66511); (66513, 66517); (66560, 66717); (66720, 66729);
   (66736, 66771); (66776, 66811); (66816, 66855); (66864, 66915);
   (66928, 66938); (66940, 66954); (66956, 66962); (66964, 66965);
   (66967, 66977); (66979, 66993); (66995, 67001); (67003, 67004);
   (67072, 67382); (67392, 67413); (67424, 67431); (67456, 67461);
   (67463, 67504); (67506, 67514); (67584, 67589); (67592, 67592);
   (67594, 67637); (67639, 67640); (67644, 67644); (67647, 67669);
   (67672, 67702); (67705, 67742); (67751, 67759); (67808, 67826);
   (67828, 67829); (67835, 67867); (67872, 67897); (67968, 68023);
   (68028, 68047); (68050, 68096); (68112, 68115); (68117, 68119);
   (68121, 68149); (68160, 68168); (68192, 68222); (68224, 68255);
   (68288, 68295); (68297, 68324); (68331, 68335); (68352, 68405);
   (68416, 68437); (68440, 68466); (68472, 68497); (68521, 68527);
   (68608, 68680); (68736, 68786); (68800, 68850); (68858, 68899);
   (68912, 68921); (69216, 69246); (69248, 69289); (69296, 69297);
   (69376, 69415); (69424, 69445); (69457, 69460); (69488, 69505);
   (69552, 69579); (69600, 69622); (69635, 69687); (69714, 69743);
   (69745, 69746); (69749, 69749); (69763, 69807); (69840, 69864);
   (69872, 69881); (69891, 69926); (69942, 69951); (69956, 69956);
   (69959, 69959); (69968, 70002); (70006, 70006); (70019, 70066);
   (70081, 70084); (70096, 70106); (70108, 70108); (70113, 70132);
   (70144, 70161); (70163, 70187); (70272, 70278); (70280, 70280);
   (70282, 70285); (70287, 70301); (70303, 70312); (70320, 70366);
   (70384, 70393); (70405, 70412); (70415, 70416); (70419, 70440);
   (70442, 70448); (70450, 70451); (70453, 70457); (70461, 70461);
   (70480, 70480); (70493, 70497); (70656, 70708); (70727, 70730);
   (70736, 70745); (70751, 70753); (70784, 70831); (70852, 70853);
   (70855, 70855); (70864, 70873); (71040, 71086); (71128, 71131);
   (71168, 71215); (71236, 71236); (71248, 71257); (71296, 71338);
   (71352, 71352); (71360, 71369); (71424, 71450); (71472, 71483);
   (71488, 71494); (71680, 71723); (71840, 71922); (71935, 71942);
   (71945, 71945); (71948, 71955); (71957, 71958); (71960, 71983);
   (71999, 71999); (72001, 72001); (72016, 72025); (72096, 72103);
   (72106, 72144); (72161, 72161); (72163, 72163); (72192, 72192);
   (72203, 72242); (72250, 72250); (72272, 72272); (72284, 72329);
   (72349, 72349); (72368, 72440); (72704, 72712); (72714, 72750);
   (72768, 72768); (72784, 72812); (72818, 72847); (72960, 72966);
   (72968, 72969); (72971, 73008); (73030, 73030); (73040, 73049);
   (73056, 73061); (73063, 73064); (73066, 73097); (73112, 73112);
   (73120, 73129); (73440, 73458); (73648, 73648); (73664, 73684);
   (73728, 74649); (74752, 74862); (74880, 75075); (77712, 77808);
   (77824, 78894); (82944, 83526); (92160, 92728); (92736, 92766);
   (92768, 92777); (92784, 92862); (92864, 92873); (92880, 92909);
   (92928, 92975); (92992, 92995); (93008, 93017); (93019, 93025);
   (93027, 93047); (93053, 93071); (93760, 93846); (93952, 94026);
   (94032, 94032); (94099, 94111); (94176, 94177); (94179, 94179);
   (94208, 100343); (100352, 101589); (101632, 101640); (110576, 110579);
   (110581, 110587); (110589, 110590); (110592, 110882); (110928, 110930);
   (110948, 110951); (110960, 111355); (113664, 113770); (113776, 113788);
   (113792, 113800); (113808, 113817); (119520, 119539); (119648, 119672);
   (119808, 119892); (119894, 119964); (119966, 119967); (119970, 119970);
   (119973, 119974); (119977, 119980); (119982, 119993); (119995, 119995);
   (119997, 120003); (120005, 120069); (120071, 120074); (120077, 120084);
   (120086, 120092); (120094, 120121); (120123, 120126); (120128, 120132);
   (120134, 120134); (120138, 120144); (120146, 120485); (120488, 120512);
   (120514, 120538); (120540, 120570); (120572, 120596); (120598, 120628);
   (120630, 120654); (120656, 120686); (120688, 120712); (120714, 120744);
   (120746, 120770); (120772, 120779); (120782, 120831); (122624, 122654);
   (123136, 123180); (123191, 123197); (123200, 123209); (123214, 123214);
   (123536, 123565); (123584, 123627); (123632, 123641); (124896, 124902);
   (124904, 124907); (124909, 124910); (124912, 124926); (124928, 125124);
   (125127, 125135); (125184, 125251); (125259, 125259); (125264, 125273);
   (126065, 126123); (126125, 126127); (126129, 126132); (126209, 126253);
   (126255, 126269); (126464, 126467); (126469, 126495); (126497, 126498);
   (126500, 126500); (126503, 126503); (126505, 126514); (126516, 126519);
   (126521, 126521); (126523, 126523); (126530, 126530); (126535, 126535);
   (126537, 126537); (126539, 126539); (126541, 126543); (126545, 126546);
   (126548, 126548); (126551, 126551); (126553, 126553); (126555, 126555);
   (126557, 126557); (126559, 126559); (126561, 126562); (126564, 126564);
   (126567, 126570); (126572, 126578); (126580, 126583); (126585, 126588);
   (126590, 126590); (126592, 126601); (126603, 126619); (126625, 126627);
   (126629, 126633); (126635, 126651); (127232, 127244); (130032, 130041);
   (131072, 173791); (173824, 177976); (177984, 178205); (178208, 183969);
   (183984, 191456); (194560, 195101); (196608, 201546)]
%N.

Definition uni_isword (c : N) : bool := Re.in_set c word_ranges.

End Unicode.

(** ** Task 3: gender from the patronymic *)

Module Patronym.
Import Re.

Inductive gender : Type := female | male | unknown.

#[global] Instance gender_eq_dec : EqDecision gender.
Proof. solve_decision. Defined.

Definition cp (s : string) : N := hd 0%N (ustr s).
Definition range (a b : string) : N * N := (cp a, cp b).
Definition single (a : string) : N * N := (cp a, cp a).

(** [[А-Яа-я]] *)
Definition cyr : charset := [range "А" "Я"; range "а" "я"].
(** [[А-Яа-я-–]]: the letters, the hyphen-minus and U+2013. *)
Definition cyr_dash : charset :=
  [range "А" "Я"; range "а" "я"; single "-"; single "–"].

(** [\b[А-Яа-я]+(евна|овна|ична|инична)\b] *)
Definition female_patr : regex :=
  Seq [Wordb; Plus (Cset cyr);
       Alts [Str (ustr "евна"); Str (ustr "овна"); Str (ustr "ична");
             Str (ustr "инична")];
       Wordb].

(** [^\b[А-Яа-я-–]*[А-Яа-я]+(ович|евич|ич)\b] *)
Definition male_patr : regex :=
  Seq [Bol; Wordb; Star (Cset cyr_dash); Plus (Cset cyr);
       Alts [Str (ustr "ович"); Str (ustr "евич"); Str (ustr "ич")];
       Wordb].

Definition re_search (r : regex) (s : pystr) : bool :=
  search Unicode.uni_isword r s.

Definition gender_identification (patronym : pystr) : gender :=
  if re_search female_patr patronym then female
  else if re_search male_patr patronym then male
  else unknown.

End Patronym.

(** ** Rows, frames and the column primitives of pandas used by the source *)

Module Frame.
Import Patronym.

(** The columns of the roster: those of the input file, and [surname],
    [name], [patronim] split from [фио] before the queries run. *)
Record student : Type := mkStudent {
  фио : pystr;
  факультет : pystr;
  группа : pystr;
  курс : pystr;
  ису : Z;
  средний_балл : float;
  surname : pystr;
  name : pystr;
  patronim : pystr
}.

(** A cell of a derived column: [NaN], an integer (also an integer held in a
    float column), or one of the strings returned by
    [gender_identification]. *)
Inductive cell : Type := NaN | IntV (z : Z) | StrV (g : gender).

(** A row carries its index label and the cells of the derived columns. *)
Record row : Type := mkRow {
  label : nat;
  base : student;
  cells : gmap string cell
}.

Definition frame := list row.

(** Python exceptions raised by the source. *)
Inductive exn : Type := ValueError | KeyError.
Inductive result (A : Type) : Type := Ok (a : A) | Raise (e : exn).
Arguments Ok {A} a.
Arguments Raise {A} e.

(** Comparison of [str] values: lexicographic on code points. *)
Fixpoint pystr_leb (a b : pystr) : bool :=
  match a, b with
  | [], _ => true
  | _ :: _, [] => false
  | x :: a', y :: b' =>
    if (x <? y)%N then true
    else if (y <? x)%N then false
    else pystr_leb a' b'
  end.

Definition pystr_eqb (a b : pystr) : bool := bool_decide (a = b).

(** A stable insertion sort stands for [sorted] and [sort_values]; the order
    of rows with equal keys is never observed by the source. *)
Fixpoint insert_by {A : Type} (le : A -> A -> bool) (x : A) (l : list A)
  : list A :=
  match l with
  | [] => [x]
  | y :: t => if le x y then x :: y :: t else y :: insert_by le x t
  end.

Definition sort_by {A : Type} (le : A -> A -> bool) (l : list A) : list A :=
  fold_right (insert_by le) [] l.

(** [frame[mask]]: the rows at which the mask is true, as a new list. *)
Definition select {A : Type} (l : list A) (mask : list bool) : list A :=
  map fst (List.filter snd (combine l mask)).

Section Generic.
Context {A : Type}.
Context `{EqDecision A}.

(** [Series.unique]: the distinct values in order of first appearance. *)
Fixpoint unique (l : list A) : list A :=
  match l with
  | [] => []
  | x :: t => x :: List.filter (fun y => negb (bool_decide (y = x))) (unique t)
  end.

Definition count (x : A) (l : list A) : nat :=
  length (List.filter (fun y => bool_decide (y = x)) l).

(** [Series.value_counts]: each distinct value with its number of
    occurrences, most frequent first. *)
Definition value_counts (l : list A) : list (A * nat) :=
  sort_by (fun p q => snd q <=? snd p)
          (map (fun v => (v, count v l)) (unique l)).

(** [series[key]] on a counted series, [0] for an absent key. *)
Definition series_get (x : A) (s : list (A * nat)) : nat :=
  match List.find (fun p => bool_decide (fst p = x)) s with
  | Some p => snd p
  | None => 0
  end.

(** [max(d, key=d.get)] over the items of a dict in insertion order: the
    first key whose value no later value exceeds. *)
Fixpoint max_from {V : Type} (gt : V -> V -> bool) (best : A * V)
  (l : list (A * V)) : A :=
  match l with
  | [] => fst best
  | p :: t => if gt (snd p) (snd best) then max_from gt p t
              else max_from gt best t
  end.

Definition py_max_key {V : Type} (gt : V -> V -> bool) (d : list (A * V))
  : result A :=
  match d with
  | [] => Raise ValueError
  | p :: t => Ok (max_from gt p t)
  end.

End Generic.

(** [Series.diff()]: the difference with the previous element, [NaN] first. *)
Fixpoint diff_from (prev : Z) (l : list Z) : list cell :=
  match l with
  | [] => []
  | x :: t => IntV (x - prev) :: diff_from x t
  end.

Definition diff (l : list Z) : list cell :=
  match l with
  | [] => []
  | x :: t => NaN :: diff_from x t
  end.

(** [series != 1], element by element; [NaN != 1] holds. *)
Definition ne_one (c : cell) : bool :=
  match c with
  | IntV z => negb (z =? 1)%Z
  | _ => true
  end.

(** [cumsum] of a boolean series. *)
Fixpoint cumsum_from (acc : Z) (l : list bool) : list Z :=
  match l with
  | [] => []
  | b :: t => let acc' := (acc + if b then 1 else 0)%Z in
              acc' :: cumsum_from acc' t
  end.

Definition cumsum (l : list bool) : list Z := cumsum_from 0 l.

(** [groupby(col).size()]: the distinct keys in ascending order, each with
    its number of rows. *)
Definition groupby_size (keys : list Z) : list (Z * nat) :=
  map (fun k => (k, count k keys)) (sort_by Z.leb (unique keys)).

(** [series.isin(values)]. *)
Definition isin (values : list Z) (l : list Z) : list bool :=
  map (fun x => existsb (fun v => (v =? x)%Z) values) l.

(** Reading a column of a frame. *)
Definition col {B : Type} (f : student -> B) (fr : frame) : list B :=
  map (fun r => f (base r)) fr.

Definition derived_col (c : string) (fr : frame) : result (list cell) :=
  match mapM (fun r => cells r !! c) fr with
  | Some l => Ok l
  | None => Raise KeyError
  end.

(** [frame[c] = values], the values already aligned with the rows. *)
Definition set_col (c : string) (values : list cell) (fr : frame) : frame :=
  map (fun rv => mkRow (label (fst rv)) (base (fst rv))
                       (<[c := snd rv]> (cells (fst rv))))
      (combine fr values).

(** Alignment of a labelled series with the rows of a frame: the value with
    the row's label, [NaN] where the series has none. *)
Definition align (ser : list (nat * cell)) (fr : frame) : list cell :=
  map (fun r => match List.find (fun p => fst p =? label r) ser with
                | Some p => snd p
                | None => NaN
                end) fr.

(** A boolean series indexed by labels, reindexed to the rows of a frame;
    a missing label selects nothing. *)
Definition reindex_mask (m : list (nat * bool)) (fr : frame) : list bool :=
  map (fun r => match List.find (fun p => fst p =? label r) m with
                | Some p => snd p
                | None => false
                end) fr.

End Frame.

(** ** The heap of frames

    A [DataFrame] variable holds a reference; [data[mask]] and
    [data.sort_values(...)] build a new frame, [frame[c] = values] updates
    the frame it is applied to in place. *)

Module Store.
Import Frame.

Definition M (A : Type) : Type := gmap nat frame -> result A * gmap nat frame.

Definition ret {A : Type} (a : A) : M A := fun h => (Ok a, h).

Definition bind {A B : Type} (m : M A) (k : A -> M B) : M B :=
  fun h => match m h with
           | (Ok a, h') => k a h'
           | (Raise e, h') => (Raise e, h')
           end.

Definition lift {A : Type} (r : result A) : M A := fun h => (r, h).

(** A new frame object at an unused address. *)
Definition alloc (fr : frame) : M nat :=
  fun h => let l := fresh (dom h) in (Ok l, <[l := fr]> h).

Definition load (l : nat) : M frame :=
  fun h => match h !! l with
           | Some fr => (Ok fr, h)
           | None => (Raise KeyError, h)
           end.

(** [frame[c] = values]: in place. *)
Definition setitem (l : nat) (c : string) (values : list cell) : M unit :=
  fun h => match h !! l with
           | Some fr => (Ok tt, <[l := set_col c values fr]> h)
           | None => (Raise KeyError, h)
           end.

(** Every frame of [h0] is in [h] with the same rows and cells. *)
Definition keeps (h0 h : gmap nat frame) : Prop :=
  forall l fr, h0 !! l = Some fr -> h !! l = Some fr.

(** Run from a heap that keeps [h0], the computation ends in a heap that
    keeps [h0], and a returned value satisfies [Q]. *)
Definition framed (h0 : gmap nat frame) {A : Type} (m : M A) (Q : A -> Prop)
  : Prop :=
  forall h r h', keeps h0 h -> m h = (r, h') ->
                 keeps h0 h' /\ forall a, r = Ok a -> Q a.

(** Whatever the heap and the outcome, the frames that existed before the
    call are the same after it. *)
Definition leaves_frames_unchanged {A : Type} (m : M A) : Prop :=
  forall h r h', m h = (r, h') -> keeps h h'.

End Store.

#[global] Instance store_ret : MRet Store.M := @Store.ret.
#[global] Instance store_bind : MBind Store.M :=
  fun A B k m => Store.bind m k.

(** ** The queries *)

Module Queries.
Import Patronym Frame Store.

Definition by_курс (r1 r2 : row) : bool :=
  pystr_leb (курс (base r1)) (курс (base r2)).
Definition by_группа (r1 r2 : row) : bool :=
  pystr_leb (группа (base r1)) (группа (base r2)).
Definition by_ису (r1 r2 : row) : bool :=
  (ису (base r1) <=? ису (base r2))%Z.

(** [frame[frame.c == v]] for a string column. *)
Definition where_eq (f : student -> pystr) (v : pystr) (fr : frame) : frame :=
  List.filter (fun r => pystr_eqb (f (base r)) v) fr.

(** A query that only reads its roster, called with a reference to it. *)
Definition on_frame {B : Type} (query : frame -> B) (data : nat) : M B :=
  d ← load data; mret (query d).

Definition on_frame_result {B : Type} (query : frame -> result B) (data : nat)
  : M B :=
  d ← load data; lift (query d).

(** *** Task 1 *)

Definition fsuir : pystr :=
  ustr "факультет систем управления и робототехники".

Definition filter_fsuir_students (data : nat) : M (nat * nat * nat) :=
  d ← load data;
  fsuirs ← alloc (where_eq факультет fsuir d);
  f ← load fsuirs;
  mret (length f, length (unique (col группа f)), fsuirs).

(** *** Task 2 *)

(** [sum(numb for numb in frame.surname.value_counts() if numb > 1)] *)
Definition homonyms (fr : frame) : nat :=
  list_sum (List.filter (fun numb => 1 <? numb)
                        (map snd (value_counts (col surname fr)))).

Definition find_homonymous_students (df : frame)
  : result (bool * nat * list (pystr * nat) * pystr) :=
  let surnames := map snd (value_counts (col surname df)) in
  let exist := existsb (fun numb => 1 <? numb) surnames in
  let homonyms_numb := list_sum (List.filter (fun numb => 1 <? numb) surnames) in
  let df := sort_by by_курс df in
  let courses := sort_by pystr_leb (unique (col курс df)) in
  let hom_on_course :=
    map (fun c => (c, homonyms (where_eq курс c df))) courses in
  let df := sort_by by_группа df in
  let groups := unique (col группа df) in
  let groups_with_homs :=
    map (fun group => (group, homonyms (where_eq группа group df))) groups in
  match py_max_key (fun a b => b <? a) groups_with_homs with
  | Ok max_hom_group => Ok (exist, homonyms_numb, hom_on_course, max_hom_group)
  | Raise e => Raise e
  end.

(** *** Task 3 *)

Definition analyze_patronyms (df : frame) : nat * list (gender * nat) :=
  let stud_without_patr :=
    length (List.filter (fun patr => pystr_eqb patr []) (col patronim df)) in
  let stud_with_patr :=
    List.filter (fun r => negb (pystr_eqb (patronim (base r)) [])) df in
  let genders :=
    value_counts (map gender_identification (col patronim stud_with_patr)) in
  (stud_without_patr, genders).

(** *** Task 4 *)

(** [stats.at[i, ...]] on a table indexed [1..n]. *)
Definition at_index {B : Type} (i : nat) (stats : list (nat * B)) : result B :=
  match List.find (fun p => fst p =? i) stats with
  | Some p => Ok (snd p)
  | None => Raise KeyError
  end.

Definition faculty_statistics (data : frame)
  : result (list (nat * (pystr * nat)) * (pystr * nat) * (pystr * nat)) :=
  let faculties := value_counts (col факультет data) in
  let stats := combine (seq 1 (length faculties)) faculties in
  match at_index (length faculties) stats with
  | Raise e => Raise e
  | Ok min_f =>
    match at_index 1 stats with
    | Raise e => Raise e
    | Ok max_f => Ok (stats, max_f, min_f)
    end
  end.

(** *** Task 5 *)

Section Task5.

(** [mean] and [median] of a series of counts, as floats of the runtime. *)
Variable counts_mean : list nat -> float.
Variable counts_median : list nat -> float.

Definition course_statistics (data : frame)
  : list (pystr * float) * list (pystr * float) :=
  let courses := sort_by pystr_leb (unique (col курс data)) in
  let per_faculty cur :=
    map snd (value_counts (col факультет (where_eq курс cur data))) in
  let stats_c_av := map (fun cur => (cur, counts_mean (per_faculty cur))) courses in
  let stats_c_med :=
    map (fun cur => (cur, counts_median (per_faculty cur))) courses in
  (stats_c_av, stats_c_med).

End Task5.

(** *** Task 6 *)

Section Task6.

(** [round(count / total, 2)], a float of the runtime. *)
Variable round_share : nat -> nat -> float.

(** [column.describe()["top"]]: the first key of [value_counts]. On a column
    without values it is [NaN], with which the last line of
    [most_popular_name] raises [KeyError]; nothing in between has an effect,
    so the model raises at once. *)
Definition describe_top (l : list pystr) : result pystr :=
  match value_counts l with
  | [] => Raise KeyError
  | p :: _ => Ok (fst p)
  end.

(** [frame[mask]] with a mask made on another frame: reindexed by label. *)
Definition where_also (f : student -> pystr) (v : pystr) (data fr : frame)
  : frame :=
  select fr (reindex_mask
               (combine (map label data)
                        (map (fun r => pystr_eqb (f (base r)) v) data)) fr).

Definition most_popular_name (data : frame)
  : result (pystr * pystr * pystr * pystr * float) :=
  match describe_top (col name data) with
  | Raise e => Raise e
  | Ok top_name =>
    let named := where_eq name top_name data in
    match describe_top (col группа named) with
    | Raise e => Raise e
    | Ok top_group =>
      let grouped := where_also группа top_group data named in
      match describe_top (col факультет grouped) with
      | Raise e => Raise e
      | Ok top_fclt =>
        match describe_top
                (col курс (where_also факультет top_fclt data grouped)) with
        | Raise e => Raise e
        | Ok top_course =>
          let frac := round_share (count top_name (col name data))
                                  (length data) in
          Ok (top_name, top_group, top_fclt, top_course, frac)
        end
      end
    end
  end.

End Task6.

(** *** Task 7 *)

(** [\bП[А-Яа-яё\-–]+\b] *)
Definition name_pat : Re.regex :=
  Re.Seq [Re.Wordb; Re.Lit (cp "П");
          Re.Plus (Re.Cset [range "А" "Я"; range "а" "я"; single "ё";
                            single "-"; single "–"]);
          Re.Wordb].

Definition find_students_with_name_starting_P (data : frame)
  : result (list (nat * (pystr * pystr * pystr))) :=
  let names := value_counts (col name data) in
  let ones :=
    List.filter (fun n => Re.match_start Unicode.uni_isword name_pat n
                          && (series_get n names =? 1))
                (map fst names) in
  match ones with
  | [] => Raise ValueError
  | _ =>
    Ok (flat_map
          (fun one => map (fun r => (label r, (фио (base r), факультет (base r),
                                               курс (base r))))
                          (where_eq name one data))
          ones)
  end.

(** *** Task 9 *)

Definition area_of (ids : list Z) : list Z :=
  cumsum (map ne_one (diff ids)).

(** [area_sizes[area_sizes >= k].index]; the source fixes [k = 5]. *)
Definition valid_areas (k : nat) (area : list Z) : list Z :=
  map fst (List.filter (fun p => k <=? snd p) (groupby_size area)).

(** The integers of a column. *)
Definition ints (l : list cell) : result (list Z) :=
  match mapM (fun c => match c with IntV z => Some z | _ => None end) l with
  | Some zs => Ok zs
  | None => Raise ValueError
  end.

(** The columns kept in the answer. *)
Record card : Type := mkCard {
  card_label : nat;
  card_фио : pystr;
  card_факультет : pystr;
  card_курс : pystr;
  card_группа : pystr;
  card_ису : Z
}.

Definition card_of (r : row) : card :=
  mkCard (label r) (фио (base r)) (факультет (base r)) (курс (base r))
         (группа (base r)) (ису (base r)).

Definition find_consecutive_students (data : nat) : M (list card) :=
  d ← load data;
  isu ← alloc (sort_by by_ису d);
  f ← load isu;
  setitem isu "diff" (diff (col ису f));;
  f ← load isu;
  dcol ← lift (derived_col "diff" f);
  setitem isu "area" (map IntV (cumsum (map ne_one dcol)));;
  f ← load isu;
  acol ← lift (derived_col "area" f);
  area ← lift (ints acol);
  let valid := valid_areas 5 area in
  let firsts := select f (isin valid area) in
  mret (firstn 5 (map card_of firsts)).

(** The rows of [firsts] taken area by area: the groups of rows with
    consecutive numbers that [find_consecutive_students] keeps, for a
    threshold [k]. *)
Definition runs (k : nat) (ids : list Z) : list (list Z) :=
  let area := area_of ids in
  map (fun a => select ids (map (Z.eqb a) area)) (valid_areas k area).

Definition firsts_ids (k : nat) (ids : list Z) : list Z :=
  let area := area_of ids in
  select ids (isin (valid_areas k area) area).

(** *** Task 8 *)

Section Task8.

(** [describe()["mean"]] of a float column and [round] of a float are taken
    from the runtime: the mean of floats depends on the order of summation,
    [round] raises on [NaN]. *)
Variable series_mean : list float -> float.
Variable py_round : float -> result Z.

Definition is_str (g : gender) (c : cell) : bool :=
  match c with
  | StrV g' => bool_decide (g' = g)
  | _ => false
  end.

Definition highest_avg_grade_faculty (data : nat) : M (pystr * gender * Z) :=
  d ← load data;
  crs_stat ← alloc (where_eq курс (ustr "3-й") d);
  cs ← load crs_stat;
  let fclts := unique (col факультет cs) in
  let top_point_fclt_kw :=
    map (fun fclt =>
           (fclt, series_mean (col средний_балл (where_eq факультет fclt cs))))
        fclts in
  top_point_fclt ← lift (py_max_key (fun a b => PrimFloat.ltb b a)
                                     top_point_fclt_kw);
  cs ← load crs_stat;
  let пол :=
    map (fun r => (label r, StrV (gender_identification (patronim (base r)))))
        (where_eq факультет top_point_fclt cs) in
  setitem crs_stat "пол" (align пол cs);;
  cs ← load crs_stat;
  pcol ← lift (derived_col "пол" cs);
  let top_rows := where_eq факультет top_point_fclt cs in
  let mean_of g :=
    series_mean
      (col средний_балл
           (select top_rows
                   (reindex_mask (combine (map label cs) (map (is_str g) pcol))
                                 top_rows))) in
  let crs_stat_m := mean_of male in
  let crs_stat_w := mean_of female in
  if PrimFloat.ltb crs_stat_w crs_stat_m
  then r ← lift (py_round crs_stat_m); mret (top_point_fclt, male, r)
  else r ← lift (py_round crs_stat_w); mret (top_point_fclt, female, r).

End Task8.

End Queries.

(** ** Sample rosters *)

Module Samples.
Import Frame.

Definition sample_row (i : nat) (fac grp crs sur pat : string) (id : Z) : row :=
  mkRow i
        (mkStudent (ustr sur ++ ustr " Имя " ++ ustr pat) (ustr fac) (ustr grp)
                   (ustr crs) id 4.5%float (ustr sur) (ustr "Имя") (ustr pat))
        ∅.

(** Three students of one group, two of them with the same surname. *)
Definition roster3 : frame :=
  [sample_row 0 "ФСУиР" "R3135" "1-й" "Иванов" "Петрович" 100;
   sample_row 1 "ФСУиР" "R3135" "1-й" "Иванов" "Ильич" 101;
   sample_row 2 "ФСУиР" "R3135" "1-й" "Петрова" "Ивановна" 102].

(** A roster with the given student numbers, in the given order. *)
Definition roster_of_ids (ids : list Z) : frame :=
  map (fun p => sample_row (fst p) "ФСУиР" "R3135" "1-й" "Иванов" "Петрович"
                           (snd p))
      (combine (seq 0 (length ids)) ids).

(** Ten students of faculty A, twenty of B, five of C. *)
Definition roster_abc : frame :=
  repeat (sample_row 0 "A" "G1" "1-й" "Иванов" "Петрович" 1) 10
  ++ repeat (sample_row 0 "B" "G2" "1-й" "Иванов" "Петрович" 1) 20
  ++ repeat (sample_row 0 "C" "G3" "1-й" "Иванов" "Петрович" 1) 5.

End Samples.

Module MoreSamples.
Import Frame.

Definition student_row (i : nat) (fac grp crs sur nm pat : string) (id : Z)
  (grade : float) : row :=
  mkRow i
        (mkStudent (ustr sur ++ ustr " " ++ ustr nm ++ ustr " " ++ ustr pat)
                   (ustr fac) (ustr grp) (ustr crs) id grade (ustr sur)
                   (ustr nm) (ustr pat))
        ∅.

(** Five students of two faculties, three of them in the third year. *)
Definition roster5 : frame :=
  [student_row 0 "факультет систем управления и робототехники" "R3335" "3-й"
               "Иванов" "Пётр" "Ильич" 311001 4.5;
   student_row 1 "факультет систем управления и робототехники" "R3335" "3-й"
               "Иванова" "Анна" "Петровна" 311002 4.75;
   student_row 2 "факультет систем управления и робототехники" "R3136" "1-й"
               "Петров" "Иван" "Иванович" 311003 4;
   student_row 3 "факультет программной инженерии" "P3310" "3-й"
               "Сидоров" "Иван" "" 311004 3.5;
   student_row 4 "факультет программной инженерии" "P3110" "1-й"
               "Иванов" "Павел" "Петрович" 311005 5].

End MoreSamples.

(** ** The script: surname, name and patronymic from the full name

    Lines 205 to 213 for a table with at least one row: [фио] is split on
    single spaces into as many columns as the longest row has tokens,
    shorter rows are filled with [None]; the columns 0 to 5 are renamed and
    the patronymic is joined from the columns 2 to 5. *)

Module NameSplit.
Import Frame.

Definition space : N := 32.

(** [s.split(" ")] *)
Fixpoint split_space (s : pystr) : list pystr :=
  match s with
  | [] => [[]]
  | c :: t =>
    if (c =? space)%N then [] :: split_space t
    else match split_space t with
         | w :: ws => (c :: w) :: ws
         | [] => [[c]]
         end
  end.

(** [" ".join(l)] *)
Fixpoint join_space (l : list pystr) : pystr :=
  match l with
  | [] => []
  | [w] => w
  | w :: ws => w ++ space :: join_space ws
  end.

(** [filter(None, [x])]: [None] and the empty string are dropped. *)
Definition truthy (c : option pystr) : list pystr :=
  match c with
  | Some (x :: t) => [x :: t]
  | _ => []
  end.

(** One row: [фамилия], [имя] and the joined [отчество]. *)
Definition names_of (fio : pystr) : option pystr * option pystr * pystr :=
  let row := split_space fio in
  (nth_error row 0, nth_error row 1,
   join_space (flat_map truthy [nth_error row 2; nth_error row 3;
                                nth_error row 4; nth_error row 5])).

(** The table: [row["4е имя"]] is a [KeyError] when no row has six tokens. *)
Definition split_names (first : pystr) (rest : list pystr)
  : result (list (option pystr * option pystr * pystr)) :=
  let width := list_max (map (fun fio => length (split_space fio))
                             (first :: rest)) in
  if width <? 6 then Raise KeyError
  else Ok (map names_of (first :: rest)).

(** A token: not empty, without a space. *)
Definition word (w : pystr) : Prop := w <> [] /\ ~ In space w.

End NameSplit.

(** ** Predicates used to state what the queries answer *)

Module QuerySpec.
Import Frame Queries.

(** A student of the roster whose name is accepted by [name_pat] and is the
    name of no other student. *)
Definition rare_P (data : frame) (r : row) : Prop :=
  In r data /\
  Re.match_start Unicode.uni_isword name_pat (name (base r)) = true /\
  count (name (base r)) (col name data) = 1.

End QuerySpec.

(** ** The two patterns of the source read as predicates on strings *)

Module PatternForms.

(** The class [[А-Яа-я]] of both patterns: U+0410 to U+044F. The letters
    ё (U+0451) and Ё (U+0401) lie outside this range. *)
Definition a_ya_letter (c : N) : Prop := (1040 <= c <= 1103)%N.

Definition hyphen : N := 45.
Definition en_dash : N := 8211.   (* U+2013 *)

(** The alternations that close the two patterns. *)
Definition female_endings : list pystr :=
  [ustr "евна"; ustr "овна"; ustr "ична"; ustr "инична"].
Definition male_endings : list pystr :=
  [ustr "ович"; ustr "евич"; ustr "ич"].

(** [\b]: no word character right before, none right after. *)
Definition free_left (pre : pystr) : Prop :=
  match last pre with
  | Some c => Unicode.uni_isword c = false
  | None => True
  end.
Definition free_right (post : pystr) : Prop :=
  match head post with
  | Some c => Unicode.uni_isword c = false
  | None => True
  end.

(** [female_patr] found somewhere in the string. *)
Definition female_form (s : pystr) : Prop :=
  exists pre u e post,
    s = pre ++ u ++ e ++ post /\ u <> [] /\ Forall a_ya_letter u /\
    In e female_endings /\ free_left pre /\ free_right post.

(** [male_patr] found in the string, that is at its start. *)
Definition male_form (s : pystr) : Prop :=
  exists q u e post,
    s = q ++ u ++ e ++ post /\
    Forall (fun c => a_ya_letter c \/ c = hyphen \/ c = en_dash) q /\
    u <> [] /\ Forall a_ya_letter u /\ In e male_endings /\
    (exists c, head s = Some c /\ a_ya_letter c) /\ free_right post.

End PatternForms.

(** ** The classification rule in the words of the specification

    These predicates are written from the specification, not from the
    source; the theorems compare them with [gender_identification]. The
    endings and the reading of a whole word are those of [PatternForms],
    the specification lists the same endings. *)

Module NameSpec.
Import PatternForms.

Definition yo_capital : N := 1025.   (* Ё, U+0401 *)
Definition yo_small : N := 1105.     (* ё, U+0451 *)

(** A Cyrillic letter: one of the 33 letters of the Russian alphabet in
    either case, А..Я and а..я (U+0410 to U+044F), Ё and ё. *)
Definition cyrillic_letter (c : N) : Prop :=
  (1040 <= c <= 1103)%N \/ c = yo_capital \/ c = yo_small.

Definition em_dash : N := 8212.   (* U+2014 *)

(** One or more Cyrillic letters followed by a female ending, as a whole
    word somewhere in the string. *)
Definition female_pattern (s : pystr) : Prop :=
  exists pre u e post,
    s = pre ++ u ++ e ++ post /\ u <> [] /\ Forall cyrillic_letter u /\
    In e female_endings /\ free_left pre /\ free_right post.

(** From the start of the string: a compound of Cyrillic letters joined by
    hyphens or by the dash [dash], then one or more letters and a male
    ending, as a whole word beginning with a letter. *)
Definition male_pattern (dash : N) (s : pystr) : Prop :=
  exists q u e post,
    s = q ++ u ++ e ++ post /\
    Forall (fun c => cyrillic_letter c \/ c = hyphen \/ c = dash) q /\
    u <> [] /\ Forall cyrillic_letter u /\ In e male_endings /\
    (exists c, head s = Some c /\ cyrillic_letter c) /\ free_right post.

(** The ordered rule of the specification, for the joining dash [dash]. *)
Definition classified (dash : N) (s : pystr) (g : Patronym.gender) : Prop :=
  (g = Patronym.female <-> female_pattern s) /\
  (g = Patronym.male <-> ~ female_pattern s /\ male_pattern dash s) /\
  (g = Patronym.unknown <-> ~ female_pattern s /\ ~ male_pattern dash s).

End NameSpec.

(** ** Runs of consecutive numbers in the words of the specification *)

Module RunSpec.

(** Adjacent members differ by exactly one. *)
Fixpoint consecutive (g : list Z) : Prop :=
  match g with
  | x :: (y :: _) as t => y = (x + 1)%Z /\ consecutive t
  | _ => True
  end.

Definition next_head (gs : list (list Z)) : option Z :=
  match gs with
  | [] => None
  | g :: _ => head g
  end.

(** [gs] lists maximal groups: each group is non-empty and consecutive, and
    the first member of the next group does not continue it. *)
Fixpoint maximal_groups (gs : list (list Z)) : Prop :=
  match gs with
  | [] => True
  | g :: gs' =>
    g <> [] /\ consecutive g /\
    (forall a b, last g = Some a -> next_head gs' = Some b -> b <> (a + 1)%Z) /\
    maximal_groups gs'
  end.

(** The scan: a number joins the group of its successor when the two differ
    by one, and closes a group of its own otherwise. *)
Fixpoint scan_groups (ids : list Z) : list (list Z) :=
  match ids with
  | [] => []
  | x :: t =>
    match scan_groups t with
    | (y :: g) :: gs =>
      if (y - x =? 1)%Z then (x :: y :: g) :: gs else [x] :: (y :: g) :: gs
    | _ => [[x]]
    end
  end.

(** Area labels of the rows of successive groups, from [s] on. *)
Fixpoint labels (s : Z) (gs : list (list Z)) : list Z :=
  match gs with
  | [] => []
  | g :: gs' => repeat s (length g) ++ labels (s + 1) gs'
  end.

Fixpoint sizes (s : Z) (gs : list (list Z)) : list (Z * nat) :=
  match gs with
  | [] => []
  | g :: gs' => (s, length g) :: sizes (s + 1) gs'
  end.

(** The members of the groups whose label satisfies [p]. *)
Fixpoint pick (p : Z -> bool) (s : Z) (gs : list (list Z)) : list Z :=
  match gs with
  | [] => []
  | g :: gs' => (if p s then g else []) ++ pick p (s + 1) gs'
  end.

End RunSpec.

(** * Properties *)

(** ** The matcher against the declarative reading of a pattern *)

Section EngineFacts.
Import Re.

Variable isw : N -> bool.

Local Abbreviation step := (step isw).
Local Abbreviation denotes := (denotes isw).
Local Abbreviation reaches := (reaches isw).

Lemma step_star r c :
  step (Star r) c = iter_star (step r) (length (snd c)) c.
Proof. reflexivity. Qed.

Lemma iter_star_self f fuel c : In c (iter_star f fuel c).
Proof.
  destruct fuel; simpl; [left; reflexivity|].
  apply in_or_app; right; left; reflexivity.
Qed.

Lemma iter_star_mono f n : forall m c x,
  n <= m -> In x (iter_star f n c) -> In x (iter_star f m c).
Proof.
  induction n as [|n IH]; intros m c x Hle Hin.
  - simpl in Hin. destruct Hin as [<-|[]]. apply iter_star_self.
  - destruct m as [|m]; [lia|].
    simpl in Hin |- *. apply in_app_or in Hin. apply in_or_app.
    destruct Hin as [Hin|Hin]; [left|right; exact Hin].
    apply in_flat_map in Hin. destruct Hin as (c1 & Hc1 & Hin).
    apply in_flat_map. exists c1. split; [exact Hc1|].
    destruct (length (snd c1) <? length (snd c)); [|destruct Hin].
    apply IH; [lia|exact Hin].
Qed.

Lemma iter_star_next f n c c1 x :
  In c1 (f c) -> length (snd c1) < length (snd c) ->
  In x (iter_star f n c1) -> In x (iter_star f (S n) c).
Proof.
  intros Hc1 Hlt Hin. simpl. apply in_or_app. left.
  apply in_flat_map. exists c1. split; [exact Hc1|].
  apply Nat.ltb_lt in Hlt. rewrite Hlt. exact Hin.
Qed.

Lemma reaches_star_nil r c : reaches (Star r) c c.
Proof. exists []. repeat split. constructor. Qed.

Lemma reaches_star_cons r c c1 c' :
  reaches r c c1 -> reaches (Star r) c1 c' -> reaches (Star r) c c'.
Proof.
  intros (w1 & Ht1 & Hp1 & D1) (w2 & Ht2 & Hp2 & D2).
  exists (w1 ++ w2). repeat split.
  - rewrite Ht1, Ht2. apply app_assoc.
  - rewrite Hp2, Hp1, rev_app_distr. apply app_assoc.
  - apply D_star_cons.
    + rewrite Ht2 in D1. exact D1.
    + rewrite Hp1, rev_app_distr, rev_involutive in D2. exact D2.
Qed.

Lemma iter_star_sound r :
  (forall c c', In c' (step r c) -> reaches r c c') ->
  forall fuel c c', In c' (iter_star (step r) fuel c) -> reaches (Star r) c c'.
Proof.
  intros Hr. induction fuel as [|n IH]; intros c c' Hin; simpl in Hin.
  - destruct Hin as [<-|[]]. apply reaches_star_nil.
  - apply in_app_or in Hin. destruct Hin as [Hin|[<-|[]]].
    + apply in_flat_map in Hin. destruct Hin as (c1 & Hc1 & Hin).
      destruct (length (snd c1) <? length (snd c)); [|destruct Hin].
      eapply reaches_star_cons; [apply Hr, Hc1|apply IH, Hin].
    + apply reaches_star_nil.
Qed.

Lemma step_sound r : forall c c', In c' (step r c) -> reaches r c c'.
Proof.
  induction r as [| | |cs|r1 IH1 r2 IH2|r1 IH1 r2 IH2|r IH];
    intros [p t] [p' t'] Hin; simpl in Hin.
  - destruct Hin as [[= <- <-]|[]]. exists []. repeat split. constructor.
  - destruct p; [|destruct Hin].
    destruct Hin as [[= <- <-]|[]]. exists []. repeat split. constructor.
  - destruct (at_boundary isw p t) eqn:Hb; [|destruct Hin].
    destruct Hin as [[= <- <-]|[]]. exists []. repeat split.
    constructor. simpl. rewrite rev_involutive. exact Hb.
  - destruct t as [|x t]; [destruct Hin|].
    destruct (in_set x cs) eqn:Hx; [|destruct Hin].
    destruct Hin as [[= <- <-]|[]]. exists [x]. repeat split.
    constructor. exact Hx.
  - apply in_flat_map in Hin. destruct Hin as (c1 & Hc1 & Hin).
    apply IH1 in Hc1. apply IH2 in Hin.
    destruct Hc1 as (w1 & Ht1 & Hp1 & D1), Hin as (w2 & Ht2 & Hp2 & D2).
    simpl in *. exists (w1 ++ w2). repeat split.
    + rewrite Ht1, Ht2. apply app_assoc.
    + rewrite Hp2, Hp1, rev_app_distr. apply app_assoc.
    + apply D_cat.
      * rewrite Ht2 in D1. exact D1.
      * rewrite Hp1, rev_app_distr, rev_involutive in D2. exact D2.
  - apply in_app_or in Hin. destruct Hin as [Hin|Hin].
    + apply IH1 in Hin. destruct Hin as (w & Ht & Hp & D).
      exists w. repeat split; auto. apply D_alt_l, D.
    + apply IH2 in Hin. destruct Hin as (w & Ht & Hp & D).
      exists w. repeat split; auto. apply D_alt_r, D.
  - eapply iter_star_sound; [exact IH|exact Hin].
Qed.

Lemma step_complete r pre w post :
  denotes r pre w post ->
  forall p, rev p = pre -> In (rev w ++ p, post) (step r (p, w ++ post)).
Proof.
  induction 1 as [pre post|post|pre post Hb|cs x pre post Hx
                 |r1 r2 pre w1 w2 post D1 IH1 D2 IH2
                 |r1 r2 pre w post D IH|r1 r2 pre w post D IH
                 |r pre post|r pre w1 w2 post D1 IH1 D2 IH2];
    intros p Hp; simpl.
  - left; reflexivity.
  - assert (p = []) as -> by (destruct p; [reflexivity|];
      simpl in Hp; destruct (rev p); discriminate).
    left; reflexivity.
  - subst pre. rewrite rev_involutive in Hb. rewrite Hb. left; reflexivity.
  - rewrite Hx. left; reflexivity.
  - apply in_flat_map. exists (rev w1 ++ p, w2 ++ post). split.
    + rewrite <- app_assoc. apply IH1, Hp.
    + rewrite rev_app_distr, <- app_assoc. apply IH2.
      rewrite rev_app_distr, rev_involutive, Hp. reflexivity.
  - apply in_or_app. left. apply IH, Hp.
  - apply in_or_app. right. apply IH, Hp.
  - apply iter_star_self.
  - specialize (IH1 p Hp).
    specialize (IH2 (rev w1 ++ p)).
    rewrite rev_app_distr, rev_involutive, Hp in IH2. specialize (IH2 eq_refl).
    rewrite step_star in IH2. simpl snd in IH2.
    destruct w1 as [|x w1].
    + simpl in *. exact IH2.
    + rewrite rev_app_distr, <- !app_assoc.
      apply (iter_star_next _ (length (w1 ++ w2 ++ post)) _ _ _ IH1).
      * simpl. rewrite !length_app. lia.
      * eapply iter_star_mono; [|exact IH2].
        rewrite !length_app. lia.
Qed.

Lemma search_from_spec r : forall t p,
  search_from isw r p t = true <->
  exists a w post, t = a ++ w ++ post /\ denotes r (rev p ++ a) w post.
Proof.
  induction t as [|x t IH]; intros p; simpl.
  - destruct (step r (p, [])) as [|[p' t'] l] eqn:Hs.
    + split; [discriminate|]. intros (a & w & post & Ht & D).
      destruct a; [|discriminate]. destruct w; [|discriminate].
      destruct post; [|discriminate]. rewrite app_nil_r in D.
      apply step_complete with (p := p) in D; [|reflexivity].
      simpl in D. rewrite Hs in D. destruct D.
    + split; [intros _|reflexivity].
      assert (In (p', t') (step r (p, []))) as Hin by (rewrite Hs; left; reflexivity).
      apply step_sound in Hin. destruct Hin as (w & Ht & _ & D). simpl in *.
      exists [], w, t'. split; [exact Ht|]. rewrite app_nil_r. exact D.
  - destruct (step r (p, x :: t)) as [|[p' t'] l] eqn:Hs.
    + rewrite IH. split.
      * intros (a & w & post & Ht & D). exists (x :: a), w, post.
        split; [rewrite Ht; reflexivity|].
        simpl in D. rewrite <- app_assoc in D. exact D.
      * intros (a & w & post & Ht & D). destruct a as [|y a].
        -- rewrite app_nil_r in D. simpl in Ht.
           apply step_complete with (p := p) in D; [|reflexivity].
           rewrite <- Ht, Hs in D. destruct D.
        -- injection Ht as -> ->. exists a, w, post. split; [reflexivity|].
           simpl. rewrite <- app_assoc. exact D.
    + split; [intros _|reflexivity].
      assert (In (p', t') (step r (p, x :: t))) as Hin by (rewrite Hs; left; reflexivity).
      apply step_sound in Hin. destruct Hin as (w & Ht & _ & D). simpl in *.
      exists [], w, t'. split; [exact Ht|]. rewrite app_nil_r. exact D.
Qed.

(** Inversion of [denotes], one equivalence per construct. *)

Lemma denotes_eps pre w post : denotes Eps pre w post <-> w = [].
Proof. split; [inversion 1; reflexivity|intros ->; constructor]. Qed.

Lemma denotes_bol pre w post : denotes Bol pre w post <-> w = [] /\ pre = [].
Proof. split; [inversion 1; auto|intros [-> ->]; constructor]. Qed.

Lemma denotes_wordb pre w post :
  denotes Wordb pre w post <-> w = [] /\ at_boundary isw (rev pre) post = true.
Proof. split; [inversion 1; auto|intros [-> H]; constructor; exact H]. Qed.

Lemma denotes_cset cs pre w post :
  denotes (Cset cs) pre w post <-> exists x, w = [x] /\ in_set x cs = true.
Proof.
  split; [inversion 1; eauto|intros (x & -> & H); constructor; exact H].
Qed.

Lemma denotes_cat r1 r2 pre w post :
  denotes (Cat r1 r2) pre w post <->
  exists w1 w2, w = w1 ++ w2 /\ denotes r1 pre w1 (w2 ++ post) /\
                denotes r2 (pre ++ w1) w2 post.
Proof.
  split; [inversion 1; eauto|intros (w1 & w2 & -> & H1 & H2)].
  constructor; assumption.
Qed.

Lemma denotes_alt r1 r2 pre w post :
  denotes (Alt r1 r2) pre w post <->
  denotes r1 pre w post \/ denotes r2 pre w post.
Proof.
  split; [inversion 1; auto|intros [H|H]].
  - apply D_alt_l, H.
  - apply D_alt_r, H.
Qed.

Lemma denotes_star_cset cs pre w post :
  denotes (Star (Cset cs)) pre w post <->
  Forall (fun x => in_set x cs = true) w.
Proof.
  split.
  - intros D. remember (Star (Cset cs)) as r eqn:Er.
    induction D; try discriminate.
    + constructor.
    + injection Er as ->. apply denotes_cset in D1.
      destruct D1 as (x & -> & Hx). simpl. constructor; auto.
  - intros HF. revert pre. induction HF as [|x w Hx HF IH]; intros pre.
    + constructor.
    + apply (D_star_cons isw (Cset cs) pre [x] w post).
      * constructor. exact Hx.
      * apply IH.
Qed.

Lemma denotes_plus_cset cs pre w post :
  denotes (Plus (Cset cs)) pre w post <->
  w <> [] /\ Forall (fun x => in_set x cs = true) w.
Proof.
  unfold Plus. rewrite denotes_cat. split.
  - intros (w1 & w2 & -> & H1 & H2).
    apply denotes_cset in H1. destruct H1 as (x & -> & Hx).
    apply denotes_star_cset in H2. split; [discriminate|].
    simpl. constructor; assumption.
  - intros [Hne HF]. destruct HF as [|x w Hx HF]; [congruence|].
    exists [x], w. repeat split.
    + constructor. exact Hx.
    + apply denotes_star_cset, HF.
Qed.

Lemma in_set_single x c : in_set x [(c, c)] = true <-> x = c.
Proof.
  unfold in_set. simpl. rewrite orb_false_r, andb_true_iff, !N.leb_le. lia.
Qed.

Lemma denotes_str l pre w post : denotes (Str l) pre w post <-> w = l.
Proof.
  revert pre w. induction l as [|c l IH]; intros pre w.
  - apply denotes_eps.
  - unfold Str. simpl. fold (Str l). rewrite denotes_cat. split.
    + intros (w1 & w2 & -> & H1 & H2). apply denotes_cset in H1.
      destruct H1 as (x & -> & Hx). apply in_set_single in Hx.
      apply IH in H2. subst. reflexivity.
    + intros ->. exists [c], l. repeat split.
      * constructor. apply in_set_single. reflexivity.
      * apply IH. reflexivity.
Qed.

(** [re.search] finds a match exactly when some segment of the string is
    denoted by the pattern. *)
Lemma search_spec r s :
  search isw r s = true <->
  exists pre w post, s = pre ++ w ++ post /\ denotes r pre w post.
Proof. unfold search. rewrite search_from_spec. reflexivity. Qed.

End EngineFacts.

(** ** Task 3: the two patterns *)

Section PatternFacts.
Import Re Patronym PatternForms.

Local Abbreviation isw := Unicode.uni_isword.
Local Abbreviation denotes := (denotes Unicode.uni_isword).

Lemma denotes_alts_str ls pre w post :
  denotes (Alts (map Str ls)) pre w post <-> In w ls.
Proof.
  induction ls as [|a ls IH].
  - simpl. rewrite denotes_cset. split; [|intros []].
    intros (x & _ & H). discriminate.
  - destruct ls as [|b ls].
    + simpl. rewrite denotes_str. intuition congruence.
    + change (Alts (map Str (a :: b :: ls)))
        with (Alt (Str a) (Alts (map Str (b :: ls)))).
      rewrite denotes_alt, denotes_str, IH. simpl. intuition congruence.
Qed.

Lemma cyr_ranges : cyr = [(1040, 1071); (1072, 1103)]%N.
Proof. reflexivity. Qed.

Lemma cyr_dash_ranges :
  cyr_dash = [(1040, 1071); (1072, 1103); (45, 45); (8211, 8211)]%N.
Proof. reflexivity. Qed.

Lemma cyr_letter c : in_set c cyr = true <-> a_ya_letter c.
Proof.
  rewrite cyr_ranges. unfold in_set, a_ya_letter. cbn.
  rewrite orb_false_r, orb_true_iff, !andb_true_iff, !N.leb_le. lia.
Qed.

Lemma cyr_dash_letter c :
  in_set c cyr_dash = true <->
  a_ya_letter c \/ c = hyphen \/ c = en_dash.
Proof.
  rewrite cyr_dash_ranges.
  unfold in_set, a_ya_letter, hyphen, en_dash. cbn.
  rewrite orb_false_r, !orb_true_iff, !andb_true_iff, !N.leb_le. lia.
Qed.

Lemma letter_is_word c : a_ya_letter c -> isw c = true.
Proof.
  intros Hc. unfold Unicode.uni_isword, in_set. apply existsb_exists.
  exists (1015, 1153)%N. split.
  - apply (nth_error_In _ 25). reflexivity.
  - unfold a_ya_letter in Hc. simpl.
    rewrite andb_true_iff, !N.leb_le. lia.
Qed.

Lemma hyphen_not_word : isw hyphen = false.
Proof. vm_compute. reflexivity. Qed.

Lemma en_dash_not_word : isw en_dash = false.
Proof. vm_compute. reflexivity. Qed.

Lemma word_at_rev_free pre : word_at isw (rev pre) = false <-> free_left pre.
Proof.
  unfold free_left. destruct pre as [|x pre _] using rev_ind.
  - simpl. tauto.
  - rewrite rev_app_distr, last_snoc. simpl. tauto.
Qed.

Lemma word_at_free post : word_at isw post = false <-> free_right post.
Proof. unfold free_right. destruct post; simpl; tauto. Qed.

Lemma ending_is_word e l :
  In e female_endings \/ In e male_endings ->
  word_at isw (rev e ++ l) = true.
Proof.
  unfold female_endings, male_endings.
  intros [H|H]; simpl in H;
    repeat (destruct H as [<-|H]; [vm_compute; reflexivity|]); destruct H.
Qed.

Lemma boundary_left pre x t :
  isw x = true ->
  at_boundary isw (rev pre) (x :: t) = true <-> free_left pre.
Proof.
  intros Hx. unfold at_boundary. simpl. rewrite Hx, xorb_true_r.
  rewrite negb_true_iff. apply word_at_rev_free.
Qed.

Lemma boundary_right p post :
  word_at isw p = true ->
  at_boundary isw p post = true <-> free_right post.
Proof.
  intros Hp. unfold at_boundary. rewrite Hp, <- word_at_free.
  destruct (word_at isw post); simpl; intuition congruence.
Qed.

Lemma Forall_cyr u :
  Forall (fun x => in_set x cyr = true) u <-> Forall a_ya_letter u.
Proof. apply Forall_iff. intros x. apply cyr_letter. Qed.

Lemma Forall_cyr_dash q :
  Forall (fun x => in_set x cyr_dash = true) q <->
  Forall (fun c => a_ya_letter c \/ c = hyphen \/ c = en_dash) q.
Proof. apply Forall_iff. intros x. apply cyr_dash_letter. Qed.

(** The segments matched by the female pattern. *)
Lemma denotes_female pre w post :
  denotes female_patr pre w post <->
  exists u e, w = u ++ e /\ u <> [] /\ Forall a_ya_letter u /\
              In e female_endings /\ free_left pre /\ free_right post.
Proof.
  unfold female_patr, Seq. cbn [fold_right]. split.
  - intros H.
    apply denotes_cat in H as (w1 & w2 & -> & H1 & H).
    apply denotes_wordb in H1 as [-> Hb1].
    apply denotes_cat in H as (u & w3 & -> & Hu & H).
    apply denotes_plus_cset in Hu as [Hne HF].
    apply denotes_cat in H as (e & w4 & -> & He & H).
    apply (denotes_alts_str female_endings) in He.
    apply denotes_cat in H as (w5 & w6 & -> & H5 & H6).
    apply denotes_wordb in H5 as [-> Hb2]. apply denotes_eps in H6 as ->.
    rewrite ?app_nil_r, ?app_nil_l in *.
    apply Forall_cyr in HF.
    exists u, e. repeat split; auto.
    + destruct u as [|x u]; [congruence|]. simpl in Hb1.
      apply (boundary_left pre x) in Hb1; [exact Hb1|].
      apply letter_is_word. inversion HF; assumption.
    + rewrite rev_app_distr in Hb2.
      apply boundary_right in Hb2; [exact Hb2|].
      apply ending_is_word. left. exact He.
  - intros (u & e & -> & Hne & HF & He & Hl & Hr).
    apply denotes_cat. exists [], (u ++ e). split; [reflexivity|]. split.
    + apply denotes_wordb. split; [reflexivity|].
      destruct u as [|x u]; [congruence|]. simpl.
      apply boundary_left; [|exact Hl].
      apply letter_is_word. inversion HF; assumption.
    + rewrite app_nil_r.
      apply denotes_cat. exists u, e. split; [reflexivity|]. split.
      * apply denotes_plus_cset. split; [exact Hne|]. apply Forall_cyr, HF.
      * apply denotes_cat. exists e, []. split; [symmetry; apply app_nil_r|].
        split; [apply (denotes_alts_str female_endings), He|].
        apply denotes_cat. exists [], []. split; [reflexivity|]. split.
        -- apply denotes_wordb. split; [reflexivity|].
           rewrite rev_app_distr. apply boundary_right; [|exact Hr].
           apply ending_is_word. left. exact He.
        -- apply denotes_eps. reflexivity.
Qed.

Lemma female_search_iff s :
  re_search female_patr s = true <-> female_form s.
Proof.
  unfold re_search, female_form. rewrite search_spec. split.
  - intros (pre & w & post & -> & D). apply denotes_female in D.
    destruct D as (u & e & -> & D). exists pre, u, e, post.
    rewrite <- app_assoc. tauto.
  - intros (pre & u & e & post & -> & H). exists pre, (u ++ e), post.
    split; [rewrite <- app_assoc; reflexivity|].
    apply denotes_female. exists u, e. tauto.
Qed.

(** The segments matched by the male pattern. *)
Lemma denotes_male pre w post :
  denotes male_patr pre w post <->
  pre = [] /\
  exists q u e,
    w = q ++ u ++ e /\
    Forall (fun c => a_ya_letter c \/ c = hyphen \/ c = en_dash) q /\
    u <> [] /\ Forall a_ya_letter u /\ In e male_endings /\
    (exists c, head (w ++ post) = Some c /\ a_ya_letter c) /\
    free_right post.
Proof.
  unfold male_patr, Seq. cbn [fold_right]. split.
  - intros H.
    apply denotes_cat in H as (w0 & w0' & -> & H0 & H).
    apply denotes_bol in H0 as [-> ->].
    apply denotes_cat in H as (w1 & w2 & -> & H1 & H).
    apply denotes_wordb in H1 as [-> Hb1].
    apply denotes_cat in H as (q & w3 & -> & Hq & H).
    apply denotes_star_cset, Forall_cyr_dash in Hq.
    apply denotes_cat in H as (u & w4 & -> & Hu & H).
    apply denotes_plus_cset in Hu as [Hne HF].
    apply denotes_cat in H as (e & w5 & -> & He & H).
    apply (denotes_alts_str male_endings) in He.
    apply denotes_cat in H as (w6 & w7 & -> & H6 & H7).
    apply denotes_wordb in H6 as [-> Hb2]. apply denotes_eps in H7 as ->.
    rewrite ?app_nil_r, ?app_nil_l in *. simpl in Hb1, Hb2.
    apply Forall_cyr in HF.
    split; [reflexivity|]. exists q, u, e. repeat split; auto.
    + unfold at_boundary in Hb1. simpl in Hb1.
      destruct q as [|c q].
      * destruct u as [|x u]; [congruence|].
        exists x. split; [reflexivity|]. inversion HF; assumption.
      * exists c. split; [reflexivity|]. simpl in Hb1.
        inversion Hq as [|? ? [Hc|[Hc|Hc]] _]; subst; [exact Hc| |].
        -- rewrite hyphen_not_word in Hb1. discriminate.
        -- rewrite en_dash_not_word in Hb1. discriminate.
    + rewrite !rev_app_distr in Hb2.
      apply boundary_right in Hb2; [exact Hb2|].
      apply ending_is_word. right. exact He.
  - intros (-> & q & u & e & -> & Hq & Hne & HF & He & (c & Hc & Hl) & Hr).
    apply denotes_cat. exists [], (q ++ u ++ e). split; [reflexivity|].
    split; [apply denotes_bol; split; reflexivity|].
    apply denotes_cat. exists [], (q ++ u ++ e). split; [reflexivity|]. split.
    + apply denotes_wordb. split; [reflexivity|].
      rewrite app_nil_r. simpl. unfold at_boundary. simpl.
      destruct ((q ++ u ++ e) ++ post) as [|y l]; [discriminate|].
      injection Hc as ->. simpl. apply letter_is_word, Hl.
    + rewrite app_nil_r. simpl.
      apply denotes_cat. exists q, (u ++ e). split; [reflexivity|]. split.
      * apply denotes_star_cset, Forall_cyr_dash, Hq.
      * apply denotes_cat. exists u, e. split; [reflexivity|]. split.
        -- apply denotes_plus_cset. split; [exact Hne|]. apply Forall_cyr, HF.
        -- apply denotes_cat. exists e, [].
           split; [symmetry; apply app_nil_r|].
           split; [apply (denotes_alts_str male_endings), He|].
           apply denotes_cat. exists [], []. split; [reflexivity|]. split.
           ++ apply denotes_wordb. split; [reflexivity|].
              rewrite !rev_app_distr. apply boundary_right; [|exact Hr].
              apply ending_is_word. right. exact He.
           ++ apply denotes_eps. reflexivity.
Qed.

Lemma male_search_iff s :
  re_search male_patr s = true <-> male_form s.
Proof.
  unfold re_search, male_form. rewrite search_spec. split.
  - intros (pre & w & post & -> & D). apply denotes_male in D.
    destruct D as (-> & q & u & e & -> & D). exists q, u, e, post.
    simpl. rewrite <- !app_assoc in *. tauto.
  - intros (q & u & e & post & -> & H). exists [], (q ++ u ++ e), post.
    split; [simpl; rewrite <- !app_assoc; reflexivity|].
    apply denotes_male. split; [reflexivity|]. exists q, u, e.
    rewrite <- !app_assoc. tauto.
Qed.

End PatternFacts.

(** ** Task 3: the classification rule *)

Section Classifier.
Import Patronym PatternForms NameSpec.

Lemma a_ya_cyrillic c : a_ya_letter c -> cyrillic_letter c.
Proof. intros H. left. exact H. Qed.

Lemma cyrillic_a_ya c :
  c <> yo_capital -> c <> yo_small -> cyrillic_letter c -> a_ya_letter c.
Proof. intros H1 H2 [H|[H|H]]; [exact H|congruence|congruence]. Qed.

Lemma female_form_pattern s : female_form s -> female_pattern s.
Proof.
  intros (pre & u & e & post & Hs & Hne & HF & H).
  exists pre, u, e, post. repeat split; try tauto.
  eapply List.Forall_impl; [|exact HF]. apply a_ya_cyrillic.
Qed.

Lemma male_form_pattern s : male_form s -> male_pattern en_dash s.
Proof.
  intros (q & u & e & post & Hs & Hq & Hne & HF & He & (c & Hc & Hl) & Hr).
  exists q, u, e, post. repeat split; try assumption.
  - eapply List.Forall_impl; [|exact Hq].
    intros x [Hx|Hx]; [left; apply a_ya_cyrillic, Hx|right; exact Hx].
  - eapply List.Forall_impl; [|exact HF]. apply a_ya_cyrillic.
  - exists c. split; [exact Hc|apply a_ya_cyrillic, Hl].
Qed.

(** In a string without ё and Ё the Cyrillic letters are those of the class
    of the source, and the forms of the specification are those of the
    patterns. *)
Lemma female_pattern_form s :
  ~ In yo_capital s -> ~ In yo_small s -> female_pattern s -> female_form s.
Proof.
  intros H1 H2 (pre & u & e & post & -> & Hne & HF & H).
  exists pre, u, e, post. repeat split; try tauto.
  apply List.Forall_forall. intros c Hc.
  apply cyrillic_a_ya.
  - intros ->. apply H1. rewrite !in_app_iff. tauto.
  - intros ->. apply H2. rewrite !in_app_iff. tauto.
  - eapply List.Forall_forall in HF; [exact HF|exact Hc].
Qed.

Lemma male_pattern_form s :
  ~ In yo_capital s -> ~ In yo_small s ->
  male_pattern en_dash s -> male_form s.
Proof.
  intros H1 H2
    (q & u & e & post & Hs & Hq & Hne & HF & He & (c & Hc & Hl) & Hr).
  assert (forall x, In x s -> cyrillic_letter x -> a_ya_letter x) as Hin.
  { intros x Hx. apply cyrillic_a_ya; intros ->; tauto. }
  exists q, u, e, post. repeat split; try assumption.
  - apply List.Forall_forall. intros x Hx.
    eapply List.Forall_forall in Hq; [|exact Hx].
    destruct Hq as [Hl'|Hd]; [left|right; exact Hd].
    apply Hin; [|exact Hl']. rewrite Hs, !in_app_iff. tauto.
  - apply List.Forall_forall. intros x Hx.
    eapply List.Forall_forall in HF; [|exact Hx].
    apply Hin; [|exact HF]. rewrite Hs, !in_app_iff. tauto.
  - exists c. split; [exact Hc|]. apply Hin; [|exact Hl].
    destruct s as [|y s']; [discriminate|].
    injection Hc as ->. left. reflexivity.
Qed.

(** C1 (as amended). For every string without the letters ё and Ё,
    [gender_identification] follows the ordered rule of the specification
    with the en dash (U+2013) as the joining dash: it returns [female]
    exactly when the string contains, as a whole word, one or more Cyrillic
    letters followed by one of the endings евна, овна, ична, инична;
    otherwise [male] exactly when, from the start of the string, a compound
    of Cyrillic letters joined by hyphens or en dashes is followed by one or
    more letters and one of the endings ович, евич, ич as a whole word;
    otherwise [unknown]. Nothing is stated about strings with ё or Ё. *)
Theorem gender_identification_rule (s : pystr) :
  ~ In yo_capital s -> ~ In yo_small s ->
  classified en_dash s (gender_identification s).
Proof.
  intros H1 H2.
  assert (female_pattern s <-> re_search female_patr s = true) as Hf.
  { rewrite female_search_iff. split;
      [apply female_pattern_form; assumption|apply female_form_pattern]. }
  assert (male_pattern en_dash s <-> re_search male_patr s = true) as Hm.
  { rewrite male_search_iff. split;
      [apply male_pattern_form; assumption|apply male_form_pattern]. }
  unfold classified, gender_identification. rewrite Hf, Hm.
  destruct (re_search female_patr s), (re_search male_patr s);
    intuition congruence.
Qed.

Lemma gender_identification_rule_witness :
  classified en_dash (ustr "Руслан–Бекович")
             (gender_identification (ustr "Руслан–Бекович")) /\
  gender_identification (ustr "Руслан–Бекович") = male.
Proof.
  split; [|vm_compute; reflexivity].
  apply gender_identification_rule; vm_compute;
    intros H; repeat destruct H as [H|H]; try discriminate H; exact H.
Defined.

(** C1 (as stated) fails twice. With the em dash U+2014 as the joining dash:
    the compound Руслан—Бекович has the stated male form and no female
    form, and the code does not return [male] for it. With ё as a Cyrillic
    letter: Семёновна has the stated female form, and the code does not
    return [female] for it. *)
Lemma gender_identification_em_dash_yo :
  ~ classified em_dash (ustr "Руслан—Бекович")
               (gender_identification (ustr "Руслан—Бекович")) /\
  ~ classified em_dash (ustr "Семёновна")
               (gender_identification (ustr "Семёновна")).
Proof.
  split.
  - intros (_ & Hmale & _).
    assert (gender_identification (ustr "Руслан—Бекович") = male) as Hg;
      [|vm_compute in Hg; discriminate Hg].
    apply Hmale. split.
    + intros H. apply female_pattern_form in H;
        [|vm_compute; intros H'; repeat destruct H' as [H'|H'];
          try discriminate H'; exact H'..].
      apply female_search_iff in H. vm_compute in H. discriminate.
    + exists (ustr "Руслан—"), (ustr "Бек"), (ustr "ович"), [].
      split; [vm_compute; reflexivity|].
      split.
      { apply List.Forall_forall. intros c Hc. vm_compute in Hc.
        unfold cyrillic_letter, hyphen, em_dash.
        repeat (destruct Hc as [<-|Hc]; [lia|]). destruct Hc. }
      split; [discriminate|].
      split.
      { apply List.Forall_forall. intros c Hc. vm_compute in Hc.
        unfold cyrillic_letter.
        repeat (destruct Hc as [<-|Hc]; [lia|]). destruct Hc. }
      split; [left; reflexivity|].
      split; [|exact I].
      exists 1056%N. split; [vm_compute; reflexivity|].
      unfold cyrillic_letter. lia.
  - intros (Hfemale & _).
    assert (gender_identification (ustr "Семёновна") = female) as Hg;
      [|vm_compute in Hg; discriminate Hg].
    apply Hfemale.
    exists [], (ustr "Семён"), (ustr "овна"), [].
    split; [vm_compute; reflexivity|].
    split; [discriminate|].
    split.
    { apply List.Forall_forall. intros c Hc. vm_compute in Hc.
      unfold cyrillic_letter, yo_capital, yo_small.
      repeat (destruct Hc as [<-|Hc]; [lia|]). destruct Hc. }
    split; [right; left; reflexivity|].
    split; exact I.
Qed.

(** C3 (as amended). The test vectors in Cyrillic: Ивановна is female,
    Иванович and the compounds Руслан-Бекович (hyphen) and Руслан–Бекович
    (en dash) are male, the empty string and Xyz are unknown. *)
Theorem gender_identification_vectors :
  gender_identification (ustr "Ивановна") = female /\
  gender_identification (ustr "Иванович") = male /\
  gender_identification (ustr "Руслан-Бекович") = male /\
  gender_identification (ustr "Руслан–Бекович") = male /\
  gender_identification (ustr "") = unknown /\
  gender_identification (ustr "Xyz") = unknown.
Proof. vm_compute. repeat split. Qed.

(** C3 (as stated) fails: for the Latin spellings the code returns
    [unknown], and so it does for a compound joined by an em dash. *)
Lemma gender_identification_latin :
  gender_identification (ustr "Ivanovna") = unknown /\
  gender_identification (ustr "Ivanovich") = unknown /\
  gender_identification (ustr "Ruslan-Bekovich") = unknown /\
  gender_identification (ustr "Руслан—Бекович") = unknown.
Proof. vm_compute. repeat split. Qed.

End Classifier.

(** ** Sorting, distinct values and counts *)

Section SortFacts.
Import Frame.
Context {A : Type}.

Lemma insert_by_perm (le : A -> A -> bool) x l :
  Permutation (insert_by le x l) (x :: l).
Proof.
  induction l as [|y t IH]; simpl; [reflexivity|].
  destruct (le x y); [reflexivity|].
  rewrite IH. apply perm_swap.
Qed.

Lemma sort_by_perm (le : A -> A -> bool) l : Permutation (sort_by le l) l.
Proof.
  induction l as [|x t IH]; simpl; [reflexivity|].
  rewrite insert_by_perm. apply perm_skip, IH.
Qed.

Lemma sort_by_length (le : A -> A -> bool) l :
  length (sort_by le l) = length l.
Proof. apply Permutation_length, sort_by_perm. Qed.

(** A list that is already in order is left as it is. *)
Lemma sort_by_sorted (le : A -> A -> bool) l :
  Sorted (fun a b => le a b = true) l -> sort_by le l = l.
Proof.
  induction 1 as [|x t Hs IH Hd]; simpl; [reflexivity|].
  rewrite IH. destruct Hd as [|y t' Hxy]; simpl; [reflexivity|].
  rewrite Hxy. reflexivity.
Qed.

Lemma insert_by_map {B : Type} (f : A -> B) (leA : A -> A -> bool)
  (leB : B -> B -> bool) x l :
  (forall a b, leA a b = leB (f a) (f b)) ->
  map f (insert_by leA x l) = insert_by leB (f x) (map f l).
Proof.
  intros H. induction l as [|y t IH]; simpl; [reflexivity|].
  rewrite <- H. destruct (leA x y); simpl; [reflexivity|].
  rewrite IH. reflexivity.
Qed.

(** Sorting rows by a key sorts the column of keys. *)
Lemma sort_by_map {B : Type} (f : A -> B) (leA : A -> A -> bool)
  (leB : B -> B -> bool) l :
  (forall a b, leA a b = leB (f a) (f b)) ->
  map f (sort_by leA l) = sort_by leB (map f l).
Proof.
  intros H. induction l as [|x t IH]; simpl; [reflexivity|].
  rewrite (insert_by_map f leA leB), IH by exact H. reflexivity.
Qed.

End SortFacts.

Lemma list_sum_perm (l l' : list nat) :
  Permutation l l' -> list_sum l = list_sum l'.
Proof. induction 1; simpl; lia. Qed.

Section CountFacts.
Import Frame.
Context {A : Type} `{EqDecision A}.

Lemma unique_In (x : A) l : In x (unique l) <-> In x l.
Proof.
  induction l as [|y t IH]; simpl; [tauto|].
  rewrite filter_In, IH, negb_true_iff, bool_decide_eq_false.
  destruct (decide (y = x)); intuition congruence.
Qed.

Lemma unique_NoDup (l : list A) : List.NoDup (unique l).
Proof.
  induction l as [|y t IH]; simpl; constructor.
  - rewrite filter_In, negb_true_iff, bool_decide_eq_false. tauto.
  - apply List.NoDup_filter, IH.
Qed.

Lemma count_cons (x y : A) l :
  count x (y :: l) = (if bool_decide (y = x) then 1 else 0) + count x l.
Proof. unfold count. simpl. destruct (bool_decide (y = x)); reflexivity. Qed.

Lemma count_notin (x : A) l : ~ In x l -> count x l = 0.
Proof.
  induction l as [|y t IH]; intros Hn; [reflexivity|].
  rewrite count_cons, IH by (simpl in Hn; tauto).
  rewrite bool_decide_eq_false_2 by (simpl in Hn; intuition). reflexivity.
Qed.

Lemma count_pos (x : A) l : In x l -> 0 < count x l.
Proof.
  induction l as [|y t IH]; intros Hin; [destruct Hin|].
  rewrite count_cons. destruct (decide (y = x)) as [->|Hne].
  - rewrite bool_decide_eq_true_2 by reflexivity. lia.
  - destruct Hin as [?|Hin]; [congruence|]. specialize (IH Hin). lia.
Qed.

Lemma count_app (x : A) l1 l2 : count x (l1 ++ l2) = count x l1 + count x l2.
Proof. unfold count. rewrite List.filter_app, length_app. reflexivity. Qed.

(** The counts of the distinct values add up to the length. *)
Lemma count_total (u l : list A) :
  List.NoDup u -> (forall x, In x l -> In x u) ->
  list_sum (map (fun v => count v l) u) = length l.
Proof.
  intros Hu. induction l as [|y t IH]; intros Hin.
  - clear Hu Hin. induction u as [|v u IHu]; [reflexivity|]. exact IHu.
  - simpl length. rewrite <- IH by (intros x Hx; apply Hin; right; exact Hx).
    assert (In y u) as Hy by (apply Hin; left; reflexivity).
    clear IH Hin. induction u as [|v u IHu]; [destruct Hy|].
    inversion Hu as [|? ? Hv Hu']; subst. simpl. rewrite count_cons.
    destruct (decide (y = v)) as [->|Hne].
    + rewrite bool_decide_eq_true_2 by reflexivity.
      assert (map (fun v0 => count v0 (v :: t)) u = map (fun v0 => count v0 t) u)
        as ->; [|lia].
      apply map_ext_in. intros a Ha. rewrite count_cons.
      rewrite bool_decide_eq_false_2; [reflexivity|]. intros ->. tauto.
    + rewrite bool_decide_eq_false_2 by exact Hne.
      destruct Hy as [?|Hy]; [congruence|].
      specialize (IHu Hu' Hy). lia.
Qed.

Lemma value_counts_perm (l : list A) :
  Permutation (value_counts l) (map (fun v => (v, count v l)) (unique l)).
Proof. unfold value_counts. apply sort_by_perm. Qed.

Lemma value_counts_keys (l : list A) :
  Permutation (map fst (value_counts l)) (unique l).
Proof.
  rewrite value_counts_perm, map_map. simpl. rewrite map_id. reflexivity.
Qed.

Lemma value_counts_total (l : list A) :
  list_sum (map snd (value_counts l)) = length l.
Proof.
  assert (Permutation (map snd (value_counts l))
                      (map (fun v => count v l) (unique l))) as Hp.
  { rewrite value_counts_perm, map_map. reflexivity. }
  rewrite (list_sum_perm _ _ Hp).
  apply count_total; [apply unique_NoDup|].
  intros x. apply unique_In.
Qed.

Lemma series_get_in (x : A) n (s : list (A * nat)) :
  List.NoDup (map fst s) -> In (x, n) s -> series_get x s = n.
Proof.
  unfold series_get. induction s as [|[k v] s IH]; intros Hnd Hin.
  - destruct Hin.
  - inversion Hnd as [|? ? Hk Hnd']; subst. simpl.
    destruct (decide (k = x)) as [->|Hne].
    + rewrite bool_decide_eq_true_2 by reflexivity. simpl.
      destruct Hin as [[= ->]|Hin]; [reflexivity|].
      exfalso. apply Hk. apply (in_map fst) in Hin. exact Hin.
    + rewrite bool_decide_eq_false_2 by exact Hne.
      destruct Hin as [[= ? ?]|Hin]; [congruence|]. apply IH; assumption.
Qed.

Lemma series_get_notin (x : A) (s : list (A * nat)) :
  ~ In x (map fst s) -> series_get x s = 0.
Proof.
  unfold series_get. induction s as [|[k v] s IH]; intros Hn; [reflexivity|].
  simpl in *. rewrite bool_decide_eq_false_2 by tauto. apply IH. tauto.
Qed.

(** Looking a value up in [value_counts] gives its number of occurrences. *)
Lemma value_counts_get (x : A) (l : list A) :
  series_get x (value_counts l) = count x l.
Proof.
  assert (List.NoDup (map fst (value_counts l))) as Hnd.
  { eapply Permutation_NoDup; [symmetry; apply value_counts_keys|].
    apply unique_NoDup. }
  destruct (in_dec (decide_rel eq) x l) as [Hin|Hn].
  - apply series_get_in; [exact Hnd|].
    eapply Permutation_in; [symmetry; apply value_counts_perm|].
    apply in_map_iff. exists x. split; [reflexivity|]. apply unique_In, Hin.
  - rewrite count_notin by exact Hn. apply series_get_notin.
    intros H'. apply Hn, unique_In.
    eapply Permutation_in; [apply value_counts_keys|exact H'].
Qed.

End CountFacts.

(** ** Tasks 2 to 4 *)

Section Statistics.
Import Patronym Frame Store Queries Samples.

Lemma exists_gt1_sum (l : list nat) :
  existsb (fun numb => 1 <? numb) l = true <->
  0 < list_sum (List.filter (fun numb => 1 <? numb) l).
Proof.
  induction l as [|n l IH]; simpl.
  - split; [discriminate|lia].
  - destruct (1 <? n) eqn:Hn; simpl.
    + apply Nat.ltb_lt in Hn. split; [lia|reflexivity].
    + exact IH.
Qed.

(** C10. Whenever [find_homonymous_students] returns, its first component
    (homonyms exist) is true exactly when its second component (the number
    of homonyms) is positive. *)
Theorem homonyms_exist_iff_positive (df : frame) (exist : bool) (numb : nat)
  (per_course : list (pystr * nat)) (group : pystr) :
  find_homonymous_students df = Ok (exist, numb, per_course, group) ->
  exist = true <-> 0 < numb.
Proof.
  unfold find_homonymous_students.
  destruct (py_max_key _ _) as [g|e]; [|discriminate].
  intros [= <- <- _ _]. apply exists_gt1_sum.
Qed.

Lemma homonyms_exist_iff_positive_witness :
  find_homonymous_students roster3
    = Ok (true, 2, [(ustr "1-й", 2)], ustr "R3135") /\
  (true = true <-> 0 < 2).
Proof.
  assert (find_homonymous_students roster3
          = Ok (true, 2, [(ustr "1-й", 2)], ustr "R3135")) as H
    by (vm_compute; reflexivity).
  split; [exact H|].
  exact (homonyms_exist_iff_positive roster3 true 2 _ _ H).
Defined.

(** C6 (the code fails the claim). On a roster without rows
    [find_homonymous_students] raises [ValueError] ([max] of an empty dict)
    and [faculty_statistics] raises [KeyError] ([stats.at[0, ...]]). *)
Theorem empty_roster_raises :
  find_homonymous_students [] = Raise ValueError /\
  faculty_statistics [] = Raise KeyError.
Proof. split; reflexivity. Qed.

Lemma count_gender (l : list gender) :
  count female l + count male l + count unknown l = length l.
Proof.
  induction l as [|g l IH]; [reflexivity|].
  rewrite !count_cons. simpl length. destruct g; simpl; lia.
Qed.

Lemma filter_split_length {B : Type} (p : B -> bool) (l : list B) :
  length (List.filter p l) + length (List.filter (fun x => negb (p x)) l)
  = length l.
Proof.
  induction l as [|x l IH]; [reflexivity|].
  simpl. destruct (p x); simpl; lia.
Qed.

(** C8. The counts of the three buckets returned by [analyze_patronyms] add
    up to the number of records with a non-empty patronymic; together with
    the returned number of records without one this is the whole roster. *)
Theorem analyze_patronyms_conservation (df : frame) :
  let without := fst (analyze_patronyms df) in
  let genders := snd (analyze_patronyms df) in
  let with_patr :=
    length (List.filter (fun r => negb (pystr_eqb (patronim (base r)) [])) df) in
  series_get female genders + series_get male genders
    + series_get unknown genders = with_patr /\
  list_sum (map snd genders) = with_patr /\
  without + with_patr = length df.
Proof.
  unfold analyze_patronyms. cbn [fst snd]. repeat split.
  - rewrite !value_counts_get, count_gender.
    unfold col. rewrite !length_map. reflexivity.
  - rewrite value_counts_total. unfold col. rewrite !length_map. reflexivity.
  - unfold col. rewrite <- (filter_split_length
      (fun r => pystr_eqb (patronim (base r)) []) df).
    f_equal. clear. induction df as [|r df IH]; [reflexivity|].
    simpl. destruct (pystr_eqb (patronim (base r)) []); simpl; congruence.
Qed.

Lemma count_In {B : Type} `{EqDecision B} (x : B) (l : list B) :
  count x l <> 0 -> In x l.
Proof.
  intros Hc. destruct (in_dec (decide_rel eq) x l) as [Hin|Hn]; [exact Hin|].
  apply count_notin in Hn. congruence.
Qed.

(** A duplicate-free list with exactly the members [a], [b], [c]. *)
Lemma three_members {B : Type} (a b c : B) (u : list B) :
  a <> b -> a <> c -> b <> c -> List.NoDup u ->
  (forall x, In x u <-> x = a \/ x = b \/ x = c) ->
  u = [a; b; c] \/ u = [a; c; b] \/ u = [b; a; c] \/
  u = [b; c; a] \/ u = [c; a; b] \/ u = [c; b; a].
Proof.
  intros Hab Hac Hbc Hnd Hin.
  assert (Permutation u [a; b; c]) as Hp.
  { apply Permutation.NoDup_Permutation; [exact Hnd| |].
    - repeat constructor; simpl; intuition congruence.
    - intros x. rewrite Hin. simpl. intuition congruence. }
  apply Permutation_length in Hp. simpl in Hp.
  destruct u as [|x [|y [|z [|w u]]]]; try discriminate.
  pose proof (proj1 (Hin x) (or_introl eq_refl)) as Hx.
  pose proof (proj1 (Hin y) (or_intror (or_introl eq_refl))) as Hy.
  pose proof (proj1 (Hin z) (or_intror (or_intror (or_introl eq_refl)))) as Hz.
  inversion Hnd as [|? ? Hx' Hnd']; subst.
  inversion Hnd' as [|? ? Hy' _]; subst. simpl in Hx', Hy'.
  destruct Hx as [-> | [-> | ->]], Hy as [-> | [-> | ->]], Hz as [-> | [-> | ->]];
    try (exfalso; tauto); tauto.
Qed.

(** C9. For a roster whose faculty counts are A: 10, B: 20, C: 5,
    [faculty_statistics] returns (B, 20) as the faculty with the most
    students and (C, 5) as the one with the fewest. *)
Theorem faculty_statistics_max_min (data : frame) (a b c : pystr) :
  a <> b -> a <> c -> b <> c ->
  count a (col факультет data) = 10 ->
  count b (col факультет data) = 20 ->
  count c (col факультет data) = 5 ->
  Forall (fun f => f = a \/ f = b \/ f = c) (col факультет data) ->
  faculty_statistics data
  = Ok ([(1, (b, 20)); (2, (a, 10)); (3, (c, 5))], (b, 20), (c, 5)).
Proof.
  intros Hab Hac Hbc Ha Hb Hc Hall.
  assert (value_counts (col факультет data) = [(b, 20); (a, 10); (c, 5)])
    as Hvc.
  { unfold value_counts.
    destruct (three_members a b c (unique (col факультет data)) Hab Hac Hbc)
      as [E|[E|[E|[E|[E|E]]]]].
    - apply unique_NoDup.
    - intros x. rewrite unique_In. split.
      + intros Hx. rewrite List.Forall_forall in Hall. apply Hall, Hx.
      + intros [-> | [-> | ->]]; apply count_In; lia.
    - rewrite E. simpl. rewrite Ha, Hb, Hc. reflexivity.
    - rewrite E. simpl. rewrite Ha, Hb, Hc. reflexivity.
    - rewrite E. simpl. rewrite Ha, Hb, Hc. reflexivity.
    - rewrite E. simpl. rewrite Ha, Hb, Hc. reflexivity.
    - rewrite E. simpl. rewrite Ha, Hb, Hc. reflexivity.
    - rewrite E. simpl. rewrite Ha, Hb, Hc. reflexivity. }
  unfold faculty_statistics. rewrite Hvc. reflexivity.
Qed.

Lemma faculty_statistics_max_min_witness :
  faculty_statistics roster_abc
  = Ok ([(1, (ustr "B", 20)); (2, (ustr "A", 10)); (3, (ustr "C", 5))],
        (ustr "B", 20), (ustr "C", 5)).
Proof.
  apply (faculty_statistics_max_min roster_abc (ustr "A") (ustr "B")
                                    (ustr "C")).
  - vm_compute. discriminate.
  - vm_compute. discriminate.
  - vm_compute. discriminate.
  - vm_compute. reflexivity.
  - vm_compute. reflexivity.
  - vm_compute. reflexivity.
  - apply List.Forall_forall. intros x Hx. vm_compute in Hx.
    repeat (destruct Hx as [<-|Hx]; [vm_compute; tauto|]). destruct Hx.
Defined.

End Statistics.

(** ** Task 9: groups of consecutive numbers *)

Section Runs.
Import Frame Queries RunSpec.
Local Open Scope Z_scope.

Lemma scan_groups_cons x t :
  exists g gs, scan_groups (x :: t) = (x :: g) :: gs.
Proof.
  simpl. destruct (scan_groups t) as [|[|y g] gs]; eauto.
  destruct (y - x =? 1); eauto.
Qed.

Lemma scan_groups_concat l : concat (scan_groups l) = l.
Proof.
  induction l as [|x t IH]; [reflexivity|].
  simpl. destruct (scan_groups t) as [|[|y g] gs] eqn:E.
  - simpl in *. subst. reflexivity.
  - destruct t as [|z t]; [reflexivity|].
    destruct (scan_groups_cons z t) as (g' & gs' & E'). congruence.
  - destruct (y - x =? 1); simpl in *; rewrite IH; reflexivity.
Qed.

Lemma scan_groups_maximal l : maximal_groups (scan_groups l).
Proof.
  induction l as [|x t IH]; [exact I|].
  simpl. destruct (scan_groups t) as [|[|y g] gs] eqn:E.
  - simpl. repeat split; discriminate.
  - simpl. repeat split; discriminate.
  - destruct IH as (Hne & Hc & Hb & Hm).
    destruct (y - x =? 1) eqn:Hd.
    + apply Z.eqb_eq in Hd. simpl. repeat split; auto; try discriminate; lia.
    + apply Z.eqb_neq in Hd. simpl. repeat split; auto; try discriminate.
      intros a b [= <-] [= <-]. lia.
Qed.

Lemma scan_groups_append g r gs :
  g <> [] -> consecutive g -> scan_groups r = gs ->
  (forall a b, last g = Some a -> next_head gs = Some b -> b <> a + 1) ->
  (forall x, head r = Some x -> next_head gs = Some x) ->
  scan_groups (g ++ r) = g :: gs.
Proof.
  intros Hne Hc Hr Hb Hh. induction g as [|x g IH]; [congruence|].
  destruct g as [|y g].
  - destruct r as [|z r].
    + simpl in Hr. subst gs. reflexivity.
    + destruct (scan_groups_cons z r) as (g' & gs' & E).
      rewrite E in Hr. subst gs.
      change ([x] ++ z :: r) with (x :: z :: r).
      cbn [scan_groups] in E |- *. rewrite E.
      assert ((z - x =? 1) = false) as ->; [|reflexivity].
      apply Z.eqb_neq. specialize (Hb x z eq_refl eq_refl). lia.
  - destruct Hc as [-> Hc].
    change ((x :: x + 1 :: g) ++ r) with (x :: ((x + 1 :: g) ++ r)).
    cbn [scan_groups]. rewrite IH; [|discriminate|exact Hc|].
    + assert ((x + 1 - x =? 1) = true) as -> by (apply Z.eqb_eq; lia).
      reflexivity.
    + intros a b Ha. apply Hb. exact Ha.
Qed.

Lemma maximal_groups_head gs :
  maximal_groups gs -> head (concat gs) = next_head gs.
Proof.
  destruct gs as [|g gs]; [reflexivity|].
  intros (Hne & _). destruct g; [congruence|reflexivity].
Qed.

(** The maximal groups of a sequence are those found by the scan. *)
Lemma maximal_groups_scan gs :
  maximal_groups gs -> scan_groups (concat gs) = gs.
Proof.
  induction gs as [|g gs IH]; [reflexivity|].
  intros (Hne & Hc & Hb & Hm). simpl.
  apply scan_groups_append; auto.
  intros x Hx. rewrite <- maximal_groups_head by exact Hm. exact Hx.
Qed.

Lemma scan_groups_nonempty l : Forall (fun g => g <> []) (scan_groups l).
Proof.
  pose proof (scan_groups_maximal l) as H.
  induction (scan_groups l) as [|g gs IH]; constructor.
  - apply H.
  - apply IH, H.
Qed.

Lemma scan_groups_consecutive l : Forall consecutive (scan_groups l).
Proof.
  pose proof (scan_groups_maximal l) as H.
  induction (scan_groups l) as [|g gs IH]; constructor.
  - apply H.
  - apply IH, H.
Qed.

(** The [area] column numbers the groups of the scan from one. *)
Lemma cumsum_labels t : forall x acc,
  acc :: cumsum_from acc (map ne_one (diff_from x t))
  = labels acc (scan_groups (x :: t)).
Proof.
  induction t as [|y t IH]; intros x acc; [reflexivity|].
  cbn [diff_from map cumsum_from ne_one]. rewrite IH.
  destruct (scan_groups_cons y t) as (g & gs & E).
  cbn [scan_groups] in E |- *. rewrite E.
  destruct (y - x =? 1); cbn [negb labels length repeat app].
  - rewrite Z.add_0_r. reflexivity.
  - reflexivity.
Qed.

Lemma area_labels ids : area_of ids = labels 1 (scan_groups ids).
Proof.
  destruct ids as [|x t]; [reflexivity|].
  unfold area_of, cumsum. cbn [diff map cumsum_from ne_one].
  apply cumsum_labels.
Qed.

Lemma labels_ge s gs a : In a (labels s gs) -> s <= a.
Proof.
  revert s. induction gs as [|g gs IH]; intros s; simpl; [tauto|].
  rewrite in_app_iff. intros [H|H].
  - apply repeat_spec in H. lia.
  - apply IH in H. lia.
Qed.

Lemma sizes_ge s gs a : In a (map fst (sizes s gs)) -> s <= a.
Proof.
  revert s. induction gs as [|g gs IH]; intros s; simpl; [tauto|].
  intros [H|H]; [lia|]. apply IH in H. lia.
Qed.

Lemma filter_ne_notin (x : Z) l :
  ~ In x l -> List.filter (fun y => negb (bool_decide (y = x))) l = l.
Proof.
  induction l as [|y l IH]; intros Hn; [reflexivity|].
  simpl in *. rewrite bool_decide_eq_false_2 by intuition. simpl.
  rewrite IH by tauto. reflexivity.
Qed.

Lemma unique_repeat_app (x : Z) n rest :
  n <> 0%nat -> ~ In x rest -> unique (repeat x n ++ rest) = x :: unique rest.
Proof.
  intros Hn Hx. destruct n as [|n]; [congruence|]. clear Hn.
  induction n as [|n IH].
  - simpl. rewrite filter_ne_notin; [reflexivity|]. rewrite unique_In. exact Hx.
  - change (repeat x (S (S n)) ++ rest) with (x :: (repeat x (S n) ++ rest)).
    cbn [unique]. rewrite IH. simpl.
    rewrite bool_decide_eq_true_2 by reflexivity. simpl.
    rewrite filter_ne_notin; [reflexivity|]. rewrite unique_In. exact Hx.
Qed.

Lemma unique_labels s gs :
  Forall (fun g => g <> []) gs -> unique (labels s gs) = map fst (sizes s gs).
Proof.
  intros H. revert s. induction H as [|g gs Hg _ IH]; intros s; [reflexivity|].
  simpl. rewrite unique_repeat_app, IH; [reflexivity| |].
  - destruct g; [congruence|discriminate].
  - intros Hin. apply labels_ge in Hin. lia.
Qed.

Lemma sizes_sorted s gs :
  Sorted (fun a b => Z.leb a b = true) (map fst (sizes s gs)).
Proof.
  revert s. induction gs as [|g gs IH]; intros s; simpl; constructor.
  - apply IH.
  - destruct gs; simpl; constructor. apply Z.leb_le. lia.
Qed.

Lemma count_repeat (x : Z) n : count x (repeat x n) = n.
Proof.
  induction n as [|n IH]; [reflexivity|].
  simpl repeat. rewrite count_cons, IH.
  rewrite bool_decide_eq_true_2 by reflexivity. reflexivity.
Qed.

Lemma count_sizes gs : forall s pre,
  (forall a, In a pre -> a < s) ->
  map (fun k => (k, count k (pre ++ labels s gs))) (map fst (sizes s gs))
  = sizes s gs.
Proof.
  induction gs as [|g gs IH]; intros s pre Hpre; [reflexivity|].
  simpl. f_equal.
  - f_equal. rewrite !count_app, count_repeat.
    rewrite (count_notin s pre), (count_notin s (labels (s + 1) gs)); [lia| |].
    + intros H. apply labels_ge in H. lia.
    + intros H. apply Hpre in H. lia.
  - rewrite app_assoc. apply IH. intros a Ha.
    apply in_app_or in Ha. destruct Ha as [Ha|Ha].
    + apply Hpre in Ha. lia.
    + apply repeat_spec in Ha. lia.
Qed.

(** [groupby("area").size()] lists the groups with their sizes. *)
Lemma groupby_size_labels s gs :
  Forall (fun g => g <> []) gs -> groupby_size (labels s gs) = sizes s gs.
Proof.
  intros H. unfold groupby_size.
  rewrite unique_labels by exact H.
  rewrite sort_by_sorted by apply sizes_sorted.
  apply (count_sizes gs s []). intros a [].
Qed.

Lemma combine_app_eq {B C : Type} (l1 l2 : list B) (m1 m2 : list C) :
  length l1 = length m1 ->
  combine (l1 ++ l2) (m1 ++ m2) = combine l1 m1 ++ combine l2 m2.
Proof.
  revert m1. induction l1 as [|x l1 IH]; intros [|y m1] H;
    try discriminate; [reflexivity|].
  simpl. rewrite IH by (simpl in H; lia). reflexivity.
Qed.

Lemma select_app {B : Type} (l1 l2 : list B) m1 m2 :
  length l1 = length m1 ->
  select (l1 ++ l2) (m1 ++ m2) = select l1 m1 ++ select l2 m2.
Proof.
  intros H. unfold select.
  rewrite combine_app_eq by exact H.
  rewrite List.filter_app, map_app. reflexivity.
Qed.

Lemma select_repeat {B : Type} (g : list B) (b : bool) :
  select g (repeat b (length g)) = if b then g else [].
Proof.
  unfold select. induction g as [|x g IH]; [destruct b; reflexivity|].
  simpl. destruct b; simpl in *; rewrite IH; reflexivity.
Qed.

Lemma select_labels (p : Z -> bool) gs : forall s,
  select (concat gs) (map p (labels s gs)) = pick p s gs.
Proof.
  induction gs as [|g gs IH]; intros s; [reflexivity|].
  simpl. rewrite map_app, select_app by (rewrite length_map, repeat_length; reflexivity).
  rewrite IH, map_repeat, select_repeat. reflexivity.
Qed.

Lemma pick_eq_lt a gs : forall s, a < s -> pick (Z.eqb a) s gs = [].
Proof.
  induction gs as [|g gs IH]; intros s Hlt; [reflexivity|].
  simpl. rewrite IH by lia.
  assert ((a =? s) = false) as -> by (apply Z.eqb_neq; lia). reflexivity.
Qed.

Lemma runs_pick (k : nat) gs : forall s,
  map (fun a => pick (Z.eqb a) s gs)
      (map fst (List.filter (fun p => (k <=? snd p)%nat) (sizes s gs)))
  = List.filter (fun g => (k <=? length g)%nat) gs.
Proof.
  induction gs as [|g gs IH]; intros s; [reflexivity|].
  cbn [sizes List.filter snd].
  assert (forall l,
    (forall a, In a l -> s + 1 <= a) ->
    map (fun a => pick (Z.eqb a) s (g :: gs)) l
    = map (fun a => pick (Z.eqb a) (s + 1) gs) l) as Htail.
  { intros l Hl. apply map_ext_in. intros a Ha. apply Hl in Ha. simpl.
    assert ((a =? s) = false) as -> by (apply Z.eqb_neq; lia). reflexivity. }
  assert (forall a,
    In a (map fst (List.filter (fun p => (k <=? snd p)%nat) (sizes (s + 1) gs)))
    -> s + 1 <= a) as Hge.
  { intros a Ha. apply in_map_iff in Ha. destruct Ha as (p & <- & Hp).
    apply filter_In in Hp. apply (sizes_ge _ gs). apply in_map, Hp. }
  destruct (k <=? length g)%nat; cbn [map fst].
  - rewrite Htail, IH by exact Hge. f_equal.
    simpl. rewrite Z.eqb_refl, pick_eq_lt by lia. apply app_nil_r.
  - rewrite Htail, IH by exact Hge. reflexivity.
Qed.

Lemma firsts_pick (k : nat) V gs : forall s,
  (forall a, s <= a ->
     existsb (fun v => v =? a) V = true <->
     In a (map fst (List.filter (fun p => (k <=? snd p)%nat) (sizes s gs)))) ->
  pick (fun x => existsb (fun v => v =? x) V) s gs
  = concat (List.filter (fun g => (k <=? length g)%nat) gs).
Proof.
  induction gs as [|g gs IH]; intros s HV; [reflexivity|].
  cbn [pick]. rewrite (IH (s + 1)).
  - pose proof (HV s (Z.le_refl s)) as Hs. cbn [sizes List.filter snd] in Hs.
    cbn [List.filter].
    destruct (k <=? length g)%nat; cbn [map fst] in Hs.
    + rewrite (proj2 Hs) by (left; reflexivity). reflexivity.
    + destruct (existsb (fun v => v =? s) V); [|reflexivity].
      destruct Hs as [Hs _]. specialize (Hs eq_refl).
      apply in_map_iff in Hs. destruct Hs as (p & Hp & Hin).
      apply filter_In in Hin. destruct Hin as [Hin _].
      apply (in_map fst) in Hin. apply sizes_ge in Hin. lia.
  - intros a Ha. rewrite (HV a) by lia. cbn [sizes List.filter snd].
    destruct (k <=? length g)%nat; cbn [map fst]; [|reflexivity].
    simpl. split; [intros [H|H]; [lia|exact H]|tauto].
Qed.

(** The groups kept are the groups of the scan of size at least [k]. *)
Lemma runs_scan (k : nat) ids :
  runs k ids = List.filter (fun g => (k <=? length g)%nat) (scan_groups ids).
Proof.
  unfold runs, valid_areas. rewrite area_labels.
  rewrite groupby_size_labels by apply scan_groups_nonempty.
  rewrite <- (runs_pick k (scan_groups ids) 1).
  apply map_ext. intros a.
  rewrite <- select_labels, scan_groups_concat. reflexivity.
Qed.

(** [firsts] holds the members of these groups, in order. *)
Lemma firsts_scan (k : nat) ids :
  firsts_ids k ids
  = concat (List.filter (fun g => (k <=? length g)%nat) (scan_groups ids)).
Proof.
  unfold firsts_ids, valid_areas, isin. rewrite area_labels.
  rewrite groupby_size_labels by apply scan_groups_nonempty.
  rewrite <- (scan_groups_concat ids) at 1.
  rewrite select_labels. apply firsts_pick.
  intros a _. rewrite existsb_exists. split.
  - intros (v & Hv & E). apply Z.eqb_eq in E. subst. exact Hv.
  - intros Ha. exists a. split; [exact Ha|apply Z.eqb_refl].
Qed.

Lemma insert_by_leb_sorted x l :
  StronglySorted Z.le l -> StronglySorted Z.le (insert_by Z.leb x l).
Proof.
  induction 1 as [|y t Hs IH Hy]; simpl.
  - repeat constructor.
  - destruct (x <=? y) eqn:Hxy.
    + apply Z.leb_le in Hxy. constructor; [constructor; assumption|].
      constructor; [exact Hxy|].
      eapply List.Forall_impl; [|exact Hy]. simpl. intros a Ha. lia.
    + apply Z.leb_gt in Hxy. constructor; [exact IH|].
      eapply Permutation_Forall; [symmetry; apply insert_by_perm|].
      constructor; [lia|exact Hy].
Qed.

Lemma sort_by_leb_sorted l : StronglySorted Z.le (sort_by Z.leb l).
Proof.
  induction l as [|x l IH]; simpl; [constructor|].
  apply insert_by_leb_sorted, IH.
Qed.

(** An ascending sequence of distinct numbers is left as it is. *)
Lemma sort_by_leb_ascending l :
  StronglySorted Z.lt l -> sort_by Z.leb l = l.
Proof.
  intros H. apply sort_by_sorted. apply StronglySorted_Sorted in H.
  induction H as [|x t Hs IH Hd]; constructor; [exact IH|].
  destruct Hd; constructor. apply Z.leb_le. lia.
Qed.

Lemma strongly_sorted_app (l1 l2 : list Z) :
  StronglySorted Z.le (l1 ++ l2) <->
  StronglySorted Z.le l1 /\ StronglySorted Z.le l2 /\
  (forall x y, In x l1 -> In y l2 -> x <= y).
Proof.
  induction l1 as [|a l1 IH]; simpl.
  - split; [intros H; repeat split; [constructor|exact H|tauto]|tauto].
  - split.
    + intros H. inversion H as [|? ? Hs Ha]; subst.
      apply IH in Hs. destruct Hs as (H1 & H2 & H12).
      apply Forall_app in Ha. destruct Ha as [Ha1 Ha2].
      repeat split; [constructor; assumption|exact H2|].
      intros x y [<-|Hx] Hy; [|auto].
      rewrite List.Forall_forall in Ha2. apply Ha2, Hy.
    + intros (H1 & H2 & H12). inversion H1 as [|? ? Hs Ha]; subst.
      constructor.
      * apply IH. repeat split; auto.
      * apply Forall_app. split; [exact Ha|].
        apply List.Forall_forall. intros y Hy. apply H12; auto.
Qed.

Lemma concat_filter_sorted (p : list Z -> bool) gs :
  StronglySorted Z.le (concat gs) ->
  StronglySorted Z.le (concat (List.filter p gs)).
Proof.
  induction gs as [|g gs IH]; simpl; [tauto|].
  intros H. apply strongly_sorted_app in H. destruct H as (Hg & Hr & Hgr).
  destruct (p g); [|apply IH, Hr].
  simpl. apply strongly_sorted_app. repeat split; [exact Hg|apply IH, Hr|].
  intros x y Hx Hy. apply Hgr; [exact Hx|].
  apply in_concat in Hy. destruct Hy as (g' & Hg' & Hy).
  apply filter_In in Hg'. apply in_concat. exists g'. tauto.
Qed.

Lemma concat_filter_length {B : Type} (p : list B -> bool) gs :
  (length (concat (List.filter p gs)) <= length (concat gs))%nat.
Proof.
  induction gs as [|g gs IH]; simpl; [lia|].
  destruct (p g); simpl; rewrite !length_app; lia.
Qed.

(** C4. Whatever the input numbers, the groups kept hold no more numbers
    than the input, they are the rows of [firsts], and inside each group
    every number is its predecessor plus one. *)
Theorem runs_within_input (ids : list Z) (k : nat) :
  (length (concat (runs k (sort_by Z.leb ids))) <= length ids)%nat /\
  firsts_ids k (sort_by Z.leb ids) = concat (runs k (sort_by Z.leb ids)) /\
  Forall consecutive (runs k (sort_by Z.leb ids)).
Proof.
  rewrite firsts_scan, runs_scan. repeat split.
  - etransitivity; [apply concat_filter_length|].
    rewrite scan_groups_concat, sort_by_length. reflexivity.
  - apply List.Forall_forall. intros g Hg. apply filter_In in Hg.
    pose proof (scan_groups_consecutive (sort_by Z.leb ids)) as H.
    rewrite List.Forall_forall in H. apply H, Hg.
Qed.

End Runs.

(** ** The heap of frames: evaluation and framing *)

Section StoreFacts.
Import Frame Store.

Lemma bind_load {A : Type} l fr (k : frame -> M A) h :
  h !! l = Some fr -> bind (load l) k h = k fr h.
Proof. intros H. unfold bind, load. rewrite H. reflexivity. Qed.

Lemma bind_alloc {A : Type} fr (k : nat -> M A) h :
  bind (alloc fr) k h = k (fresh (dom h)) (<[fresh (dom h) := fr]> h).
Proof. reflexivity. Qed.

Lemma bind_setitem {A : Type} l c v fr (k : unit -> M A) h :
  h !! l = Some fr ->
  bind (setitem l c v) k h = k tt (<[l := set_col c v fr]> h).
Proof. intros H. unfold bind, setitem. rewrite H. reflexivity. Qed.

Lemma bind_lift_ok {A B : Type} (a : A) (k : A -> M B) h :
  bind (lift (Ok a)) k h = k a h.
Proof. reflexivity. Qed.

Lemma set_col_length c values (fr : frame) :
  length values = length fr -> length (set_col c values fr) = length fr.
Proof.
  intros H. unfold set_col. rewrite length_map, length_combine. lia.
Qed.

Lemma set_col_base {B : Type} (f : row -> B) c values (fr : frame) :
  (forall r cs, f (mkRow (label r) (base r) cs) = f r) ->
  length values = length fr ->
  map f (set_col c values fr) = map f fr.
Proof.
  intros Hf. revert values.
  induction fr as [|r fr IH]; intros [|v values] H; try discriminate;
    [reflexivity|].
  unfold set_col in *. simpl. rewrite Hf.
  rewrite IH by (simpl in H; lia). reflexivity.
Qed.

Lemma derived_col_set_col c values (fr : frame) :
  length values = length fr -> derived_col c (set_col c values fr) = Ok values.
Proof.
  unfold derived_col. revert values.
  induction fr as [|r fr IH]; intros [|v values] H; try discriminate;
    [reflexivity|].
  specialize (IH values). unfold set_col in *. simpl.
  rewrite lookup_insert_eq. simpl.
  destruct (mapM _ _) as [l|]; [|discriminate IH; simpl in H; lia].
  simpl. f_equal. f_equal.
  assert (Ok l = Ok values) as E by (apply IH; simpl in H; lia).
  congruence.
Qed.

End StoreFacts.

(** ** Task 9: the answer of [find_consecutive_students] *)

Section Consumer.
Import Frame Store Queries RunSpec Samples.
Local Open Scope Z_scope.

Lemma ints_IntV zs : ints (map IntV zs) = Ok zs.
Proof.
  unfold ints. induction zs as [|z zs IH]; [reflexivity|].
  simpl. destruct (mapM _ _) as [l|]; [|discriminate].
  simpl. congruence.
Qed.

Lemma diff_from_length l : forall x, length (diff_from x l) = length l.
Proof. induction l as [|y l IH]; intros x; simpl; [|rewrite IH]; reflexivity. Qed.

Lemma diff_length l : length (diff l) = length l.
Proof. destruct l; simpl; [|rewrite diff_from_length]; reflexivity. Qed.

Lemma cumsum_from_length l : forall acc, length (cumsum_from acc l) = length l.
Proof. induction l as [|b l IH]; intros acc; simpl; [|rewrite IH]; reflexivity. Qed.

Lemma select_map {B C : Type} (f : B -> C) (l : list B) (m : list bool) :
  map f (select l m) = select (map f l) m.
Proof.
  unfold select. revert m. induction l as [|x l IH]; intros [|b m];
    try reflexivity.
  simpl. destruct b; simpl; rewrite IH; reflexivity.
Qed.

Lemma col_isu_sorted (d : frame) :
  col ису (sort_by by_ису d) = sort_by Z.leb (col ису d).
Proof. unfold col. apply sort_by_map. reflexivity. Qed.

(** The numbers in the answer are the first five numbers of [firsts]. *)
Lemma find_consecutive_students_ids (h : gmap nat frame) (data : nat)
  (d : frame) :
  h !! data = Some d ->
  exists cards h',
    find_consecutive_students data h = (Ok cards, h') /\
    map card_ису cards
    = firstn 5 (firsts_ids 5 (sort_by Z.leb (col ису d))).
Proof.
  intros Hd. unfold find_consecutive_students, mbind, store_bind.
  rewrite (bind_load _ _ _ _ Hd), bind_alloc. cbv beta.
  set (l := fresh (dom h)). set (sorted := sort_by by_ису d).
  rewrite (bind_load l sorted) by apply lookup_insert_eq. cbv beta.
  rewrite (bind_setitem l _ _ sorted) by apply lookup_insert_eq. cbv beta.
  set (f1 := set_col "diff" (diff (col ису sorted)) sorted).
  assert (length (diff (col ису sorted)) = length sorted) as Hdiff
    by (unfold col; rewrite diff_length, length_map; reflexivity).
  assert (length f1 = length sorted) as Hf1
    by (apply set_col_length, Hdiff).
  assert (derived_col "diff" f1 = Ok (diff (col ису sorted))) as Hd1
    by (apply derived_col_set_col, Hdiff).
  rewrite (bind_load l f1) by apply lookup_insert_eq. cbv beta.
  rewrite Hd1, bind_lift_ok. cbv beta.
  rewrite (bind_setitem l _ _ f1) by apply lookup_insert_eq. cbv beta.
  fold (cumsum (map ne_one (diff (col ису sorted)))).
  fold (area_of (col ису sorted)).
  set (area := area_of (col ису sorted)).
  assert (length area = length sorted) as Harea.
  { unfold area, area_of, cumsum.
    rewrite cumsum_from_length, length_map. exact Hdiff. }
  set (f2 := set_col "area" (map IntV area) f1).
  assert (derived_col "area" f2 = Ok (map IntV area)) as Hd2
    by (apply derived_col_set_col; rewrite length_map; congruence).
  rewrite (bind_load l f2) by apply lookup_insert_eq. cbv beta.
  rewrite Hd2, bind_lift_ok. cbv beta.
  rewrite ints_IntV, bind_lift_ok. cbv beta zeta.
  eexists _, _. split; [reflexivity|].
  rewrite <- firstn_map, map_map, select_map.
  unfold firsts_ids. rewrite <- col_isu_sorted. fold sorted. fold area.
  f_equal. f_equal. unfold f2, f1, col.
  rewrite !(set_col_base (fun r => ису (base r))); try reflexivity.
  - exact Hdiff.
  - rewrite length_map, Harea. symmetry. exact Hf1.
Qed.

Lemma firstn_first_group (g : list Z) gs n :
  (n <= length g)%nat -> firstn n (concat (g :: gs)) = firstn n g.
Proof.
  intros H. simpl. rewrite firstn_app.
  replace (n - length g)%nat with 0%nat by lia.
  simpl. apply app_nil_r.
Qed.

(** C5. The groups kept are in ascending order of the numbers, and
    [find_consecutive_students] answers with the first five rows of the
    first group kept (with no row when no group is kept). For the numbers
    10 to 15 one group of six is kept and the answer holds 10 to 14. *)
Theorem find_consecutive_students_first_group (h : gmap nat frame)
  (data : nat) (d : frame) :
  h !! data = Some d ->
  (exists cards h',
     find_consecutive_students data h = (Ok cards, h') /\
     map card_ису cards
     = firstn 5 (hd [] (runs 5 (sort_by Z.leb (col ису d))))) /\
  StronglySorted Z.le (concat (runs 5 (sort_by Z.leb (col ису d)))) /\
  runs 5 (sort_by Z.leb [10; 11; 12; 13; 14; 15])
  = [[10; 11; 12; 13; 14; 15]] /\
  fst (find_consecutive_students 0
         {[ 0%nat := roster_of_ids [10; 11; 12; 13; 14; 15] ]})
  = Ok (map card_of (firstn 5 (roster_of_ids [10; 11; 12; 13; 14; 15]))).
Proof.
  intros Hd. split; [|split; [|split]].
  - destruct (find_consecutive_students_ids h data d Hd)
      as (cards & h' & Hrun & Hids).
    exists cards, h'. split; [exact Hrun|]. rewrite Hids.
    rewrite firsts_scan, runs_scan.
    destruct (List.filter _ _) as [|g gs] eqn:E; [reflexivity|].
    apply firstn_first_group.
    assert (In g (List.filter (fun g => (5 <=? length g)%nat)
                    (scan_groups (sort_by Z.leb (col ису d))))) as Hin
      by (rewrite E; left; reflexivity).
    apply filter_In in Hin. destruct Hin as [_ Hlen].
    apply Nat.leb_le in Hlen. exact Hlen.
  - rewrite runs_scan. apply concat_filter_sorted.
    rewrite scan_groups_concat. apply sort_by_leb_sorted.
  - reflexivity.
  - vm_compute. reflexivity.
Qed.

Lemma find_consecutive_students_first_group_witness :
  exists cards h',
    find_consecutive_students 0
      {[ 0%nat := roster_of_ids [10; 11; 12; 13; 14; 15] ]} = (Ok cards, h') /\
    map card_ису cards = [10; 11; 12; 13; 14].
Proof.
  destruct (find_consecutive_students_first_group
              {[ 0%nat := roster_of_ids [10; 11; 12; 13; 14; 15] ]} 0
              (roster_of_ids [10; 11; 12; 13; 14; 15])
              (lookup_singleton_eq _ _))
    as [(cards & h' & Hrun & Hids) _].
  exists cards, h'. split; [exact Hrun|]. rewrite Hids. reflexivity.
Defined.

(** C2 (as amended). [find_consecutive_students] has no threshold
    parameter, the threshold is 5, and it answers with rows, not with
    groups: the numbers of its rows are the first five members of the
    maximal groups of consecutive numbers with at least five members, these
    groups being taken in ascending order from the numbers of the roster put
    in ascending order, which are cut into maximal groups in one way only.
    For a roster without rows the answer has no row; for the numbers
    1 2 3 4 5 9 10 it holds the rows of 1 2 3 4 5. *)
Theorem find_consecutive_students_maximal_groups (h : gmap nat frame)
  (data : nat) (d : frame) :
  h !! data = Some d ->
  (exists cards h' gs,
     find_consecutive_students data h = (Ok cards, h') /\
     Permutation (concat gs) (col ису d) /\
     StronglySorted Z.le (concat gs) /\
     maximal_groups gs /\
     (forall gs', Permutation (concat gs') (col ису d) ->
                  StronglySorted Z.le (concat gs') ->
                  maximal_groups gs' -> gs' = gs) /\
     map card_ису cards
     = firstn 5 (concat (List.filter (fun g => (5 <=? length g)%nat) gs))) /\
  fst (find_consecutive_students 0 {[ 0%nat := roster_of_ids [] ]}) = Ok [] /\
  fst (find_consecutive_students 0
         {[ 0%nat := roster_of_ids [1; 2; 3; 4; 5; 9; 10] ]})
  = Ok (map card_of (firstn 5 (roster_of_ids [1; 2; 3; 4; 5; 9; 10]))).
Proof.
  intros Hd. split; [|split].
  - destruct (find_consecutive_students_ids h data d Hd)
      as (cards & h' & Hrun & Hids).
    exists cards, h', (scan_groups (sort_by Z.leb (col ису d))).
    split; [exact Hrun|]. rewrite scan_groups_concat.
    split; [apply sort_by_perm|]. split; [apply sort_by_leb_sorted|].
    split; [apply scan_groups_maximal|]. split.
    + intros gs' Hp Hs Hm.
      assert (concat gs' = sort_by Z.leb (col ису d)) as <-.
      { apply (StronglySorted_unique Z.le);
          [exact Hs|apply sort_by_leb_sorted|].
        etransitivity; [exact Hp|]. symmetry. apply sort_by_perm. }
      symmetry. apply maximal_groups_scan, Hm.
    + rewrite Hids, firsts_scan. reflexivity.
  - vm_compute. reflexivity.
  - vm_compute. reflexivity.
Qed.

Lemma find_consecutive_students_maximal_groups_witness :
  exists cards h',
    find_consecutive_students 0
      {[ 0%nat := roster_of_ids [1; 2; 3; 4; 5; 9; 10] ]} = (Ok cards, h') /\
    map card_ису cards = [1; 2; 3; 4; 5].
Proof.
  destruct (find_consecutive_students_maximal_groups
              {[ 0%nat := roster_of_ids [1; 2; 3; 4; 5; 9; 10] ]} 0
              (roster_of_ids [1; 2; 3; 4; 5; 9; 10])
              (lookup_singleton_eq _ _))
    as [(cards & h' & gs & Hrun & _ & _ & _ & Huniq & Hids) _].
  exists cards, h'. split; [exact Hrun|]. rewrite Hids.
  rewrite <- (Huniq (scan_groups [1; 2; 3; 4; 5; 9; 10])).
  - reflexivity.
  - rewrite scan_groups_concat. reflexivity.
  - rewrite scan_groups_concat. repeat constructor; lia.
  - apply scan_groups_maximal.
Defined.

(** C2 (as stated) fails: the numbers 1 to 7 form one maximal group of
    seven members, and the answer does not hold the members of the groups
    of at least five members, it holds five rows. *)
Lemma find_consecutive_students_seven :
  ~ exists cards h' gs,
      find_consecutive_students 0
        {[ 0%nat := roster_of_ids [1; 2; 3; 4; 5; 6; 7] ]} = (Ok cards, h') /\
      concat gs = [1; 2; 3; 4; 5; 6; 7] /\ maximal_groups gs /\
      map card_ису cards
      = concat (List.filter (fun g => (5 <=? length g)%nat) gs).
Proof.
  intros (cards & h' & gs & Hrun & Hc & Hm & Hids).
  apply maximal_groups_scan in Hm. rewrite Hc in Hm. subst gs.
  destruct (find_consecutive_students_ids
              {[ 0%nat := roster_of_ids [1; 2; 3; 4; 5; 6; 7] ]} 0
              (roster_of_ids [1; 2; 3; 4; 5; 6; 7])
              (lookup_singleton_eq _ _))
    as (cards0 & h0 & Hrun0 & Hids0).
  rewrite Hrun in Hrun0. injection Hrun0 as <- _.
  rewrite Hids0 in Hids. vm_compute in Hids. discriminate Hids.
Qed.

End Consumer.

(** ** No query changes the roster *)

Section Framing.
Import Patronym Frame Store Queries.

Variable h0 : gmap nat frame.

Lemma framed_ret {A : Type} (a : A) : framed h0 (ret a) (fun _ => True).
Proof. intros h r h' Hk [= <- <-]. split; [exact Hk|trivial]. Qed.

Lemma framed_lift {A : Type} (x : result A) : framed h0 (lift x) (fun _ => True).
Proof. intros h r h' Hk [= <- <-]. split; [exact Hk|trivial]. Qed.

Lemma framed_load l : framed h0 (load l) (fun _ => True).
Proof.
  intros h r h' Hk. unfold load.
  destruct (h !! l); intros [= <- <-]; split; trivial.
Qed.

(** A new frame lives at an address that [h0] does not have. *)
Lemma framed_alloc fr : framed h0 (alloc fr) (fun l => h0 !! l = None).
Proof.
  intros h r h' Hk [= <- <-].
  assert (h !! fresh (dom h) = None) as Hnew
    by (apply not_elem_of_dom, is_fresh).
  assert (h0 !! fresh (dom h) = None) as Hnew0.
  { destruct (h0 !! fresh (dom h)) as [fr0|] eqn:E; [|reflexivity].
    apply Hk in E. congruence. }
  split.
  - intros l fr0 Hl. rewrite lookup_insert_ne by congruence. apply Hk, Hl.
  - intros a [= <-]. exact Hnew0.
Qed.

(** Assigning a column to a frame that [h0] does not have keeps [h0]. *)
Lemma framed_setitem l c values :
  h0 !! l = None -> framed h0 (setitem l c values) (fun _ => True).
Proof.
  intros Hl h r h' Hk. unfold setitem.
  destruct (h !! l); intros [= <- <-]; split; trivial.
  intros l' fr' Hl'. rewrite lookup_insert_ne by congruence. apply Hk, Hl'.
Qed.

Lemma framed_bind {A B : Type} (m : M A) (k : A -> M B) (Q : A -> Prop)
  (Q' : B -> Prop) :
  framed h0 m Q -> (forall a, Q a -> framed h0 (k a) Q') ->
  framed h0 (bind m k) Q'.
Proof.
  intros Hm Hkont h r h' Hk. unfold bind.
  destruct (m h) as [[a|e] h1] eqn:E.
  - destruct (Hm _ _ _ Hk E) as [Hk1 Ha]. intros Hrun.
    exact (Hkont a (Ha a eq_refl) _ _ _ Hk1 Hrun).
  - destruct (Hm _ _ _ Hk E) as [Hk1 _]. intros [= <- <-].
    split; [exact Hk1|discriminate].
Qed.

End Framing.

Ltac framed_steps :=
  unfold mbind, store_bind, mret, store_ret; cbv zeta;
  repeat first
    [ apply framed_ret
    | apply framed_lift
    | apply framed_load
    | eapply framed_bind; [apply framed_alloc|intros ? ?]
    | eapply framed_bind; [apply framed_load|intros ? _]
    | eapply framed_bind; [apply framed_lift|intros ? _]
    | eapply framed_bind; [apply framed_setitem; assumption|intros ? _] ].

Section RosterUnchanged.
Import Patronym Frame Store Queries.

Lemma framed_unchanged {A : Type} (m : M A) :
  (forall h0, framed h0 m (fun _ => True)) -> leaves_frames_unchanged m.
Proof.
  intros H h r h' Hrun.
  apply (H h h r h'); [|exact Hrun]. intros l fr Hl. exact Hl.
Qed.

(** C7. Each query leaves every frame that exists before the call, the
    roster and the slices made of it, with the rows and cells it had:
    the columns [пол], [diff] and [area] are assigned to frames created
    during the call. *)
Theorem queries_leave_roster_unchanged (data : nat) :
  leaves_frames_unchanged (filter_fsuir_students data) /\
  leaves_frames_unchanged (on_frame_result find_homonymous_students data) /\
  leaves_frames_unchanged (on_frame analyze_patronyms data) /\
  leaves_frames_unchanged (on_frame_result faculty_statistics data) /\
  (forall mean median,
     leaves_frames_unchanged (on_frame (course_statistics mean median) data)) /\
  (forall share,
     leaves_frames_unchanged (on_frame_result (most_popular_name share) data)) /\
  leaves_frames_unchanged
    (on_frame_result find_students_with_name_starting_P data) /\
  (forall series_mean py_round,
     leaves_frames_unchanged
       (highest_avg_grade_faculty series_mean py_round data)) /\
  leaves_frames_unchanged (find_consecutive_students data).
Proof.
  repeat split; intros; apply framed_unchanged; intros h0.
  - unfold filter_fsuir_students. framed_steps.
  - unfold on_frame_result. framed_steps.
  - unfold on_frame. framed_steps.
  - unfold on_frame_result. framed_steps.
  - unfold on_frame. framed_steps.
  - unfold on_frame_result. framed_steps.
  - unfold on_frame_result. framed_steps.
  - unfold highest_avg_grade_faculty. framed_steps.
    match goal with |- context [if ?b then _ else _] => destruct b end;
      framed_steps.
  - unfold find_consecutive_students. framed_steps.
Qed.

End RosterUnchanged.

(** * Further properties of the queries *)

(** ** Task 3: consequences of the two patterns *)

Section ClassifierMore.
Import Re Patronym PatternForms.

Local Abbreviation isw := Unicode.uni_isword.

Lemma gender_female_intro s :
  female_form s -> gender_identification s = female.
Proof.
  intros H. apply female_search_iff in H.
  unfold gender_identification. rewrite H. reflexivity.
Qed.

Lemma gender_male_intro s :
  ~ female_form s -> male_form s ->
  gender_identification s = male.
Proof.
  intros Hf Hm. apply male_search_iff in Hm.
  unfold gender_identification. rewrite Hm.
  destruct (re_search female_patr s) eqn:E; [|reflexivity].
  apply female_search_iff in E. tauto.
Qed.

Lemma gender_unknown_intro s :
  ~ female_form s -> ~ male_form s ->
  gender_identification s = unknown.
Proof.
  intros Hf Hm. unfold gender_identification.
  destruct (re_search female_patr s) eqn:E1.
  - apply female_search_iff in E1. tauto.
  - destruct (re_search male_patr s) eqn:E2; [|reflexivity].
    apply male_search_iff in E2. tauto.
Qed.

Lemma gender_female_elim s :
  gender_identification s = female -> female_form s.
Proof.
  unfold gender_identification.
  destruct (re_search female_patr s) eqn:E1.
  - intros _. apply female_search_iff, E1.
  - destruct (re_search male_patr s); discriminate.
Qed.

(** X1. A string without any letter of А..я is classified [unknown]. *)
Theorem gender_identification_no_letter (s : pystr) :
  Forall (fun c => ~ a_ya_letter c) s ->
  gender_identification s = unknown.
Proof.
  intros Hs. rewrite List.Forall_forall in Hs.
  apply gender_unknown_intro.
  - intros (pre & u & e & post & -> & Hne & Hu & _).
    destruct u as [|x u]; [congruence|].
    inversion Hu as [|? ? Hx _]; subst.
    apply (Hs x); [|exact Hx].
    apply in_or_app. right. left. reflexivity.
  - intros (q & u & e & post & -> & _ & Hne & Hu & _).
    destruct u as [|x u]; [congruence|].
    inversion Hu as [|? ? Hx _]; subst.
    apply (Hs x); [|exact Hx].
    apply in_or_app. right. left. reflexivity.
Qed.

Lemma gender_identification_no_letter_witness :
  gender_identification (ustr "Ivanovna-Xyz 42") = unknown.
Proof.
  apply gender_identification_no_letter.
  apply List.Forall_forall. intros c Hc. vm_compute in Hc.
  unfold a_ya_letter.
  repeat (destruct Hc as [<-|Hc]; [lia|]). destruct Hc.
Defined.

Lemma female_ending_last e :
  In e female_endings -> exists e', e = e' ++ [1072%N].
Proof.
  unfold female_endings. simpl. intros H. exists (removelast e).
  destruct H as [<-|[<-|[<-|[<-|[]]]]]; vm_compute; reflexivity.
Qed.

Lemma male_ending_last e :
  In e male_endings -> exists e', e = e' ++ [1095%N].
Proof.
  unfold male_endings. simpl. intros H. exists (removelast e).
  destruct H as [<-|[<-|[<-|[]]]]; vm_compute; reflexivity.
Qed.

Lemma ending_letters e :
  In e female_endings \/ In e male_endings -> Forall a_ya_letter e.
Proof.
  unfold female_endings, male_endings. simpl.
  intros [H|H];
    repeat (destruct H as [<-|H];
            [vm_compute; repeat constructor; discriminate|]);
    destruct H.
Qed.

(** X2. A single word of letters of А..я that ends in a female ending is
    classified [female], one that ends in a male ending is classified
    [male]. *)
Theorem gender_identification_single_word (u e : pystr) :
  u <> [] -> Forall a_ya_letter u ->
  (In e female_endings -> gender_identification (u ++ e) = female) /\
  (In e male_endings -> gender_identification (u ++ e) = male).
Proof.
  intros Hne Hu. split; intros He.
  - apply gender_female_intro. exists [], u, e, [].
    rewrite app_nil_r. repeat split; auto.
  - apply gender_male_intro.
    + intros (pre & u' & ef & post & Heq & _ & _ & Hef & _ & Hr).
      assert (Forall a_ya_letter (u ++ e)) as Hall
        by (apply Forall_app; split; [exact Hu|apply ending_letters; auto]).
      assert (post = []) as ->.
      { destruct post as [|c post]; [reflexivity|]. exfalso.
        unfold free_right in Hr. simpl in Hr.
        rewrite List.Forall_forall in Hall.
        rewrite letter_is_word in Hr; [discriminate|].
        apply Hall. rewrite Heq. rewrite !in_app_iff. simpl. tauto. }
      destruct (female_ending_last ef Hef) as (ef' & ->).
      destruct (male_ending_last e He) as (e' & ->).
      rewrite app_nil_r, !app_assoc in Heq.
      apply app_inj_tail in Heq. destruct Heq as [_ Heq]. discriminate.
    + exists [], u, e, []. rewrite app_nil_r.
      split; [reflexivity|]. split; [constructor|]. split; [exact Hne|].
      split; [exact Hu|]. split; [exact He|]. split; [|exact I].
      destruct u as [|x u]; [congruence|]. exists x.
      split; [reflexivity|]. inversion Hu; assumption.
Qed.

Lemma gender_identification_single_word_witness :
  gender_identification (ustr "Ильин" ++ ustr "ична") = female /\
  gender_identification (ustr "Иль" ++ ustr "ич") = male.
Proof.
  split.
  - apply (gender_identification_single_word (ustr "Ильин") (ustr "ична")).
    + discriminate.
    + vm_compute. repeat constructor; discriminate.
    + right. right. left. reflexivity.
  - apply (gender_identification_single_word (ustr "Иль") (ustr "ич")).
    + discriminate.
    + vm_compute. repeat constructor; discriminate.
    + right. right. left. reflexivity.
Defined.

Lemma space_not_word : isw 32%N = false.
Proof. vm_compute. reflexivity. Qed.

(** X3. A [female] verdict is kept when further words are added before or
    after the string, separated from it by a space: the female pattern is
    searched anywhere in the string. *)
Theorem gender_identification_female_in_context (s t : pystr) :
  gender_identification s = female ->
  gender_identification (s ++ ustr " " ++ t) = female /\
  gender_identification (t ++ ustr " " ++ s) = female.
Proof.
  intros H. apply gender_female_elim in H.
  destruct H as (pre & u & e & post & -> & Hne & Hu & He & Hl & Hr).
  change (ustr " ") with [32%N]. split; apply gender_female_intro.
  - exists pre, u, e, (post ++ [32%N] ++ t).
    rewrite <- !app_assoc. repeat split; auto.
    unfold free_right in *. destruct post; simpl in *;
      [apply space_not_word|exact Hr].
  - exists (t ++ [32%N] ++ pre), u, e, post.
    rewrite <- !app_assoc. repeat split; auto.
    unfold free_left in *. rewrite !app_assoc.
    destruct pre as [|c pre _] using rev_ind.
    + rewrite app_nil_r, last_snoc. apply space_not_word.
    + rewrite !app_assoc, last_snoc. rewrite last_snoc in Hl. exact Hl.
Qed.

Lemma gender_identification_female_in_context_witness :
  gender_identification (ustr "Ивановна" ++ ustr " " ++ ustr "кызы") = female /\
  gender_identification (ustr "Анна" ++ ustr " " ++ ustr "Ивановна") = female.
Proof.
  split.
  - apply (gender_identification_female_in_context (ustr "Ивановна")
             (ustr "кызы")).
    vm_compute. reflexivity.
  - apply (gender_identification_female_in_context (ustr "Ивановна")
             (ustr "Анна")).
    vm_compute. reflexivity.
Defined.

End ClassifierMore.

(** ** Sorting and counting, continued *)

Section SortMore.
Import Frame.
Context {A : Type}.

Lemma insert_by_strongly_sorted (le : A -> A -> bool) x l :
  (forall a b, le a b = false -> le b a = true) ->
  (forall a b c, le a b = true -> le b c = true -> le a c = true) ->
  StronglySorted (fun a b => le a b = true) l ->
  StronglySorted (fun a b => le a b = true) (insert_by le x l).
Proof.
  intros Htot Htr. induction 1 as [|y t Hs IH Hy]; simpl.
  - repeat constructor.
  - destruct (le x y) eqn:Hxy.
    + constructor; [constructor; assumption|].
      constructor; [exact Hxy|].
      eapply List.Forall_impl; [|exact Hy]. simpl. intros a Ha.
      eapply Htr; eassumption.
    + constructor; [exact IH|].
      eapply Permutation_Forall; [symmetry; apply insert_by_perm|].
      constructor; [apply Htot, Hxy|exact Hy].
Qed.

Lemma sort_by_strongly_sorted (le : A -> A -> bool) l :
  (forall a b, le a b = false -> le b a = true) ->
  (forall a b c, le a b = true -> le b c = true -> le a c = true) ->
  StronglySorted (fun a b => le a b = true) (sort_by le l).
Proof.
  intros Htot Htr. induction l as [|x l IH]; simpl; [constructor|].
  apply insert_by_strongly_sorted; assumption.
Qed.

Lemma sort_by_nil (le : A -> A -> bool) l : sort_by le l = [] <-> l = [].
Proof.
  split; [|intros ->; reflexivity].
  intros H. apply (f_equal (@length A)) in H.
  rewrite sort_by_length in H. destruct l; [reflexivity|discriminate].
Qed.

Lemma filter_perm (p : A -> bool) l l' :
  Permutation l l' -> Permutation (List.filter p l) (List.filter p l').
Proof.
  induction 1 as [|x l l' _ IH|x y l|l l' l'' _ IH1 _ IH2]; simpl.
  - constructor.
  - destruct (p x); [apply perm_skip|]; exact IH.
  - destruct (p x), (p y); try reflexivity. apply perm_swap.
  - etransitivity; eassumption.
Qed.

Lemma strongly_sorted_impl (R R' : A -> A -> Prop) l :
  (forall a b, R a b -> R' a b) ->
  StronglySorted R l -> StronglySorted R' l.
Proof.
  intros HR. induction 1 as [|x t Hs IH Hx]; constructor; [exact IH|].
  eapply List.Forall_impl; [|exact Hx]. apply HR.
Qed.

End SortMore.

Section CountMore.
Import Frame.
Context {A : Type} `{EqDecision A}.

Lemma unique_nil (l : list A) : unique l = [] <-> l = [].
Proof. destruct l; simpl; split; congruence. Qed.

Lemma count_perm (x : A) l l' : Permutation l l' -> count x l = count x l'.
Proof.
  intros H. unfold count. apply Permutation_length, filter_perm, H.
Qed.

Lemma unique_perm (l l' : list A) :
  Permutation l l' -> Permutation (unique l) (unique l').
Proof.
  intros H. apply Permutation.NoDup_Permutation; try apply unique_NoDup.
  intros x. rewrite !unique_In. split; apply Permutation_in;
    [exact H|symmetry; exact H].
Qed.

(** The counts of [value_counts] do not depend on the order of the rows. *)
Lemma value_counts_snd_perm (l l' : list A) :
  Permutation l l' ->
  Permutation (map snd (value_counts l)) (map snd (value_counts l')).
Proof.
  intros H.
  rewrite (value_counts_perm l), (value_counts_perm l'), !map_map. simpl.
  rewrite (unique_perm l l' H).
  erewrite map_ext; [reflexivity|].
  intros v. simpl. apply count_perm, H.
Qed.

Lemma value_counts_In (v : A) n (l : list A) :
  In (v, n) (value_counts l) <-> In v l /\ n = count v l.
Proof.
  split.
  - intros H. eapply Permutation_in in H; [|apply value_counts_perm].
    apply in_map_iff in H. destruct H as (x & [= <- <-] & Hx).
    apply (proj1 (unique_In _ _)) in Hx. split; [exact Hx|reflexivity].
  - intros [Hv ->]. eapply Permutation_in; [symmetry; apply value_counts_perm|].
    apply in_map_iff. exists v. split; [reflexivity|]. apply unique_In, Hv.
Qed.

Lemma value_counts_nil (l : list A) : value_counts l = [] <-> l = [].
Proof.
  unfold value_counts. rewrite sort_by_nil. split.
  - intros H. apply map_eq_nil in H. apply unique_nil, H.
  - intros ->. reflexivity.
Qed.

(** [value_counts] lists the most frequent value first. *)
Lemma value_counts_sorted (l : list A) :
  StronglySorted (fun p q : A * nat => snd q <= snd p) (value_counts l).
Proof.
  unfold value_counts.
  eapply strongly_sorted_impl;
    [|apply (sort_by_strongly_sorted (fun p q : A * nat => snd q <=? snd p))].
  - intros p q Hpq. apply Nat.leb_le, Hpq.
  - intros a b Hab. apply Nat.leb_gt in Hab. apply Nat.leb_le. lia.
  - intros a b c Hab Hbc. apply Nat.leb_le in Hab, Hbc. apply Nat.leb_le. lia.
Qed.

End CountMore.

(** ** Tasks 2 to 4, continued *)

Section StatisticsMore.
Import Patronym Frame Store Queries Samples.

Lemma count_filter {B : Type} `{EqDecision B} (p : B -> bool) (v : B) l :
  count v (List.filter p l) = if p v then count v l else 0.
Proof.
  induction l as [|x l IH]; simpl; [destruct (p v); reflexivity|].
  destruct (p x) eqn:Hx; rewrite ?count_cons, IH.
  - destruct (decide (x = v)) as [->|Hne].
    + rewrite Hx, bool_decide_eq_true_2 by reflexivity. reflexivity.
    + rewrite bool_decide_eq_false_2 by exact Hne.
      destruct (p v); reflexivity.
  - destruct (decide (x = v)) as [->|Hne].
    + rewrite Hx. reflexivity.
    + rewrite bool_decide_eq_false_2 by exact Hne.
      destruct (p v); reflexivity.
Qed.

Lemma sum_filter_map {B : Type} (f : B -> nat) (u : list B) :
  list_sum (List.filter (fun numb => 1 <? numb) (map f u))
  = list_sum (map (fun v => if 1 <? f v then f v else 0) u).
Proof.
  induction u as [|v u IH]; [reflexivity|].
  simpl. destruct (1 <? f v); simpl; rewrite IH; reflexivity.
Qed.

Lemma filter_map_comm {B C : Type} (f : B -> C) (p : C -> bool) l :
  List.filter p (map f l) = map f (List.filter (fun x => p (f x)) l).
Proof.
  induction l as [|x l IH]; [reflexivity|].
  simpl. destruct (p (f x)); simpl; rewrite IH; reflexivity.
Qed.

(** The sum of the surname counts above one is the number of rows whose
    surname occurs on another row as well. *)
Lemma homonyms_rows (fr : frame) :
  homonyms fr
  = length (List.filter
              (fun r => 1 <? count (surname (base r)) (col surname fr)) fr).
Proof.
  unfold homonyms. set (l := col surname fr).
  assert (Permutation (map snd (value_counts l))
                      (map (fun v => count v l) (unique l))) as Hp.
  { rewrite value_counts_perm, map_map. reflexivity. }
  rewrite (list_sum_perm _ _ (filter_perm _ _ _ Hp)), sum_filter_map.
  set (l' := List.filter (fun x => 1 <? count x l) l).
  assert (map (fun v => if 1 <? count v l then count v l else 0) (unique l)
          = map (fun v => count v l') (unique l)) as ->.
  { apply map_ext. intros v. unfold l'.
    rewrite (count_filter (fun x => 1 <? count x l)). reflexivity. }
  rewrite count_total.
  - unfold l', l, col. rewrite filter_map_comm, length_map. reflexivity.
  - apply unique_NoDup.
  - intros x Hx. apply unique_In. unfold l' in Hx.
    apply filter_In in Hx. tauto.
Qed.

Lemma homonyms_perm (fr fr' : frame) :
  Permutation fr fr' -> homonyms fr = homonyms fr'.
Proof.
  intros H. unfold homonyms. apply list_sum_perm, filter_perm.
  apply value_counts_snd_perm. unfold col. apply Permutation_map, H.
Qed.

Lemma where_eq_perm f v (fr fr' : frame) :
  Permutation fr fr' -> Permutation (where_eq f v fr) (where_eq f v fr').
Proof. apply filter_perm. Qed.

(** X4. [find_homonymous_students] raises (and then it is [ValueError], from
    [max] of an empty dict) exactly when the roster has no row. *)
Theorem find_homonymous_students_raises_iff_empty (df : frame) :
  (find_homonymous_students df = Raise ValueError <-> df = []) /\
  (forall e, find_homonymous_students df = Raise e -> e = ValueError) /\
  ((exists res, find_homonymous_students df = Ok res) <-> df <> []).
Proof.
  assert (df <> [] -> exists res, find_homonymous_students df = Ok res) as Hok.
  { intros Hne. unfold find_homonymous_students.
    destruct (py_max_key _ _) as [g|e] eqn:E; [eauto|].
    exfalso. unfold py_max_key in E.
    destruct (map _ _) eqn:Em; [|discriminate].
    apply map_eq_nil, unique_nil, map_eq_nil in Em.
    apply sort_by_nil, sort_by_nil in Em. contradiction. }
  repeat split.
  - intros H. destruct df as [|r df]; [reflexivity|].
    destruct Hok as [res Hres]; [discriminate|]. congruence.
  - intros ->. reflexivity.
  - intros e H. destruct df as [|r df]; [cbv in H; congruence|].
    destruct Hok as [res Hres]; [discriminate|]. congruence.
  - intros [res H] ->. discriminate.
  - exact Hok.
Qed.

(** X5. The number of homonyms returned by [find_homonymous_students] is the
    number of students whose surname is the surname of another student as
    well. *)
Theorem homonyms_numb_counts_students (df : frame) (exist : bool)
  (numb : nat) (per_course : list (pystr * nat)) (group : pystr) :
  find_homonymous_students df = Ok (exist, numb, per_course, group) ->
  numb = length (List.filter
                   (fun r => 1 <? count (surname (base r)) (col surname df))
                   df).
Proof.
  unfold find_homonymous_students.
  destruct (py_max_key _ _) as [g|e]; [|discriminate].
  intros [= _ <- _ _]. apply (homonyms_rows df).
Qed.

Lemma homonyms_numb_counts_students_witness :
  2 = length (List.filter
                (fun r => 1 <? count (surname (base r)) (col surname roster3))
                roster3).
Proof.
  apply (homonyms_numb_counts_students roster3 true 2
           [(ustr "1-й", 2)] (ustr "R3135")).
  vm_compute. reflexivity.
Defined.

Lemma max_from_spec {K : Type} (best : K * nat) (l : list (K * nat)) :
  exists v, In (max_from (fun a b => b <? a) best l, v) (best :: l) /\
            forall p, In p (best :: l) -> snd p <= v.
Proof.
  revert best. induction l as [|p l IH]; intros best.
  - exists (snd best). split; [left; destruct best; reflexivity|].
    intros q [<-|[]]. lia.
  - simpl. destruct (snd best <? snd p) eqn:E.
    + destruct (IH p) as (v & Hin & Hmax). exists v. split.
      * right. exact Hin.
      * apply Nat.ltb_lt in E. intros q [<-|Hq].
        -- specialize (Hmax p (or_introl eq_refl)). lia.
        -- apply Hmax, Hq.
    + destruct (IH best) as (v & Hin & Hmax). exists v. split.
      * destruct Hin as [Hin|Hin]; [left; exact Hin|right; right; exact Hin].
      * apply Nat.ltb_ge in E. intros q [<-|[<-|Hq]].
        -- apply Hmax. left. reflexivity.
        -- specialize (Hmax best (or_introl eq_refl)). lia.
        -- apply Hmax. right. exact Hq.
Qed.

(** X6. The group returned by [find_homonymous_students] is a group of the
    roster, and no group of the roster has more homonyms than it has. *)
Theorem max_hom_group_is_maximal (df : frame) (exist : bool) (numb : nat)
  (per_course : list (pystr * nat)) (group : pystr) :
  find_homonymous_students df = Ok (exist, numb, per_course, group) ->
  In group (col группа df) /\
  forall g, In g (col группа df) ->
            homonyms (where_eq группа g df)
            <= homonyms (where_eq группа group df).
Proof.
  unfold find_homonymous_students.
  set (df2 := sort_by by_группа (sort_by by_курс df)).
  assert (Permutation df2 df) as Hp
    by (unfold df2; rewrite !sort_by_perm; reflexivity).
  assert (forall g, In g (unique (col группа df2)) <-> In g (col группа df))
    as Hgroups.
  { intros g. rewrite unique_In. unfold col.
    split; apply Permutation_in, Permutation_map;
      [exact Hp|symmetry; exact Hp]. }
  assert (forall g, homonyms (where_eq группа g df2)
                    = homonyms (where_eq группа g df)) as Hhom
    by (intros g; apply homonyms_perm, where_eq_perm, Hp).
  destruct (py_max_key _ _) as [g0|e] eqn:E; [|discriminate].
  intros [= _ _ _ <-]. unfold py_max_key in E.
  destruct (map _ (unique (col группа df2))) as [|best l] eqn:Em;
    [discriminate|].
  injection E as <-.
  destruct (max_from_spec best l) as (v & Hin & Hmax).
  rewrite <- Em in Hin, Hmax.
  apply in_map_iff in Hin. destruct Hin as (g1 & [= Hg1 Hv] & Hin1).
  split.
  - rewrite <- Hg1. apply Hgroups, Hin1.
  - intros g Hg. apply Hgroups in Hg.
    specialize (Hmax (g, homonyms (where_eq группа g df2))).
    rewrite <- Hhom, <- (Hhom (max_from _ _ _)), <- Hg1, Hv.
    apply Hmax. apply in_map_iff. exists g. split; [reflexivity|exact Hg].
Qed.

Lemma max_hom_group_is_maximal_witness :
  In (ustr "R3135") (col группа roster3) /\
  forall g, In g (col группа roster3) ->
            homonyms (where_eq группа g roster3)
            <= homonyms (where_eq группа (ustr "R3135") roster3).
Proof.
  apply (max_hom_group_is_maximal roster3 true 2 [(ustr "1-й", 2)]).
  vm_compute. reflexivity.
Defined.

Lemma at_index_first {B : Type} s n (x : B) t :
  at_index s (combine (seq s (S n)) (x :: t)) = Ok x.
Proof. unfold at_index. simpl. rewrite Nat.eqb_refl. reflexivity. Qed.

Lemma at_index_last {B : Type} (x : B) t : forall s,
  at_index (s + length t) (combine (seq s (length (t ++ [x]))) (t ++ [x]))
  = Ok x.
Proof.
  induction t as [|y t IH]; intros s.
  - unfold at_index. simpl. rewrite Nat.add_0_r, Nat.eqb_refl. reflexivity.
  - specialize (IH (S s)). unfold at_index in *. simpl in *.
    assert ((s =? s + S (length t)) = false) as ->
      by (apply Nat.eqb_neq; lia).
    replace (s + S (length t)) with (S (s + length t)) by lia. exact IH.
Qed.

Lemma map_snd_combine_eq {B C : Type} (l1 : list B) (l2 : list C) :
  length l1 = length l2 -> map snd (combine l1 l2) = l2.
Proof.
  revert l2. induction l1 as [|x l1 IH]; intros [|y l2] H; try discriminate;
    [reflexivity|].
  simpl. rewrite IH by (simpl in H; lia). reflexivity.
Qed.

Lemma faculty_statistics_extremes_aux (data : frame) :
  data <> [] ->
  exists stats fmax fmin,
    faculty_statistics data
    = Ok (stats, (fmax, count fmax (col факультет data)),
                 (fmin, count fmin (col факультет data))) /\
    In fmax (col факультет data) /\ In fmin (col факультет data) /\
    (forall f, In f (col факультет data) ->
               count fmin (col факультет data) <= count f (col факультет data)
               /\ count f (col факультет data)
                  <= count fmax (col факультет data)) /\
    list_sum (map (fun p => snd (snd p)) stats) = length data.
Proof.
  intros Hne. unfold faculty_statistics.
  set (fl := col факультет data).
  pose proof (value_counts_sorted fl) as Hs.
  pose proof (fun v n => value_counts_In v n fl) as Hin.
  pose proof (value_counts_total fl) as Htot.
  destruct (value_counts fl) as [|[f1 n1] t] eqn:E.
  { apply (proj1 (value_counts_nil _)) in E. unfold fl, col in E.
    apply map_eq_nil in E. contradiction. }
  destruct (exists_last (l := (f1, n1) :: t)) as (t' & [f2 n2] & E');
    [discriminate|].
  assert (length ((f1, n1) :: t) = 1 + length t') as Hlen
    by (rewrite E', length_app; simpl; lia).
  pose proof (at_index_first 1 (length t) (f1, n1) t) as Hfirst.
  pose proof (at_index_last (f2, n2) t' 1) as Hlast.
  rewrite <- E', <- Hlen in Hlast.
  change (seq 1 (S (length t))) with (seq 1 (length ((f1, n1) :: t)))
    in Hfirst.
  rewrite Hlast, Hfirst.
  assert (In (f2, n2) ((f1, n1) :: t)) as Hl
    by (rewrite E'; apply in_or_app; right; left; reflexivity).
  destruct (proj1 (Hin f1 n1) (or_introl eq_refl)) as [Hf1 Hn1].
  destruct (proj1 (Hin f2 n2) Hl) as [Hf2 Hn2].
  clear Hl Hfirst Hlast Hlen. subst n1 n2.
  eexists _, f1, f2. split; [reflexivity|].
  split; [exact Hf1|]. split; [exact Hf2|]. split.
  - intros f Hf.
    assert (In (f, count f fl) ((f1, count f1 fl) :: t)) as Hfin
      by (apply Hin; split; [exact Hf|reflexivity]).
    split.
    + rewrite E' in Hs, Hfin. clear - Hs Hfin.
      induction t' as [|q t' IH]; simpl in *.
      * destruct Hfin as [[= -> ?]|[]]. lia.
      * inversion Hs as [|? ? Hs' Hq]; subst.
        destruct Hfin as [->|Hfin]; [|apply IH; assumption].
        rewrite List.Forall_forall in Hq.
        apply (Hq (f2, count f2 fl)). apply in_or_app. right. left.
        reflexivity.
    + inversion Hs as [|? ? _ Hall]; subst.
      destruct Hfin as [[= -> ?]|Hfin]; [lia|].
      rewrite List.Forall_forall in Hall. apply (Hall _ Hfin).
  - rewrite <- (map_map snd snd), map_snd_combine_eq
      by (rewrite length_seq; reflexivity).
    rewrite Htot. unfold fl, col. apply length_map.
Qed.

(** X7. On a roster with at least one row [faculty_statistics] returns; the
    faculty it gives as the largest is a faculty of the roster with its
    number of students, and no faculty has more; the one it gives as the
    smallest has no more students than any other; the numbers of the table
    add up to the number of rows. *)
Theorem faculty_statistics_extremes (data : frame) :
  data <> [] ->
  exists stats fmax fmin,
    faculty_statistics data
    = Ok (stats, (fmax, count fmax (col факультет data)),
                 (fmin, count fmin (col факультет data))) /\
    In fmax (col факультет data) /\ In fmin (col факультет data) /\
    (forall f, In f (col факультет data) ->
               count fmin (col факультет data) <= count f (col факультет data)
               /\ count f (col факультет data)
                  <= count fmax (col факультет data)) /\
    list_sum (map (fun p => snd (snd p)) stats) = length data.
Proof. apply faculty_statistics_extremes_aux. Qed.

Lemma faculty_statistics_extremes_witness :
  exists stats fmax fmin,
    faculty_statistics roster_abc
    = Ok (stats, (fmax, count fmax (col факультет roster_abc)),
                 (fmin, count fmin (col факультет roster_abc))) /\
    list_sum (map (fun p => snd (snd p)) stats) = length roster_abc.
Proof.
  destruct (faculty_statistics_extremes roster_abc)
    as (stats & fmax & fmin & H1 & _ & _ & _ & H2); [discriminate|].
  exists stats, fmax, fmin. split; assumption.
Defined.

(** X8. [faculty_statistics] raises (and then it is [KeyError], from
    [stats.at]) exactly when the roster has no row. *)
Theorem faculty_statistics_raises_iff_empty (data : frame) :
  (faculty_statistics data = Raise KeyError <-> data = []) /\
  (forall e, faculty_statistics data = Raise e -> e = KeyError).
Proof.
  assert (data <> [] -> exists res, faculty_statistics data = Ok res) as Hok.
  { intros Hne.
    destruct (faculty_statistics_extremes_aux data Hne)
      as (stats & fmax & fmin & H & _).
    eauto. }
  repeat split.
  - intros H. destruct data as [|r data]; [reflexivity|].
    destruct Hok as [res Hres]; [discriminate|]. congruence.
  - intros ->. reflexivity.
  - intros e H. destruct data as [|r data]; [cbv in H; congruence|].
    destruct Hok as [res Hres]; [discriminate|]. congruence.
Qed.

Lemma filter_and {B : Type} (p q : B -> bool) l :
  List.filter q (List.filter p l) = List.filter (fun x => p x && q x) l.
Proof.
  induction l as [|x l IH]; [reflexivity|].
  simpl. destruct (p x); simpl; [destruct (q x)|]; rewrite IH; reflexivity.
Qed.

Lemma count_map {B C : Type} `{EqDecision C} (f : B -> C) (v : C) l :
  count v (map f l) = length (List.filter (fun x => bool_decide (f x = v)) l).
Proof. unfold count. rewrite filter_map_comm, length_map. reflexivity. Qed.

(** X9. Each bucket of the series returned by [analyze_patronyms] holds the
    number of students with a non-empty patronymic that is classified so; a
    bucket that would be empty is absent, and the buckets come in the order
    of decreasing counts. *)
Theorem analyze_patronyms_buckets (df : frame) (g : gender) :
  series_get g (snd (analyze_patronyms df))
  = length (List.filter
              (fun r => negb (pystr_eqb (patronim (base r)) [])
                        && bool_decide
                             (gender_identification (patronim (base r)) = g))
              df) /\
  (forall n, In (g, n) (snd (analyze_patronyms df)) -> 0 < n) /\
  StronglySorted (fun p q : gender * nat => snd q <= snd p)
                 (snd (analyze_patronyms df)).
Proof.
  unfold analyze_patronyms. cbn [snd]. repeat split.
  - rewrite value_counts_get. unfold col. rewrite map_map, count_map.
    rewrite filter_and. reflexivity.
  - intros n Hn. apply value_counts_In in Hn. destruct Hn as [Hin ->].
    apply count_pos, Hin.
  - apply value_counts_sorted.
Qed.

Lemma list_sum_map_le {B : Type} (f g : B -> nat) l :
  (forall x, In x l -> f x <= g x) ->
  list_sum (map f l) <= list_sum (map g l).
Proof.
  induction l as [|x l IH]; intros H; simpl; [lia|].
  specialize (H x (or_introl eq_refl)) as Hx.
  specialize (IH (fun y Hy => H y (or_intror Hy))). lia.
Qed.

Lemma filter_length_le {B : Type} (p q : B -> bool) l :
  (forall x, In x l -> p x = true -> q x = true) ->
  length (List.filter p l) <= length (List.filter q l).
Proof.
  induction l as [|x l IH]; intros H; simpl; [lia|].
  specialize (IH (fun y Hy => H y (or_intror Hy))).
  destruct (p x) eqn:Hp.
  - rewrite (H x (or_introl eq_refl) Hp). simpl. lia.
  - destruct (q x); simpl; lia.
Qed.

Lemma count_map_filter_le {B C : Type} `{EqDecision C} (f : B -> C)
  (p : B -> bool) (v : C) l :
  count v (map f (List.filter p l)) <= count v (map f l).
Proof.
  rewrite !count_map, filter_and.
  apply filter_length_le. intros x _ Hx.
  apply andb_true_iff in Hx. tauto.
Qed.

(** X10. The per-course series returned by [find_homonymous_students] has
    one entry for each course of the roster; an entry is the number of
    students of the course who share their surname with another student of
    the same course, and the entries add up to at most the total number of
    homonyms. *)
Theorem hom_on_course_entries (df : frame) (exist : bool) (numb : nat)
  (per_course : list (pystr * nat)) (group : pystr) :
  find_homonymous_students df = Ok (exist, numb, per_course, group) ->
  (forall c, In c (map fst per_course) <-> In c (col курс df)) /\
  List.NoDup (map fst per_course) /\
  (forall c m, In (c, m) per_course ->
     m = length (List.filter
                   (fun r => 1 <? count (surname (base r))
                                        (col surname (where_eq курс c df)))
                   (where_eq курс c df))) /\
  list_sum (map snd per_course) <= numb.
Proof.
  unfold find_homonymous_students.
  set (df1 := sort_by by_курс df).
  assert (Permutation df1 df) as Hp by apply sort_by_perm.
  set (courses := sort_by pystr_leb (unique (col курс df1))).
  assert (forall c, In c courses <-> In c (col курс df)) as Hcourses.
  { intros c. unfold courses. split.
    - intros H. eapply Permutation_in in H; [|apply sort_by_perm].
      apply (proj1 (unique_In _ _)) in H. unfold col in *.
      eapply Permutation_in; [apply Permutation_map, Hp|exact H].
    - intros H. eapply Permutation_in; [symmetry; apply sort_by_perm|].
      apply unique_In. unfold col in *.
      eapply Permutation_in; [symmetry; apply Permutation_map, Hp|exact H]. }
  assert (List.NoDup courses) as Hnd.
  { unfold courses. eapply Permutation_NoDup;
      [symmetry; apply sort_by_perm|apply unique_NoDup]. }
  assert (forall c, homonyms (where_eq курс c df1)
                    = homonyms (where_eq курс c df)) as Hhom
    by (intros c; apply homonyms_perm, where_eq_perm, Hp).
  destruct (py_max_key _ _) as [g0|e]; [|discriminate].
  intros [= _ <- <- _].
  rewrite !map_map. cbn [fst snd]. rewrite map_id.
  split; [exact Hcourses|]. split; [exact Hnd|]. split.
  - intros c m Hin. apply in_map_iff in Hin.
    destruct Hin as (c' & [= -> <-] & _).
    rewrite Hhom. apply homonyms_rows.
  - change (list_sum (List.filter (fun numb => 1 <? numb)
                        (map snd (value_counts (col surname df)))))
      with (homonyms df).
    rewrite (homonyms_rows df).
    set (P := fun r : row => 1 <? count (surname (base r)) (col surname df)).
    rewrite <- (length_map (fun r => курс (base r)) (List.filter P df)).
    rewrite <- (count_total courses).
    + apply list_sum_map_le. intros c _.
      rewrite Hhom, homonyms_rows, count_map.
      unfold where_eq. rewrite !filter_and.
      apply filter_length_le. intros r _ Hr.
      apply andb_true_iff in Hr. destruct Hr as [Hc Hr].
      unfold P. apply andb_true_iff. split.
      * apply Nat.ltb_lt. apply Nat.ltb_lt in Hr.
        eapply Nat.lt_le_trans; [exact Hr|].
        unfold col. apply count_map_filter_le.
      * unfold pystr_eqb in Hc. exact Hc.
    + exact Hnd.
    + intros c Hc. apply Hcourses. apply in_map_iff in Hc.
      destruct Hc as (r & <- & Hr). apply filter_In in Hr.
      unfold col. apply in_map_iff. exists r. tauto.
Qed.

Lemma hom_on_course_entries_witness :
  list_sum (map snd [(ustr "1-й", 2)]) <= 2.
Proof.
  destruct (hom_on_course_entries roster3 true 2 [(ustr "1-й", 2)]
              (ustr "R3135")) as (_ & _ & _ & H); [|exact H].
  vm_compute. reflexivity.
Defined.

End StatisticsMore.

(** ** Task 1: the subset of one faculty *)

Section Task1Facts.
Import Frame Store Queries Samples.

Lemma unique_length_le {B : Type} `{EqDecision B} (l : list B) :
  length (unique l) <= length l.
Proof.
  apply NoDup_incl_length; [apply unique_NoDup|].
  intros x. apply unique_In.
Qed.

Lemma where_eq_idem f v (fr : frame) :
  where_eq f v (where_eq f v fr) = where_eq f v fr.
Proof.
  unfold where_eq. rewrite filter_and. apply filter_ext.
  intros r. apply andb_diag.
Qed.

Lemma filter_fsuir_students_run (h : gmap nat frame) (data : nat) (d : frame) :
  h !! data = Some d ->
  filter_fsuir_students data h
  = (Ok (length (where_eq факультет fsuir d),
         length (unique (col группа (where_eq факультет fsuir d))),
         fresh (dom h)),
     <[fresh (dom h) := where_eq факультет fsuir d]> h).
Proof.
  intros Hd. unfold filter_fsuir_students, mbind, store_bind.
  rewrite (bind_load _ _ _ _ Hd), bind_alloc. cbv beta.
  rewrite (bind_load (fresh (dom h)) (where_eq факультет fsuir d))
    by apply lookup_insert_eq.
  reflexivity.
Qed.

(** X11. [filter_fsuir_students] returns a new frame holding exactly the
    rows of the faculty ФСУиР in their order, its number of rows and its
    number of distinct groups: the length of a list that holds each group of
    these rows once and nothing else. There are no more groups than
    students and no group without a student. Applied to the frame it
    returned, it gives the same numbers and a frame with the same rows. *)
Theorem filter_fsuir_students_subset (h : gmap nat frame) (data : nat)
  (d : frame) :
  h !! data = Some d ->
  exists students groups fsuirs h' sub,
    filter_fsuir_students data h = (Ok (students, groups, fsuirs), h') /\
    h !! fsuirs = None /\ h' !! fsuirs = Some sub /\
    sub = List.filter (fun r => pystr_eqb (факультет (base r)) fsuir) d /\
    students = length sub /\
    (exists gs, List.NoDup gs /\
       (forall g, In g gs <-> exists r, In r sub /\ группа (base r) = g) /\
       groups = length gs) /\
    groups <= students /\ (groups = 0 <-> students = 0) /\
    exists fsuirs2 h'',
      filter_fsuir_students fsuirs h'
      = (Ok (students, groups, fsuirs2), h'') /\
      h'' !! fsuirs2 = Some sub.
Proof.
  intros Hd. set (sub := where_eq факультет fsuir d).
  set (l := fresh (dom h)). set (h' := <[l := sub]> h).
  assert (h' !! l = Some sub) as Hl by apply lookup_insert_eq.
  exists (length sub), (length (unique (col группа sub))), l, h', sub.
  split; [apply filter_fsuir_students_run, Hd|].
  split; [apply not_elem_of_dom, is_fresh|].
  split; [exact Hl|]. split; [reflexivity|]. split; [reflexivity|].
  split.
  { exists (unique (col группа sub)).
    split; [apply unique_NoDup|]. split; [|reflexivity].
    intros g. rewrite unique_In. unfold col. rewrite in_map_iff.
    split; intros (r & H1 & H2); exists r; tauto. }
  split; [etransitivity; [apply unique_length_le|];
          unfold col; rewrite length_map; reflexivity|].
  split.
  - rewrite !length_zero_iff_nil, unique_nil. unfold col.
    split; [apply map_eq_nil|intros ->; reflexivity].
  - exists (fresh (dom h')), (<[fresh (dom h') := sub]> h').
    rewrite (filter_fsuir_students_run h' l sub Hl).
    fold sub. unfold sub at 1 2 3. rewrite where_eq_idem. fold sub.
    split; [reflexivity|apply lookup_insert_eq].
Qed.

Lemma filter_fsuir_students_subset_witness :
  exists students groups fsuirs h',
    filter_fsuir_students 0 {[ 0 := MoreSamples.roster5 ]}
    = (Ok (students, groups, fsuirs), h') /\ groups <= students.
Proof.
  destruct (filter_fsuir_students_subset {[ 0 := MoreSamples.roster5 ]} 0
              MoreSamples.roster5 (lookup_singleton_eq _ _))
    as (students & groups & fsuirs & h' & sub & H1 & _ & _ & _ & _ & _ & H2
        & _).
  exists students, groups, fsuirs, h'. split; assumption.
Defined.

End Task1Facts.

(** ** Task 9: shape of the answer *)

Section ConsumerMore.
Import Frame Store Queries RunSpec.
Local Open Scope Z_scope.

(** The answer is cut from the rows sorted by number. *)
Lemma find_consecutive_students_cards (h : gmap nat frame) (data : nat)
  (d : frame) :
  h !! data = Some d ->
  exists h',
    find_consecutive_students data h
    = (Ok (firstn 5
             (select (map card_of (sort_by by_ису d))
                     (isin (valid_areas 5 (area_of (col ису (sort_by by_ису d))))
                           (area_of (col ису (sort_by by_ису d)))))),
       h').
Proof.
  intros Hd. unfold find_consecutive_students, mbind, store_bind.
  rewrite (bind_load _ _ _ _ Hd), bind_alloc. cbv beta.
  set (l := fresh (dom h)). set (sorted := sort_by by_ису d).
  rewrite (bind_load l sorted) by apply lookup_insert_eq. cbv beta.
  rewrite (bind_setitem l _ _ sorted) by apply lookup_insert_eq. cbv beta.
  set (f1 := set_col "diff" (diff (col ису sorted)) sorted).
  assert (length (diff (col ису sorted)) = length sorted) as Hdiff
    by (unfold col; rewrite diff_length, length_map; reflexivity).
  assert (length f1 = length sorted) as Hf1
    by (apply set_col_length, Hdiff).
  assert (derived_col "diff" f1 = Ok (diff (col ису sorted))) as Hd1
    by (apply derived_col_set_col, Hdiff).
  rewrite (bind_load l f1) by apply lookup_insert_eq. cbv beta.
  rewrite Hd1, bind_lift_ok. cbv beta.
  rewrite (bind_setitem l _ _ f1) by apply lookup_insert_eq. cbv beta.
  fold (cumsum (map ne_one (diff (col ису sorted)))).
  fold (area_of (col ису sorted)).
  set (area := area_of (col ису sorted)).
  assert (length area = length sorted) as Harea.
  { unfold area, area_of, cumsum.
    rewrite cumsum_from_length, length_map. exact Hdiff. }
  set (f2 := set_col "area" (map IntV area) f1).
  assert (derived_col "area" f2 = Ok (map IntV area)) as Hd2
    by (apply derived_col_set_col; rewrite length_map; congruence).
  rewrite (bind_load l f2) by apply lookup_insert_eq. cbv beta.
  rewrite Hd2, bind_lift_ok. cbv beta.
  rewrite ints_IntV, bind_lift_ok. cbv beta zeta.
  eexists. unfold mret, store_ret, ret. f_equal. f_equal. f_equal.
  rewrite select_map. f_equal. unfold f2, f1.
  rewrite !(set_col_base card_of); try reflexivity.
  - exact Hdiff.
  - rewrite length_map, Harea. symmetry. exact Hf1.
Qed.

Lemma select_In {B : Type} (x : B) l m : In x (select l m) -> In x l.
Proof.
  unfold select. intros H. apply in_map_iff in H.
  destruct H as ([y b] & <- & Hy). apply filter_In in Hy.
  destruct Hy as [Hy _]. apply in_combine_l in Hy. exact Hy.
Qed.

Lemma firstn_In {B : Type} (x : B) n l : In x (firstn n l) -> In x l.
Proof.
  revert l. induction n as [|n IH]; intros [|y l]; simpl; try tauto.
  intros [->|H]; [tauto|right; apply IH, H].
Qed.

Lemma consecutive_firstn n g : consecutive g -> consecutive (firstn n g).
Proof.
  revert n. induction g as [|x g IH]; intros n Hg.
  - rewrite firstn_nil. exact I.
  - destruct n as [|n]; [exact I|]. simpl firstn. destruct g as [|y g].
    + rewrite firstn_nil. exact I.
    + destruct Hg as [-> Hg]. specialize (IH n Hg).
      destruct n as [|n]; [exact I|]. simpl in *.
      split; [reflexivity|exact IH].
Qed.

(** X12. [find_consecutive_students] always returns. Its answer is cut from
    the rows of the roster; it has either no row, exactly when no group of
    consecutive numbers has five members, or exactly five rows whose numbers
    follow one another by one. *)
Theorem find_consecutive_students_answer (h : gmap nat frame) (data : nat)
  (d : frame) :
  h !! data = Some d ->
  exists cards h',
    find_consecutive_students data h = (Ok cards, h') /\
    (forall c, In c cards -> exists r, In r d /\ c = card_of r) /\
    (cards = [] <-> runs 5 (sort_by Z.leb (col ису d)) = []) /\
    (cards = [] \/
     length cards = 5%nat /\ consecutive (map card_ису cards)).
Proof.
  intros Hd.
  destruct (find_consecutive_students_cards h data d Hd) as (h' & Hrun).
  match type of Hrun with
  | _ = (Ok ?c, _) => remember c as cards eqn:Hcards
  end.
  destruct (find_consecutive_students_ids h data d Hd)
    as (cards' & h'' & Hrun' & Hids).
  rewrite Hrun in Hrun'. injection Hrun' as <- _.
  exists cards, h'.
  split; [exact Hrun|]. split.
  - intros c Hc. rewrite Hcards in Hc.
    apply firstn_In, select_In, in_map_iff in Hc.
    destruct Hc as (r & <- & Hr). exists r. split; [|reflexivity].
    eapply Permutation_in; [apply sort_by_perm|exact Hr].
  - clear Hcards Hrun. rewrite firsts_scan in Hids. rewrite runs_scan.
    destruct (List.filter _ _) as [|g gs] eqn:E.
    + simpl in Hids. apply map_eq_nil in Hids. subst cards.
      split; [tauto|left; reflexivity].
    + assert (5 <= length g)%nat as Hlen.
      { assert (In g (g :: gs)) as Hin by (left; reflexivity).
        rewrite <- E in Hin. apply filter_In in Hin.
        apply Nat.leb_le. tauto. }
      assert (consecutive g) as Hg.
      { assert (In g (g :: gs)) as Hin by (left; reflexivity).
        rewrite <- E in Hin. apply filter_In in Hin.
        pose proof (scan_groups_consecutive (sort_by Z.leb (col ису d))) as H.
        rewrite List.Forall_forall in H. apply H. tauto. }
      rewrite firstn_first_group in Hids by exact Hlen.
      assert (length cards = 5%nat) as Hc5.
      { rewrite <- (length_map card_ису), Hids, length_firstn. lia. }
      split; [|right].
      * split; [intros ->; discriminate|discriminate].
      * split; [exact Hc5|]. rewrite Hids. apply consecutive_firstn, Hg.
Qed.

Lemma find_consecutive_students_answer_witness :
  exists cards h',
    find_consecutive_students 0
      {[ 0%nat := Samples.roster_of_ids [20; 7; 8; 9; 10; 11; 12; 30] ]}
    = (Ok cards, h') /\
    (cards = [] \/
     length cards = 5%nat /\ consecutive (map card_ису cards)).
Proof.
  destruct (find_consecutive_students_answer
              {[ 0%nat := Samples.roster_of_ids [20; 7; 8; 9; 10; 11; 12; 30] ]}
              0 _ (lookup_singleton_eq _ _))
    as (cards & h' & H1 & _ & _ & H2).
  exists cards, h'. split; assumption.
Defined.

End ConsumerMore.

(** ** Task 8: outcomes of [highest_avg_grade_faculty] *)

Section Task8Facts.
Import Patronym Frame Store Queries MoreSamples.

Variable series_mean : list float -> float.
Variable py_round : float -> result Z.

Lemma where_eq_In f v (fr : frame) r :
  In r (where_eq f v fr) <-> In r fr /\ f (base r) = v.
Proof.
  unfold where_eq, pystr_eqb. rewrite filter_In, bool_decide_eq_true.
  reflexivity.
Qed.

Lemma max_from_In {K V : Type} (gt : V -> V -> bool) (l : list (K * V)) :
  forall best, In (max_from gt best l) (map fst (best :: l)).
Proof.
  induction l as [|p l IH]; intros best; simpl; [tauto|].
  destruct (gt (snd p) (snd best)).
  - right. apply IH.
  - destruct (IH best) as [H|H]; [left; exact H|right; right; exact H].
Qed.

Lemma py_max_key_In {K V : Type} (gt : V -> V -> bool) (d : list (K * V)) k :
  py_max_key gt d = Ok k -> In k (map fst d).
Proof.
  destruct d as [|p l]; [discriminate|]. intros [= <-]. apply max_from_In.
Qed.

Lemma align_length ser (fr : frame) : length (align ser fr) = length fr.
Proof. apply length_map. Qed.

(** X13. Without a third-year student [highest_avg_grade_faculty] raises
    [ValueError] ([max] of an empty dict). When it returns, the faculty is
    the faculty of a third-year student of the roster and the gender is
    [male] or [female], never [unknown]. *)
Theorem highest_avg_grade_faculty_outcome (h : gmap nat frame) (data : nat)
  (d : frame) :
  h !! data = Some d ->
  (where_eq курс (ustr "3-й") d = [] ->
   fst (highest_avg_grade_faculty series_mean py_round data h)
   = Raise ValueError) /\
  (forall fclt g z h',
     highest_avg_grade_faculty series_mean py_round data h
     = (Ok (fclt, g, z), h') ->
     (g = male \/ g = female) /\
     exists r, In r d /\ курс (base r) = ustr "3-й" /\
               факультет (base r) = fclt).
Proof.
  intros Hd. unfold highest_avg_grade_faculty, mbind, store_bind.
  rewrite (bind_load _ _ _ _ Hd), bind_alloc. cbv beta.
  set (l := fresh (dom h)). set (cs := where_eq курс (ustr "3-й") d).
  rewrite (bind_load l cs) by apply lookup_insert_eq. cbv beta zeta.
  split.
  - intros ->. reflexivity.
  - intros fclt g z h'.
    destruct (py_max_key _ _) as [top|e] eqn:E; [|discriminate].
    rewrite bind_lift_ok. cbv beta.
    apply py_max_key_In in E. rewrite map_map in E. cbn [fst] in E.
    rewrite map_id in E. apply (proj1 (unique_In _ _)) in E.
    unfold col in E. apply in_map_iff in E. destruct E as (r & Hr & Hin).
    apply where_eq_In in Hin. destruct Hin as [Hin Hcourse].
    rewrite (bind_load l cs) by apply lookup_insert_eq. cbv beta zeta.
    rewrite (bind_setitem l _ _ cs) by apply lookup_insert_eq. cbv beta.
    match goal with
    | |- context [set_col ?c ?v cs] => set (cs' := set_col c v cs)
    end.
    rewrite (bind_load l cs') by apply lookup_insert_eq. cbv beta.
    unfold cs' at 1. rewrite derived_col_set_col by apply align_length.
    rewrite bind_lift_ok. cbv beta zeta.
    destruct (PrimFloat.ltb _ _);
      match goal with
      | |- context [py_round ?x] => destruct (py_round x) as [z'|e']
      end; try discriminate; rewrite bind_lift_ok;
      intros [= <- <- _ _]; (split; [tauto|]); exists r; tauto.
Qed.

End Task8Facts.

Lemma highest_avg_grade_faculty_outcome_witness :
  exists fclt g z,
    fst (Queries.highest_avg_grade_faculty
           (fun l => hd 0%float l) (fun _ => Frame.Ok 5%Z) 0
           {[ 0 := MoreSamples.roster5 ]})
    = Frame.Ok (fclt, g, z) /\
    (g = Patronym.male \/ g = Patronym.female).
Proof.
  destruct (Queries.highest_avg_grade_faculty
              (fun l => hd 0%float l) (fun _ => Frame.Ok 5%Z) 0
              {[ 0 := MoreSamples.roster5 ]}) as [res h'] eqn:E.
  assert (res = Frame.Ok (Queries.fsuir, Patronym.female, 5%Z)) as Hres
    by (apply (f_equal fst) in E; vm_compute in E; rewrite <- E;
        vm_compute; reflexivity).
  subst res.
  destruct (highest_avg_grade_faculty_outcome
              (fun l => hd 0%float l) (fun _ => Frame.Ok 5%Z)
              {[ 0 := MoreSamples.roster5 ]} 0 MoreSamples.roster5
              (lookup_singleton_eq _ _)) as [_ H].
  destruct (H _ _ _ _ E) as [Hg _].
  exists Queries.fsuir, Patronym.female, 5%Z. split; [reflexivity|exact Hg].
Defined.

(** ** Task 7: rare names beginning with П *)

Section Task7Facts.
Import Re Patronym Frame Queries QuerySpec MoreSamples.

Local Abbreviation isw := Unicode.uni_isword.

(** [re.match] succeeds exactly when the pattern denotes a prefix. *)
Lemma match_start_spec r s :
  match_start isw r s = true <->
  exists w post, s = w ++ post /\ denotes isw r [] w post.
Proof.
  unfold match_start. split.
  - intros H. destruct (step isw r ([], s)) as [|[p' t'] l] eqn:E;
      [discriminate|].
    assert (In (p', t') (step isw r ([], s))) as Hin
      by (rewrite E; left; reflexivity).
    apply step_sound in Hin. destruct Hin as (w & Ht & _ & D).
    simpl in *. exists w, t'. split; assumption.
  - intros (w & post & -> & D).
    pose proof (step_complete isw r [] w post D [] eq_refl) as Hin.
    match goal with
    | |- match ?x with [] => _ | _ :: _ => _ end = true =>
      assert (In (rev w ++ [], post) x) as Hx by exact Hin;
      destruct x; [destruct Hx|reflexivity]
    end.
Qed.

(** A name accepted by the pattern begins with П and has a second
    character. *)
Lemma name_pat_prefix n :
  match_start isw name_pat n = true ->
  exists c rest, n = cp "П" :: c :: rest.
Proof.
  intros H. apply match_start_spec in H.
  destruct H as (w & post & -> & D).
  unfold name_pat, Seq in D. cbn [fold_right] in D.
  apply denotes_cat in D. destruct D as (w1 & w2 & -> & D1 & D).
  apply denotes_wordb in D1. destruct D1 as [-> _].
  apply denotes_cat in D. destruct D as (w3 & w4 & -> & D3 & D).
  apply denotes_cset in D3. destruct D3 as (x & -> & Hx).
  apply in_set_single in Hx. subst x.
  apply denotes_cat in D. destruct D as (u & w5 & -> & Du & _).
  apply denotes_plus_cset in Du. destruct Du as [Hne _].
  destruct u as [|c u]; [congruence|].
  simpl. eexists _, _. reflexivity.
Qed.

(** X14. [find_students_with_name_starting_P] answers with exactly the
    students whose name is accepted by the pattern and is the name of no
    other student; such a name begins with П. It raises [ValueError]
    ([pd.concat] of an empty list) exactly when there is no such student. *)
Theorem find_students_with_name_starting_P_answer (data : frame) :
  (find_students_with_name_starting_P data = Raise ValueError <->
   forall r, ~ rare_P data r) /\
  (forall rows,
     find_students_with_name_starting_P data = Ok rows ->
     forall x, In x rows <->
       exists r, rare_P data r /\
         x = (label r, (фио (base r), факультет (base r), курс (base r)))) /\
  (forall r, rare_P data r ->
     exists c rest, name (base r) = cp "П" :: c :: rest).
Proof.
  unfold find_students_with_name_starting_P.
  set (names := value_counts (col name data)).
  set (ones := List.filter _ (map fst names)).
  assert (forall n, In n ones <->
            In n (col name data) /\ match_start isw name_pat n = true /\
            count n (col name data) = 1) as Hones.
  { intros n. unfold ones. rewrite filter_In, andb_true_iff, Nat.eqb_eq.
    unfold names. rewrite value_counts_get.
    assert (In n (map fst (value_counts (col name data)))
            <-> In n (col name data)) as ->; [|tauto].
    split; intros Hn.
    - apply (proj1 (unique_In _ _)).
      eapply Permutation_in; [apply value_counts_keys|exact Hn].
    - eapply Permutation_in; [symmetry; apply value_counts_keys|].
      apply unique_In, Hn. }
  assert (forall r, rare_P data r <-> In r data /\ In (name (base r)) ones)
    as Hrare.
  { intros r. unfold rare_P. rewrite Hones. unfold col.
    split; [|tauto]. intros (Hr & Hm & Hc). repeat split; auto.
    apply in_map_iff. exists r. tauto. }
  assert (forall x,
    In x (flat_map
            (fun one => map (fun r => (label r, (фио (base r),
                                         факультет (base r), курс (base r))))
                            (where_eq name one data)) ones) <->
    exists r, rare_P data r /\
      x = (label r, (фио (base r), факультет (base r), курс (base r))))
    as Hrows.
  { intros x. rewrite in_flat_map. split.
    - intros (one & Hone & Hx). apply in_map_iff in Hx.
      destruct Hx as (r & <- & Hr). apply where_eq_In in Hr.
      destruct Hr as [Hr <-]. exists r. split; [|reflexivity].
      apply Hrare. tauto.
    - intros (r & Hr & ->). apply Hrare in Hr. destruct Hr as [Hr Hone].
      exists (name (base r)). split; [exact Hone|].
      apply in_map_iff. exists r. split; [reflexivity|].
      apply where_eq_In. tauto. }
  split; [|split].
  - destruct ones as [|one ones'] eqn:E.
    + split; [intros _|reflexivity]. intros r Hr.
      apply Hrare in Hr. destruct Hr as [_ []].
    + split; [discriminate|]. intros Hnone. exfalso.
      assert (In one (one :: ones')) as Hin by (left; reflexivity).
      apply Hones in Hin. destruct Hin as (Hin & Hm & Hc).
      unfold col in Hin. apply in_map_iff in Hin.
      destruct Hin as (r & Hr & Hd). apply (Hnone r).
      unfold rare_P. rewrite Hr. tauto.
  - intros rows Hrun x. destruct ones as [|one ones'] eqn:E; [discriminate|].
    injection Hrun as <-. apply Hrows.
  - intros r (_ & Hm & _). apply name_pat_prefix, Hm.
Qed.

End Task7Facts.

(** ** Task 6: the most popular name *)

Section Task6Facts.
Import Frame Queries MoreSamples.

Variable round_share : nat -> nat -> float.

(** [describe()["top"]] is a most frequent value of the column. *)
Lemma describe_top_spec (l : list pystr) v :
  describe_top l = Ok v ->
  In v l /\ forall m, count m l <= count v l.
Proof.
  unfold describe_top.
  pose proof (value_counts_sorted l) as Hs.
  pose proof (fun x n => value_counts_In x n l) as Hin.
  destruct (value_counts l) as [|[v0 n0] t]; [discriminate|].
  intros [= <-]. cbn [fst].
  destruct (proj1 (Hin v0 n0) (or_introl eq_refl)) as [Hv Hn].
  split; [exact Hv|]. intros m.
  destruct (in_dec (decide_rel eq) m l) as [Hm|Hm].
  - assert (In (m, count m l) ((v0, n0) :: t)) as Hmin
      by (apply Hin; split; [exact Hm|reflexivity]).
    inversion Hs as [|? ? _ Hall]; subst.
    destruct Hmin as [[= -> ?]|Hmin]; [lia|].
    rewrite List.Forall_forall in Hall. apply (Hall _ Hmin).
  - rewrite (count_notin m l Hm). lia.
Qed.

Lemma describe_top_ok (l : list pystr) :
  l <> [] -> exists v, describe_top l = Ok v.
Proof.
  intros Hne. unfold describe_top.
  destruct (value_counts l) as [|p t] eqn:E; [|eauto].
  apply (proj1 (value_counts_nil _)) in E. contradiction.
Qed.

Lemma select_map_mask {B : Type} (g : B -> bool) (l : list B) :
  select l (map g l) = List.filter g l.
Proof.
  unfold select. induction l as [|x l IH]; [reflexivity|].
  simpl. destruct (g x); simpl; rewrite IH; reflexivity.
Qed.

Lemma find_own_label (pred : row -> bool) (data : frame) r :
  List.NoDup (map label data) -> In r data ->
  List.find (fun p : nat * bool => fst p =? label r)
            (combine (map label data) (map pred data))
  = Some (label r, pred r).
Proof.
  induction data as [|r0 data IH]; intros Hnd Hin; [destruct Hin|].
  inversion Hnd as [|? ? Hr0 Hnd']; subst. simpl.
  destruct (label r0 =? label r) eqn:E.
  - apply Nat.eqb_eq in E. destruct Hin as [->|Hin]; [reflexivity|].
    exfalso. apply Hr0. rewrite E. apply in_map, Hin.
  - destruct Hin as [->|Hin]; [rewrite Nat.eqb_refl in E; discriminate|].
    apply IH; assumption.
Qed.

(** With distinct labels, a mask made on the roster selects from a part of
    the roster the rows that satisfy it. *)
Lemma where_also_eq f v (data fr : frame) :
  List.NoDup (map label data) -> (forall r, In r fr -> In r data) ->
  where_also f v data fr = where_eq f v fr.
Proof.
  intros Hnd Hsub. unfold where_also, where_eq, reindex_mask.
  rewrite <- select_map_mask. f_equal. apply map_ext_in.
  intros r Hr. rewrite (find_own_label _ data r Hnd (Hsub r Hr)).
  reflexivity.
Qed.

Lemma col_In_row {B : Type} (f : student -> B) (fr : frame) x :
  In x (col f fr) <-> exists r, In r fr /\ f (base r) = x.
Proof.
  unfold col. rewrite in_map_iff. split; intros (r & H1 & H2); exists r; tauto.
Qed.

(** X15. For a roster with distinct labels and at least one row
    [most_popular_name] returns. The name it gives is a name of the roster
    that no other name outnumbers, the group, faculty and course it gives
    are those of one student of that name, and the share is the rounded
    ratio of the occurrences of the name to the number of rows. *)
Theorem most_popular_name_answer (data : frame) :
  List.NoDup (map label data) ->
  (data <> [] -> exists res, most_popular_name round_share data = Ok res) /\
  (forall top_name top_group top_fclt top_course frac,
     most_popular_name round_share data
     = Ok (top_name, top_group, top_fclt, top_course, frac) ->
     (forall m, count m (col name data) <= count top_name (col name data)) /\
     (exists r, In r data /\ name (base r) = top_name /\
                группа (base r) = top_group /\
                факультет (base r) = top_fclt /\
                курс (base r) = top_course) /\
     frac = round_share (count top_name (col name data)) (length data)).
Proof.
  intros Hnd. unfold most_popular_name.
  assert (forall n fr, (forall r, In r fr -> In r data) ->
            forall r, In r (where_eq name n fr) -> In r data) as Hsub1
    by (intros n fr H r Hr; apply where_eq_In in Hr; apply H; tauto).
  split.
  - intros Hne.
    destruct (describe_top_ok (col name data)) as [n Hn].
    { unfold col. intros H. apply map_eq_nil in H. contradiction. }
    rewrite Hn. apply describe_top_spec in Hn. destruct Hn as [Hn _].
    apply col_In_row in Hn. destruct Hn as (r1 & Hr1 & Hn1).
    set (named := where_eq name n data).
    assert (In r1 named) as Hr1n by (apply where_eq_In; tauto).
    destruct (describe_top_ok (col группа named)) as [g Hg].
    { intros H. unfold col in H. apply map_eq_nil in H.
      rewrite H in Hr1n. destruct Hr1n. }
    rewrite Hg. apply describe_top_spec in Hg. destruct Hg as [Hg _].
    apply col_In_row in Hg. destruct Hg as (r2 & Hr2 & Hg2).
    rewrite (where_also_eq группа g data named Hnd)
      by (intros r Hr; apply where_eq_In in Hr; tauto).
    set (grouped := where_eq группа g named).
    assert (In r2 grouped) as Hr2g by (apply where_eq_In; tauto).
    destruct (describe_top_ok (col факультет grouped)) as [f Hf].
    { intros H. unfold col in H. apply map_eq_nil in H.
      rewrite H in Hr2g. destruct Hr2g. }
    rewrite Hf. apply describe_top_spec in Hf. destruct Hf as [Hf _].
    apply col_In_row in Hf. destruct Hf as (r3 & Hr3 & Hf3).
    assert (forall r, In r grouped -> In r data) as Hsubg.
    { intros r Hr. apply where_eq_In in Hr. destruct Hr as [Hr _].
      apply where_eq_In in Hr. tauto. }
    rewrite (where_also_eq факультет f data grouped Hnd Hsubg).
    destruct (describe_top_ok (col курс (where_eq факультет f grouped)))
      as [c Hc].
    { intros H. unfold col in H. apply map_eq_nil in H.
      assert (In r3 (where_eq факультет f grouped)) as Hr3f
        by (apply where_eq_In; tauto).
      rewrite H in Hr3f. destruct Hr3f. }
    rewrite Hc. eauto.
  - intros n g f c x.
    destruct (describe_top (col name data)) as [n'|e] eqn:En; [|discriminate].
    set (named := where_eq name n' data).
    destruct (describe_top (col группа named)) as [g'|e] eqn:Eg;
      [|discriminate].
    rewrite (where_also_eq группа g' data named Hnd)
      by (intros r Hr; apply where_eq_In in Hr; tauto).
    set (grouped := where_eq группа g' named).
    destruct (describe_top (col факультет grouped)) as [f'|e] eqn:Ef;
      [|discriminate].
    assert (forall r, In r grouped -> In r data) as Hsubg.
    { intros r Hr. apply where_eq_In in Hr. destruct Hr as [Hr _].
      apply where_eq_In in Hr. tauto. }
    rewrite (where_also_eq факультет f' data grouped Hnd Hsubg).
    destruct (describe_top (col курс (where_eq факультет f' grouped)))
      as [c'|e] eqn:Ec; [|discriminate].
    intros [= <- <- <- <- <-].
    apply describe_top_spec in En, Ec. destruct En as [_ Hmax].
    destruct Ec as [Hc _]. apply col_In_row in Hc.
    destruct Hc as (r & Hr & Hcr).
    apply where_eq_In in Hr. destruct Hr as [Hr Hfr].
    apply where_eq_In in Hr. destruct Hr as [Hr Hgr].
    apply where_eq_In in Hr. destruct Hr as [Hr Hnr].
    split; [exact Hmax|]. split; [exists r; tauto|reflexivity].
Qed.

End Task6Facts.

Lemma most_popular_name_answer_witness :
  exists res,
    Queries.most_popular_name (fun _ _ => 0.5%float) MoreSamples.roster5
    = Frame.Ok res.
Proof.
  apply (most_popular_name_answer (fun _ _ => 0.5%float) MoreSamples.roster5).
  - vm_compute. repeat constructor; simpl; intuition discriminate.
  - discriminate.
Defined.

(** ** Task 5: the per-course series *)

Section Task5Facts.
Import Frame Queries MoreSamples.

Variable counts_mean : list nat -> float.
Variable counts_median : list nat -> float.

Lemma pystr_leb_total a : forall b,
  pystr_leb a b = false -> pystr_leb b a = true.
Proof.
  induction a as [|x a IH]; intros [|y b]; simpl; try congruence.
  destruct (x <? y)%N eqn:Exy; [discriminate|].
  destruct (y <? x)%N eqn:Eyx; [reflexivity|]. apply IH.
Qed.

Lemma pystr_leb_trans a : forall b c,
  pystr_leb a b = true -> pystr_leb b c = true -> pystr_leb a c = true.
Proof.
  induction a as [|x a IH]; intros [|y b] [|z c]; simpl; try congruence.
  destruct (x <? y)%N eqn:Exy, (y <? x)%N eqn:Eyx,
           (y <? z)%N eqn:Eyz, (z <? y)%N eqn:Ezy,
           (x <? z)%N eqn:Exz, (z <? x)%N eqn:Ezx;
    try congruence; try reflexivity;
    rewrite ?N.ltb_lt, ?N.ltb_ge in *; try lia.
  apply IH.
Qed.

Lemma value_counts_positive {B : Type} `{EqDecision B} (l : list B) :
  Forall (fun n => 0 < n) (map snd (value_counts l)).
Proof.
  apply List.Forall_forall. intros n Hn. apply in_map_iff in Hn.
  destruct Hn as ([v n'] & <- & Hin). apply value_counts_In in Hin.
  destruct Hin as [Hv ->]. apply count_pos, Hv.
Qed.

Lemma strongly_sorted_map {B C : Type} (f : B -> C) (R : C -> C -> Prop)
  (l : list B) :
  StronglySorted (fun a b => R (f a) (f b)) l -> StronglySorted R (map f l).
Proof.
  induction 1 as [|x l Hs IH Hx]; simpl; constructor; [exact IH|].
  apply List.Forall_map. exact Hx.
Qed.

(** The counts of a counted series, read off its keys. *)
Lemma value_counts_snd_keys {B : Type} `{EqDecision B} (l : list B) :
  map snd (value_counts l)
  = map (fun v => count v l) (map fst (value_counts l)).
Proof.
  rewrite map_map. apply map_ext_in. intros [v n] Hin.
  apply value_counts_In in Hin. destruct Hin as [_ ->]. reflexivity.
Qed.

(** X16. The two series of [course_statistics] have the same index: the
    courses of the roster, each once, in ascending order. The value of a
    course is the mean (the median) of the numbers of students of its
    faculties: there is a list that holds each faculty with a student in
    that course once and nothing else, and the mean and the median are
    taken of the list of the numbers of students of the course in these
    faculties, the largest number first. This list is not empty, its
    numbers are positive and add up to the number of students of the
    course. *)
Theorem course_statistics_index (data : frame) :
  let av := fst (course_statistics counts_mean counts_median data) in
  let med := snd (course_statistics counts_mean counts_median data) in
  map fst av = map fst med /\
  List.NoDup (map fst av) /\
  StronglySorted (fun a b => pystr_leb a b = true) (map fst av) /\
  (forall c, In c (map fst av) <-> In c (col курс data)) /\
  (forall c, In c (map fst av) ->
     exists fs,
       let counts :=
         map (fun f => length (where_eq факультет f (where_eq курс c data)))
             fs in
       List.NoDup fs /\
       (forall f, In f fs <->
          exists r, In r data /\ курс (base r) = c /\ факультет (base r) = f)
       /\
       In (c, counts_mean counts) av /\ In (c, counts_median counts) med /\
       StronglySorted (fun n m => m <= n) counts /\
       counts <> [] /\ Forall (fun n => 0 < n) counts /\
       list_sum counts = length (where_eq курс c data)).
Proof.
  unfold course_statistics. cbn [fst snd].
  rewrite !map_map. cbn [fst]. rewrite map_id.
  set (courses := sort_by pystr_leb (unique (col курс data))).
  assert (forall c, In c courses <-> In c (col курс data)) as Hc.
  { intros c. unfold courses. split; intros H.
    - apply (proj1 (unique_In _ _)).
      eapply Permutation_in; [apply sort_by_perm|exact H].
    - eapply Permutation_in; [symmetry; apply sort_by_perm|].
      apply unique_In, H. }
  split; [reflexivity|]. split.
  - eapply Permutation_NoDup; [symmetry; apply sort_by_perm|].
    apply unique_NoDup.
  - split; [|split; [exact Hc|]].
    + apply sort_by_strongly_sorted.
      * intros a b. apply pystr_leb_total.
      * intros a b c. apply pystr_leb_trans.
    + intros c Hin.
      set (l := col факультет (where_eq курс c data)).
      exists (map fst (value_counts l)). cbv zeta.
      assert (map (fun f => length (where_eq факультет f (where_eq курс c data)))
                  (map fst (value_counts l))
              = map snd (value_counts l)) as ->.
      { rewrite value_counts_snd_keys. apply map_ext. intros f.
        unfold l, col. rewrite count_map. reflexivity. }
      split.
      { eapply Permutation_NoDup; [symmetry; apply value_counts_keys|].
        apply unique_NoDup. }
      split.
      { intros f. split.
        - intros Hf.
          eapply Permutation_in in Hf; [|apply value_counts_keys].
          apply (proj1 (unique_In _ _)) in Hf.
          apply col_In_row in Hf. destruct Hf as (r & Hr & Hfr).
          apply where_eq_In in Hr. exists r. tauto.
        - intros (r & Hr & Hcr & Hfr).
          eapply Permutation_in; [symmetry; apply value_counts_keys|].
          apply unique_In, col_In_row. exists r.
          split; [apply where_eq_In; tauto|exact Hfr]. }
      split; [apply in_map_iff; exists c; tauto|].
      split; [apply in_map_iff; exists c; tauto|].
      split; [apply strongly_sorted_map, value_counts_sorted|].
      split; [|split].
      * intros H. apply map_eq_nil, (proj1 (value_counts_nil _)) in H.
        unfold l, col in H. apply map_eq_nil in H.
        apply Hc, col_In_row in Hin. destruct Hin as (r & Hr & Hcr).
        assert (In r (where_eq курс c data)) as Hr'
          by (apply where_eq_In; tauto).
        rewrite H in Hr'. destruct Hr'.
      * apply value_counts_positive.
      * rewrite value_counts_total. unfold l, col. apply length_map.
Qed.

End Task5Facts.

(** ** The script: splitting the full name (lines 205 to 213) *)

Section NameSplitFacts.
Import Frame NameSplit.

Lemma split_space_nonempty (s : pystr) : split_space s <> [].
Proof.
  destruct s as [|c t]; simpl; [discriminate|].
  destruct (c =? space)%N; [discriminate|].
  destruct (split_space t); discriminate.
Qed.

Lemma join_space_cons (w : pystr) (ws : list pystr) :
  ws <> [] -> join_space (w :: ws) = w ++ space :: join_space ws.
Proof. destruct ws; [congruence|reflexivity]. Qed.

Lemma join_space_push (c : N) (w : pystr) (ws : list pystr) :
  join_space ((c :: w) :: ws) = c :: join_space (w :: ws).
Proof. destruct ws; reflexivity. Qed.

Lemma join_split (s : pystr) : join_space (split_space s) = s.
Proof.
  induction s as [|c t IH]; [reflexivity|].
  simpl. destruct (c =? space)%N eqn:E.
  - apply N.eqb_eq in E. subst c.
    rewrite join_space_cons by apply split_space_nonempty.
    simpl. now rewrite IH.
  - destruct (split_space t) as [|w ws] eqn:Et.
    + now apply split_space_nonempty in Et.
    + rewrite join_space_push. now rewrite IH.
Qed.

Lemma split_space_word (w : pystr) : ~ In space w -> split_space w = [w].
Proof.
  induction w as [|c t IH]; intros H; [reflexivity|].
  simpl. destruct (c =? space)%N eqn:E.
  - apply N.eqb_eq in E. subst c. exfalso. apply H. now left.
  - rewrite IH; [reflexivity|]. intros Hin. apply H. now right.
Qed.

Lemma split_space_app (w r : pystr) :
  ~ In space w -> split_space (w ++ space :: r) = w :: split_space r.
Proof.
  induction w as [|c t IH]; intros H.
  - reflexivity.
  - cbn [app split_space]. destruct (c =? space)%N eqn:E.
    + apply N.eqb_eq in E. subst c. exfalso. apply H. now left.
    + rewrite IH; [reflexivity|]. intros Hin. apply H. now right.
Qed.

Lemma split_join (ws : list pystr) :
  ws <> [] -> List.Forall (fun w => ~ In space w) ws ->
  split_space (join_space ws) = ws.
Proof.
  induction ws as [|w ws IH]; intros Hne Hall; [congruence|].
  inversion Hall as [|? ? Hw Hws]; subst.
  destruct ws as [|w' ws'].
  - simpl. now apply split_space_word.
  - rewrite join_space_cons by discriminate.
    rewrite split_space_app by exact Hw.
    rewrite IH; [reflexivity|discriminate|exact Hws].
Qed.

Lemma split_space_length (s : pystr) :
  length (split_space s) = S (count_occ N.eq_dec s space).
Proof.
  induction s as [|c t IH]; [reflexivity|].
  cbn [split_space count_occ]. destruct (c =? space)%N eqn:E.
  - apply N.eqb_eq in E. subst c.
    destruct (N.eq_dec space space); [|congruence].
    simpl. now rewrite IH.
  - apply N.eqb_neq in E.
    destruct (N.eq_dec c space); [congruence|].
    destruct (split_space t) as [|w ws] eqn:Et.
    + now apply split_space_nonempty in Et.
    + simpl in *. exact IH.
Qed.

Lemma truthy_word (w : pystr) : w <> [] -> truthy (Some w) = [w].
Proof. destruct w; [congruence|reflexivity]. Qed.

Lemma truthy_nonempty (c : option pystr) (w : pystr) :
  In w (truthy c) -> w <> [].
Proof.
  destruct c as [[|x t]|]; simpl; try tauto.
  intros [<-|[]]. discriminate.
Qed.

Lemma join_space_nil (l : list pystr) :
  List.Forall (fun w => w <> []) l -> join_space l = [] -> l = [].
Proof.
  destruct l as [|w ws]; [reflexivity|].
  intros Hall H. inversion Hall as [|? ? Hw _]; subst.
  destruct ws; simpl in H.
  - contradiction.
  - destruct w; [contradiction|discriminate].
Qed.

(** X17. A full name made of a surname, a name and up to four further
    tokens, each not empty and without a space, joined by single spaces:
    the script stores the surname and the name as they are and the
    remaining tokens, joined by single spaces, as the patronymic; when
    there is such a token, the three fields joined by spaces give the full
    name back. *)
Theorem names_of_round_trip (s n : pystr) (ps : list pystr) :
  List.Forall word (s :: n :: ps) -> length ps <= 4 ->
  names_of (join_space (s :: n :: ps)) = (Some s, Some n, join_space ps) /\
  (ps <> [] ->
   join_space [s; n; join_space ps] = join_space (s :: n :: ps)).
Proof.
  intros Hall Hlen. split.
  - unfold names_of. cbv zeta.
    rewrite split_join.
    + assert (List.Forall (fun w => w <> []) ps) as Hne.
      { inversion Hall as [|? ? _ H1]; subst.
        inversion H1 as [|? ? _ H2]; subst.
        eapply List.Forall_impl; [|exact H2]. intros w [H _]. exact H. }
      cbn [nth_error].
      destruct ps as [|p1 [|p2 [|p3 [|p4 [|p5 ps]]]]];
        cbn [nth_error flat_map app];
        repeat match goal with
               | H : List.Forall _ (_ :: _) |- _ =>
                 let a := fresh "Ha" in
                 inversion H as [|? ? a ?]; subst; clear H
               end;
        rewrite ?truthy_word by assumption;
        try reflexivity.
      simpl in Hlen. lia.
    + discriminate.
    + eapply List.Forall_impl; [|exact Hall]. intros w [_ H]. exact H.
  - intros Hps. destruct ps as [|p ps]; [congruence|].
    rewrite (join_space_cons s) by discriminate.
    rewrite (join_space_cons n) by discriminate.
    rewrite (join_space_cons s) by discriminate.
    rewrite (join_space_cons n) by discriminate.
    reflexivity.
Qed.

Lemma names_of_round_trip_witness :
  names_of (ustr "Иванов Иван Иванович Оглы")
  = (Some (ustr "Иванов"), Some (ustr "Иван"), ustr "Иванович Оглы").
Proof.
  refine (proj1 (names_of_round_trip (ustr "Иванов") (ustr "Иван")
                   [ustr "Иванович"; ustr "Оглы"] _ _)).
  - repeat constructor; vm_compute; try discriminate;
      intros H; repeat destruct H as [H|H]; try discriminate H; exact H.
  - simpl. lia.
Defined.

(** X18. The script raises [KeyError] exactly when every full name of the
    table has fewer than five spaces, so that no row has a sixth token and
    the column [4е имя] does not exist. *)
Theorem split_names_raises_iff (first : pystr) (rest : list pystr) :
  split_names first rest = Raise KeyError <->
  List.Forall (fun fio => count_occ N.eq_dec fio space < 5) (first :: rest).
Proof.
  unfold split_names. cbv zeta.
  set (ls := map (fun fio => length (split_space fio)) (first :: rest)).
  assert (list_max ls <= 5 <->
          List.Forall (fun fio => count_occ N.eq_dec fio space < 5)
                      (first :: rest)) as Hmax.
  { rewrite list_max_le. unfold ls. rewrite List.Forall_map.
    split; intros H; (eapply List.Forall_impl; [|exact H]);
      intros fio; cbv beta; rewrite split_space_length; lia. }
  destruct (list_max ls <? 6) eqn:E.
  - apply Nat.ltb_lt in E. split; [intros _|reflexivity].
    apply Hmax. lia.
  - apply Nat.ltb_ge in E. split; [discriminate|].
    intros H. apply Hmax in H. lia.
Qed.

(** X19. Tokens after the sixth never reach the stored fields: a full name
    of six tokens without spaces gives the same surname, name and
    patronymic whatever further tokens follow. *)
Theorem names_of_drops_extra (ws extra : list pystr) :
  length ws = 6 ->
  List.Forall (fun w => ~ In space w) (ws ++ extra) ->
  names_of (join_space (ws ++ extra)) = names_of (join_space ws).
Proof.
  intros Hlen Hall.
  assert (List.Forall (fun w => ~ In space w) ws) as Hws.
  { apply List.Forall_app in Hall. tauto. }
  destruct ws as [|w0 [|w1 [|w2 [|w3 [|w4 [|w5 [|w6 ws]]]]]]];
    simpl in Hlen; try lia.
  unfold names_of. cbv zeta.
  rewrite !split_join by (try discriminate; assumption).
  reflexivity.
Qed.

Lemma names_of_drops_extra_witness :
  names_of (ustr "a b c d e f g h") = names_of (ustr "a b c d e f").
Proof.
  refine (names_of_drops_extra
            [ustr "a"; ustr "b"; ustr "c"; ustr "d"; ustr "e"; ustr "f"]
            [ustr "g"; ustr "h"] _ _).
  - reflexivity.
  - repeat constructor; vm_compute;
      intros H; repeat destruct H as [H|H]; try discriminate H; exact H.
Defined.

(** X20. The stored patronymic is the empty string exactly when the third
    to sixth tokens of the full name are all missing or empty; these are
    the rows [analyze_patronyms] counts as having no patronymic. *)
Theorem names_of_no_patronym (fio : pystr) :
  snd (names_of fio) = [] <->
  List.Forall (fun i => nth i (split_space fio) [] = []) [2; 3; 4; 5].
Proof.
  unfold names_of. cbv zeta. cbn [snd].
  set (row := split_space fio).
  assert (forall i, truthy (nth_error row i) = [] <-> nth i row [] = [])
    as Hcell.
  { intros i. destruct (nth_error row i) as [w|] eqn:E.
    - rewrite (nth_error_nth _ _ _ E).
      destruct w; simpl; split; congruence.
    - apply nth_error_None in E. rewrite nth_overflow by exact E.
      simpl. tauto. }
  split.
  - intros H. apply join_space_nil in H.
    + cbn [flat_map] in H.
      repeat match type of H with
             | _ ++ _ = [] => apply app_eq_nil in H; destruct H as [?H H]
             end.
      repeat constructor; apply Hcell; assumption.
    + apply List.Forall_forall. intros w Hin.
      apply in_flat_map in Hin. destruct Hin as (c & _ & Hw).
      eapply truthy_nonempty, Hw.
  - intros H.
    repeat match goal with
           | H : List.Forall _ (_ :: _) |- _ =>
             let a := fresh "Ha" in
             inversion H as [|? ? a ?]; subst; clear H
           end.
    cbn [flat_map].
    repeat match goal with
           | H : nth _ row [] = [] |- _ => apply Hcell in H; rewrite H; clear H
           end.
    reflexivity.
Qed.

End NameSplitFacts.
